(** * node-coal: a cache-aside layer over Redis with a spin lock

    Shallow embedding of [lib/index.js] (the [Coal] object with its [get],
    [set] and [del] methods) and of the JavaScript built-ins those methods
    rely on ([typeof], [toString], [JSON.stringify], [JSON.parse]), followed
    by the properties of the value codec, the spin lock and the three
    public operations.

    Conventions of the embedding:
    - JavaScript strings and Redis strings are byte strings ([string]);
    - a number is the decimal that [Number::toString] prints for it, the
      shortest one that identifies the double: [JNum n] is the integer
      [n], [JDec m e] is the non-integer [m * 10^e]. Every integer of
      magnitude up to [2^53] and every decimal of up to 15 significant
      digits in the range of the normal doubles is such a decimal. There
      is no [NaN], no infinity and no negative zero. The arithmetic of
      [get] and [set] on [ttl] and [timeout] is exact, which is what the
      doubles compute as long as the results stay within [2^53] (see
      [exact_times]); the elapsed time of the spin lock is rounded as
      the doubles round it (see [to_fixed4]);
    - the Redis server is a finite map from keys to entries; a command is
      executed atomically when the client sends it, and its reply waits
      in the client until the event loop delivers it to the callback;
    - the event loop is a schedule of steps: runs of the timer callback,
      deliveries of replies, and commands of other clients;
    - a promise is represented by the way it settles ([outcome]). *)

From Stdlib Require Import ZArith NArith Ascii String List Lia Bool.
From stdpp Require Import base option list strings gmap.

Local Open Scope Z_scope.

(** [String.append] must unfold under [simpl] for the codec proofs. *)
Arguments String.append !s1 s2 : simpl nomatch.

(* ===================================================================== *)
(** ** JavaScript values *)
(* ===================================================================== *)

Unset Elimination Schemes.

(** Values that reach the cache. An object is the list of its own
    enumerable properties in enumeration order; a function is identified
    by its source text, which is what [toString] returns for it. *)
Inductive jsval : Type :=
| JUndefined
| JNull
| JBool (b : bool)
| JNum (n : Z)
| JDec (m e : Z)
| JStr (s : string)
| JArr (l : list jsval)
| JObj (l : list (string * jsval))
| JFun (src : string).

Set Elimination Schemes.

(** Induction over nested arrays and objects. *)
Definition jsval_ind (P : jsval → Prop)
    (Hundef : P JUndefined) (Hnull : P JNull)
    (Hbool : ∀ b, P (JBool b)) (Hnum : ∀ n, P (JNum n))
    (Hdec : ∀ m e, P (JDec m e)) (Hstr : ∀ s, P (JStr s))
    (Harr : ∀ l, Forall P l → P (JArr l))
    (Hobj : ∀ l, Forall (λ kv, P kv.2) l → P (JObj l))
    (Hfun : ∀ src, P (JFun src)) : ∀ v, P v :=
  fix go (v : jsval) : P v :=
    match v with
    | JUndefined => Hundef
    | JNull => Hnull
    | JBool b => Hbool b
    | JNum n => Hnum n
    | JDec m e => Hdec m e
    | JStr s => Hstr s
    | JArr l =>
        Harr l ((fix elems (l : list jsval) : Forall P l :=
                   match l with
                   | [] => Forall_nil_2 P
                   | x :: l' => Forall_cons_2 P x l' (go x) (elems l')
                   end) l)
    | JObj l =>
        Hobj l ((fix props (l : list (string * jsval))
                   : Forall (λ kv, P kv.2) l :=
                   match l with
                   | [] => Forall_nil_2 _
                   | kv :: l' => Forall_cons_2 _ kv l' (go kv.2) (props l')
                   end) l)
    | JFun src => Hfun src
    end.

Inductive jstype : Type :=
| TUndefined | TObject | TBoolean | TNumber | TString | TFunction.

(** The [typeof] operator; [typeof null] is ["object"]. *)
Definition typeof (v : jsval) : jstype :=
  match v with
  | JUndefined => TUndefined
  | JNull | JArr _ | JObj _ => TObject
  | JBool _ => TBoolean
  | JNum _ | JDec _ _ => TNumber
  | JStr _ => TString
  | JFun _ => TFunction
  end.

Definition jstype_eqb (a b : jstype) : bool :=
  match a, b with
  | TUndefined, TUndefined | TObject, TObject | TBoolean, TBoolean
  | TNumber, TNumber | TString, TString | TFunction, TFunction => true
  | _, _ => false
  end.

(* ===================================================================== *)
(** ** Characters and decimal digits *)
(* ===================================================================== *)

Definition code (c : ascii) : N := N_of_ascii c.

Definition is_digit (c : ascii) : bool :=
  ((48 <=? code c) && (code c <=? 57))%N.

Definition digit_val (c : ascii) : Z := Z.of_N (code c) - 48.

Definition digit_char (d : N) : ascii := ascii_of_N (48 + d).

(** Decimal digits of [n], most significant first, put in front of [acc]. *)
Fixpoint to_digits (fuel : nat) (n : N) (acc : string) : string :=
  match fuel with
  | O => acc
  | S fuel =>
      let acc' := String (digit_char (n mod 10)) acc in
      if (n <? 10)%N then acc' else to_digits fuel (n / 10) acc'
  end.

Definition digits (n : N) : string :=
  to_digits (S (N.to_nat (N.log2 n))) n "".

Fixpoint zeros (k : nat) : string :=
  match k with
  | O => ""
  | S k => String "0" (zeros k)
  end.

(** Divide out the factors of ten of [m], counting them in [e]. *)
Fixpoint strip_zeros (fuel : nat) (m e : Z) : Z * Z :=
  match fuel with
  | O => (m, e)
  | S fuel =>
      if (m =? 0) || negb (m mod 10 =? 0) then (m, e)
      else strip_zeros fuel (m / 10) (e + 1)
  end.

Fixpoint split_at (k : nat) (s : string) : string * string :=
  match k, s with
  | S k, String c s' => let (a, b) := split_at k s' in (String c a, b)
  | _, _ => ("", s)
  end.

(** [Number::toString] for the positive number [s * 10^e], where [s] has
    no factor of ten: with [k] digits in [s] and [n = k + e], plain digits
    when [k <= n <= 21], a decimal point inside when [0 < n <= 21], leading
    ["0."] when [-6 < n <= 0], exponent notation otherwise. *)
Definition positive_to_string (s e : Z) : string :=
  let ds := digits (Z.to_N s) in
  let k := Z.of_nat (String.length ds) in
  let n := k + e in
  if (k <=? n) && (n <=? 21) then ds +:+ zeros (Z.to_nat (n - k))
  else if (0 <? n) && (n <=? 21) then
    let (a, b) := split_at (Z.to_nat n) ds in a +:+ "." +:+ b
  else if (-6 <? n) && (n <=? 0) then
    "0." +:+ zeros (Z.to_nat (- n)) +:+ ds
  else
    let (a, b) := split_at 1 ds in
    let mant := match b with "" => a | _ => a +:+ "." +:+ b end in
    mant +:+ "e" +:+ (if 0 <=? n - 1 then "+" else "-")
         +:+ digits (Z.abs_N (n - 1)).

(** Decimal text of the number [m * 10^e]. Integers below [10^21] print
    as their digits. *)
Definition number_to_string (m e : Z) : string :=
  if (e =? 0) && (Z.abs m <? 10 ^ 21) then
    (if m <? 0 then "-" else "") +:+ digits (Z.abs_N m)
  else
    let (s, e') := strip_zeros (Z.to_nat (Z.log2 (Z.abs m))) (Z.abs m) e in
    (if m <? 0 then "-" else "") +:+ positive_to_string s e'.

Definition join (sep : string) (l : list string) : string :=
  match l with
  | [] => ""
  | x :: l' => x +:+ fold_right (λ y acc, sep +:+ y +:+ acc) "" l'
  end.

(* ===================================================================== *)
(** ** [toString] and [JSON.stringify] *)
(* ===================================================================== *)

(** The [ToString] conversion, as applied by [value.toString()], by
    template literals and by [JSON.parse] to its argument. Inside
    [Array.prototype.join] the elements [null] and [undefined] give the
    empty string. *)
Fixpoint toString (v : jsval) : string :=
  match v with
  | JUndefined => "undefined"
  | JNull => "null"
  | JBool true => "true"
  | JBool false => "false"
  | JNum n => number_to_string n 0
  | JDec m e => number_to_string m e
  | JStr s => s
  | JArr l =>
      join "," (map (λ x, match x with
                          | JUndefined | JNull => ""
                          | _ => toString x
                          end) l)
  | JObj _ => "[object Object]"
  | JFun src => src
  end.

(** The double quote character. *)
Definition dquote : ascii := "034"%char.

Definition hex_char (d : N) : ascii :=
  if (d <? 10)%N then ascii_of_N (48 + d) else ascii_of_N (87 + d).

(** [QuoteJSONString] on one character: the quote and the backslash are
    escaped, control characters get their short escape or [\u00xx]. *)
Definition escape_char (c : ascii) : string :=
  let n := code c in
  if (n =? 34)%N then String "\" (String dquote "")
  else if (n =? 92)%N then "\\"
  else if (n =? 8)%N then "\b"
  else if (n =? 12)%N then "\f"
  else if (n =? 10)%N then "\n"
  else if (n =? 13)%N then "\r"
  else if (n =? 9)%N then "\t"
  else if (n <? 32)%N then
    String "\" (String "u" (String "0" (String "0"
      (String (hex_char (n / 16)) (String (hex_char (n mod 16)) "")))))
  else String c "".

Fixpoint escape (s : string) : string :=
  match s with
  | "" => ""
  | String c s' => escape_char c +:+ escape s'
  end.

Definition quote (s : string) : string :=
  String dquote (escape s +:+ String dquote "").

(** [JSON.stringify]: [None] stands for the result [undefined]. Inside an
    array an unserializable element is written as [null]; inside an object
    its property is left out. *)
Fixpoint stringify (v : jsval) : option string :=
  match v with
  | JUndefined | JFun _ => None
  | JNull => Some "null"
  | JBool true => Some "true"
  | JBool false => Some "false"
  | JNum n => Some (number_to_string n 0)
  | JDec m e => Some (number_to_string m e)
  | JStr s => Some (quote s)
  | JArr l =>
      Some ("[" +:+ join "," (map (λ x, default "null" (stringify x)) l)
                +:+ "]")
  | JObj l =>
      Some ("{" +:+ join "," (omap (λ kv : string * jsval,
                                 match stringify kv.2 with
                                 | Some s => Some (quote kv.1 +:+ ":" +:+ s)
                                 | None => None
                                 end) l)
                +:+ "}")
  end.

(* ===================================================================== *)
(** ** [JSON.parse] *)
(* ===================================================================== *)

Definition is_ws (c : ascii) : bool :=
  let n := code c in ((n =? 32) || (n =? 9) || (n =? 10) || (n =? 13))%N.

Fixpoint skip_ws (s : string) : string :=
  match s with
  | "" => ""
  | String c s' => if is_ws c then skip_ws s' else s
  end.

(** [expect c s] consumes the character [c] at the head of [s]. *)
Definition expect (c : ascii) (s : string) : option string :=
  match s with
  | "" => None
  | String c' s' => if (code c' =? code c)%N then Some s' else None
  end.

Fixpoint strip_prefix (p s : string) : option string :=
  match p with
  | "" => Some s
  | String a p' =>
      match s with
      | "" => None
      | String b s' => if (code a =? code b)%N then strip_prefix p' s' else None
      end
  end.

Definition hex_val (c : ascii) : option N :=
  let n := code c in
  if ((48 <=? n) && (n <=? 57))%N then Some (n - 48)%N
  else if ((97 <=? n) && (n <=? 102))%N then Some (n - 87)%N
  else if ((65 <=? n) && (n <=? 70))%N then Some (n - 55)%N
  else None.

Definition hex4 (a b c d : ascii) : option N :=
  match hex_val a, hex_val b, hex_val c, hex_val d with
  | Some x, Some y, Some z, Some w =>
      Some (((x * 16 + y) * 16 + z) * 16 + w)%N
  | _, _, _, _ => None
  end.

(** UTF-8 bytes of a code point (a lone surrogate takes the three-byte
    form). *)
Definition utf8 (cp : N) : string :=
  let byte (n : N) := ascii_of_N n in
  (if cp <? 128 then String (byte cp) ""
   else if cp <? 2048 then
     String (byte (192 + cp / 64)) (String (byte (128 + cp mod 64)) "")
   else if cp <? 65536 then
     String (byte (224 + cp / 4096))
       (String (byte (128 + (cp / 64) mod 64))
          (String (byte (128 + cp mod 64)) ""))
   else
     String (byte (240 + cp / 262144))
       (String (byte (128 + (cp / 4096) mod 64))
          (String (byte (128 + (cp / 64) mod 64))
             (String (byte (128 + cp mod 64)) ""))))%N.

Definition is_high_surrogate (u : N) : bool :=
  ((55296 <=? u) && (u <? 56320))%N.
Definition is_low_surrogate (u : N) : bool :=
  ((56320 <=? u) && (u <? 57344))%N.

(** The character denoted by a one-letter escape. *)
Definition unescape (e : ascii) : option ascii :=
  let n := code e in
  (if n =? 34 then Some dquote
   else if n =? 92 then Some "\"%char
   else if n =? 47 then Some "/"%char
   else if n =? 98 then Some (ascii_of_N 8)
   else if n =? 102 then Some (ascii_of_N 12)
   else if n =? 110 then Some (ascii_of_N 10)
   else if n =? 114 then Some (ascii_of_N 13)
   else if n =? 116 then Some (ascii_of_N 9)
   else None)%N.

Definition emit (bytes : string) (r : option (string * string))
  : option (string * string) :=
  match r with
  | Some (str, rest) => Some (bytes +:+ str, rest)
  | None => None
  end.

(** The characters of a string literal after its opening quote, up to
    and including the closing quote; the result is the decoded string and
    the text after the literal. *)
Fixpoint parse_chars (s : string) : option (string * string) :=
  match s with
  | "" => None
  | String c s1 =>
      if (code c =? 34)%N then Some ("", s1)
      else if (code c <? 32)%N then None
      else if negb (code c =? 92)%N then emit (String c "") (parse_chars s1)
      else
        match s1 with
        | "" => None
        | String e s2 =>
            if negb (code e =? 117)%N then
              match unescape e with
              | Some c' => emit (String c' "") (parse_chars s2)
              | None => None
              end
            else
              match s2 with
              | String h1 (String h2 (String h3 (String h4 s3))) =>
                  match hex4 h1 h2 h3 h4 with
                  | None => None
                  | Some u =>
                      if negb (is_high_surrogate u)
                      then emit (utf8 u) (parse_chars s3)
                      else
                        match s3 with
                        | String b (String v (String l1 (String l2
                            (String l3 (String l4 s4))))) =>
                            match hex4 l1 l2 l3 l4 with
                            | Some lo =>
                                if is_low_surrogate lo
                                   && (code b =? 92)%N && (code v =? 117)%N
                                then
                                  emit (utf8 (65536 + (u - 55296) * 1024
                                              + (lo - 56320))%N)
                                       (parse_chars s4)
                                else emit (utf8 u) (parse_chars s3)
                            | None => emit (utf8 u) (parse_chars s3)
                            end
                        | _ => emit (utf8 u) (parse_chars s3)
                        end
                  end
              | _ => None
              end
        end
  end.

(** Reads a run of digits: the accumulated value, the number of digits
    read and the rest of the text. *)
Fixpoint read_digits (acc : Z) (cnt : nat) (s : string) : Z * nat * string :=
  match s with
  | "" => (acc, cnt, "")
  | String c s' =>
      if is_digit c then read_digits (10 * acc + digit_val c) (S cnt) s'
      else (acc, cnt, s)
  end.

(** The optional fraction: its digits as an integer and their count. *)
Definition read_fraction (s : string) : option (Z * nat * string) :=
  match expect "." s with
  | None => Some (0, O, s)
  | Some s' =>
      let '(f, cnt, rest) := read_digits 0 0 s' in
      match cnt with O => None | S _ => Some (f, cnt, rest) end
  end.

(** The optional exponent. *)
Definition read_exponent (s : string) : option (Z * string) :=
  match s with
  | "" => Some (0, s)
  | String c s' =>
      if ((code c =? 101) || (code c =? 69))%N then
        let (neg, s'') :=
          match s' with
          | "" => (false, s')
          | String d r =>
              if (code d =? 45)%N then (true, r)
              else if (code d =? 43)%N then (false, r) else (false, s')
          end in
        let '(x, cnt, rest) := read_digits 0 0 s'' in
        match cnt with
        | O => None
        | S _ => Some (if neg then - x else x, rest)
        end
      else Some (0, s)
  end.

(** The value [m * 10^e] as a number: an integer when it is one. *)
Definition make_number (m e : Z) : jsval :=
  if 0 <=? e then JNum (m * 10 ^ e)
  else
    let (m', e') := strip_zeros (Z.to_nat (- e)) m e in
    if (m' =? 0) || (e' =? 0) then JNum m' else JDec m' e'.

Definition parse_number (s : string) : option (jsval * string) :=
  let (neg, s1) :=
    match s with
    | "" => (false, s)
    | String c r => if (code c =? 45)%N then (true, r) else (false, s)
    end in
  match s1 with
  | "" => None
  | String c r =>
      if negb (is_digit c) then None
      else
        let '(ip, _, s2) :=
          if (code c =? 48)%N then (0, 1%nat, r) else read_digits 0 0 s1 in
        '(fp, fl, s3) ← read_fraction s2;
        '(ex, s4) ← read_exponent s3;
        let m := ip * 10 ^ Z.of_nat fl + fp in
        Some (make_number (if neg then - m else m) (ex - Z.of_nat fl), s4)
  end.

(** [CreateDataProperty] in [JSON.parse]: a repeated key overwrites the
    earlier value and keeps its place. *)
Fixpoint obj_set (k : string) (v : jsval) (l : list (string * jsval))
  : list (string * jsval) :=
  match l with
  | [] => [(k, v)]
  | (k', v') :: l' =>
      if String.eqb k k' then (k', v) :: l' else (k', v') :: obj_set k v l'
  end.

Definition obj_of_members (ms : list (string * jsval))
  : list (string * jsval) :=
  fold_left (λ o kv, obj_set kv.1 kv.2 o) ms [].

(** Recursive descent over the JSON grammar. [parse_value] expects the
    text to start at a value; [parse_elems] reads the elements of a
    non-empty array up to the closing bracket, [parse_members] the members
    of a non-empty object up to the closing brace. *)
Fixpoint parse_value (fuel : nat) (s : string) : option (jsval * string) :=
  match fuel with
  | O => None
  | S fuel =>
      match s with
      | "" => None
      | String c r =>
          if (code c =? 91)%N then
            let r1 := skip_ws r in
            match expect "]" r1 with
            | Some r2 => Some (JArr [], r2)
            | None => '(l, r2) ← parse_elems fuel r1; Some (JArr l, r2)
            end
          else if (code c =? 123)%N then
            let r1 := skip_ws r in
            match expect "}" r1 with
            | Some r2 => Some (JObj [], r2)
            | None =>
                '(ms, r2) ← parse_members fuel r1;
                Some (JObj (obj_of_members ms), r2)
            end
          else if (code c =? 34)%N then
            '(str, r1) ← parse_chars r; Some (JStr str, r1)
          else if (code c =? 110)%N then
            r1 ← strip_prefix "ull" r; Some (JNull, r1)
          else if (code c =? 116)%N then
            r1 ← strip_prefix "rue" r; Some (JBool true, r1)
          else if (code c =? 102)%N then
            r1 ← strip_prefix "alse" r; Some (JBool false, r1)
          else parse_number s
      end
  end
with parse_elems (fuel : nat) (s : string) : option (list jsval * string) :=
  match fuel with
  | O => None
  | S fuel =>
      '(v, r) ← parse_value fuel s;
      let r1 := skip_ws r in
      match expect "," r1 with
      | Some r2 =>
          '(l, r3) ← parse_elems fuel (skip_ws r2); Some (v :: l, r3)
      | None => r2 ← expect "]" r1; Some ([v], r2)
      end
  end
with parse_members (fuel : nat) (s : string)
  : option (list (string * jsval) * string) :=
  match fuel with
  | O => None
  | S fuel =>
      s1 ← expect dquote s;
      '(k, s2) ← parse_chars s1;
      s3 ← expect ":" (skip_ws s2);
      '(v, s4) ← parse_value fuel (skip_ws s3);
      let s5 := skip_ws s4 in
      match expect "," s5 with
      | Some s6 =>
          '(l, r) ← parse_members fuel (skip_ws s6); Some ((k, v) :: l, r)
      | None => r ← expect "}" s5; Some ([(k, v)], r)
      end
  end.

(** [JSON.parse]: [None] stands for a thrown [SyntaxError]. *)
Definition JSON_parse (s : string) : option jsval :=
  '(v, r) ← parse_value (S (String.length s)) (skip_ws s);
  match skip_ws r with
  | "" => Some v
  | _ => None
  end.

(* ===================================================================== *)
(** ** The value codec of [set] and [get] *)
(* ===================================================================== *)

(** Lines 131-139 of [set]: a value of type ["object"] is serialized with
    [JSON.stringify], any other value with its [toString] method. The
    values of the model have no cycles, so [JSON.stringify] does not
    throw. *)
Definition encode (value : jsval) : string :=
  if jstype_eqb (typeof value) TObject
  then default (toString JUndefined) (stringify value)
  else toString value.

(** Lines 109-115 of [get]: a result that is neither [null] nor of type
    ["object"] goes through [JSON.parse]; the [catch] keeps the result as
    it was when the parse throws. *)
Definition decode (result : jsval) : jsval :=
  match result with
  | JNull => result
  | _ =>
      if jstype_eqb (typeof result) TObject then result
      else
        match JSON_parse (toString result) with
        | Some parsed => parsed
        | None => result
        end
  end.

(* ===================================================================== *)
(** ** The Redis server and its client *)
(* ===================================================================== *)

(** A key holds a string and, when it was set with [PX], the number of
    milliseconds it was given to live. The passing of time is not part of
    the keyspace: a key that expires is deleted by the environment (see
    [others] below). *)
Record entry : Type := Entry { e_value : string; e_px : option Z }.

Inductive command : Type :=
| GET (k : string)
| SET (k v : string)
| SET_PX (k v : string) (px : Z)
| SET_NX_PX (k v : string) (px : Z)
| DEL (k : string).

Inductive reply : Type :=
| Nil
| Bulk (s : string)
| Ok
| Count (n : Z).

(** The reply as the client hands it to the callback. *)
Definition reply_val (r : reply) : jsval :=
  match r with
  | Nil => JNull
  | Bulk s => JStr s
  | Ok => JStr "OK"
  | Count n => JNum n
  end.

Definition invalid_expire : string := "ERR invalid expire time in set".

(** One command executed by the server: an error or a reply, and the
    keyspace afterwards. *)
Definition exec (c : command) (ks : gmap string entry)
  : (string + reply) * gmap string entry :=
  match c with
  | GET k =>
      (inr (match ks !! k with Some e => Bulk (e_value e) | None => Nil end),
       ks)
  | SET k v => (inr Ok, <[k := Entry v None]> ks)
  | SET_PX k v px =>
      if 0 <? px then (inr Ok, <[k := Entry v (Some px)]> ks)
      else (inl invalid_expire, ks)
  | SET_NX_PX k v px =>
      if 0 <? px then
        match ks !! k with
        | Some _ => (inr Nil, ks)
        | None => (inr Ok, <[k := Entry v (Some px)]> ks)
        end
      else (inl invalid_expire, ks)
  | DEL k =>
      (inr (Count (match ks !! k with Some _ => 1 | None => 0 end)),
       delete k ks)
  end.

(** What can be observed of a call besides its result: the commands it
    sent and the invocations of the caller's [update] function. *)
Inductive event : Type :=
| Sent (c : command)
| Invoked.

(** What the event loop does next while a call of [set] is under way:
    - [Run ns]: [acquireLock] runs, first by the direct call of line 195
      and then each time the interval of line 196 fires (every
      [retryDelay] milliseconds, a random number from 10 to 30; the
      schedule says when that is); [ns] is what [process.hrtime(start)]
      reads, in nanoseconds;
    - [Deliver]: the client hands the oldest outstanding reply to its
      callback (replies come back in the order of the commands);
    - [Others cs]: other clients of the server, or the expiry of keys,
      get the commands [cs] executed. *)
Inductive step : Type :=
| Run (ns : Z)
| Deliver
| Others (cs : list command).

(** The environment of a call:
    - [keyspace]: the contents of the server;
    - [issued]: the events of this client so far, oldest first;
    - [faults]: for each coming command of this client, whether the
      client reports an error for it ([Some err], the command then has no
      effect) or lets it through ([None], also when the list is used up);
    - [schedule]: the coming steps of the event loop. *)
Record world : Type := World {
  keyspace : gmap string entry;
  issued : list event;
  faults : list (option string);
  schedule : list step
}.

Definition set_schedule (evs : list step) (w : world) : world :=
  World (keyspace w) (issued w) (faults w) evs.

Definition record (e : event) (w : world) : world :=
  World (keyspace w) (issued w ++ [e]) (faults w) (schedule w).

Definition run_others (cs : list command) (ks : gmap string entry)
  : gmap string entry :=
  fold_left (λ ks c, (exec c ks).2) cs ks.

Definition interfere (cs : list command) (w : world) : world :=
  World (run_others cs (keyspace w)) (issued w) (faults w) (schedule w).

(** A command of this client with the arguments [(err, reply)] that its
    callback will get. *)
Definition send (c : command) (w : world) : (string + reply) * world :=
  match faults w with
  | Some err :: fs =>
      (inl err, World (keyspace w) (issued w ++ [Sent c]) fs (schedule w))
  | _ =>
      let (r, ks) := exec c (keyspace w) in
      (r, World ks (issued w ++ [Sent c]) (tail (faults w)) (schedule w))
  end.

(* ===================================================================== *)
(** ** Errors and promises *)
(* ===================================================================== *)

Inductive error : Type :=
| TypeError (msg : string)
| AcquireError (msg : string)
| RedisError (err : string)
| StoreFailure (err : string)
| Failure (err : jsval).

(** How a call ends: it throws before returning a promise, its promise is
    rejected or resolved, or its promise is never settled. *)
Inductive outcome (A : Type) : Type :=
| Thrown (e : error)
| Rejected (e : error)
| Resolved (a : A)
| Pending.

Arguments Thrown {A} e.
Arguments Rejected {A} e.
Arguments Resolved {A} a.
Arguments Pending {A}.

(* ===================================================================== *)
(** ** [lib/index.js] *)
(* ===================================================================== *)

Definition defaultTimeout : Z := 100.
Definition defaultTTL : Z := 30000.
Definition defaultLockTTL : Z := 1000.

(** The instance: of the constructor only [this.prefix] matters here, the
    client being the [world]. *)
Record Coal : Type := { prefix : string }.

(** [this.prefix = prefix || 'coal:'] *)
Definition new_Coal (options_prefix : option string) : Coal :=
  {| prefix := match options_prefix with
               | Some p => if String.eqb p "" then "coal:" else p
               | None => "coal:"
               end |}.

(** The operator [||] on numbers: [None] is [undefined] or [NaN], which
    are falsy like [0]. *)
Definition or_default (x : option Z) (d : Z) : Z :=
  match x with
  | Some n => if n =? 0 then d else n
  | None => d
  end.

(** [ttl * 1000]: [NaN] for an [undefined] argument. *)
Definition times1000 (ttl : option Z) : option Z :=
  (λ n, n * 1000) <$> ttl.

(** [ttl = ttl * 1000 || defaultTTL] *)
Definition resolve_ttl (ttl : option Z) : Z :=
  or_default (times1000 ttl) defaultTTL.

(** [timeout = timeout || ((ttl > 0) ? ttl / 10 : defaultTimeout)], with
    [ttl] already resolved. *)
Definition resolve_timeout (timeout : option Z) (ttl : Z) : Z :=
  or_default timeout (if 0 <? ttl then ttl / 10 else defaultTimeout).

Definition truthy (v : jsval) : bool :=
  match v with
  | JUndefined | JNull | JBool false => false
  | JNum n => negb (n =? 0)
  | JStr s => negb (String.eqb s "")
  | _ => true
  end.

Definition quoted (s : string) : string :=
  String dquote (s +:+ String dquote "").

Definition key_not_string : error :=
  TypeError (quoted "key" +:+ " should be a string").
Definition update_not_function : error :=
  TypeError (quoted "update" +:+ " should be a function").
Definition value_undefined : error :=
  TypeError (quoted "value" +:+ " should be defined").
Definition lock_timeout : error :=
  AcquireError "Error while obtaining lock to cache".

(** What [set] resolves with. [elapsed] is the text produced by
    [toFixed(4)] read as a number of ten-thousandths of a millisecond. *)
Record lock_stats : Type := LockStats { elapsed : Z; attempts : nat }.

(** [p / q] with the binary point moved by [e] places, as a fraction. *)
Definition scale2 (p q e : Z) : Z * Z :=
  if 0 <=? e then (p, q * 2 ^ e) else (p * 2 ^ (- e), q).

(** The exponent [e] of the double nearest to [p / q]: the one with
    [2^52 <= p / (q * 2^e) < 2^53]. *)
Definition exponent (p q : Z) : Z :=
  let e0 := Z.log2 p - Z.log2 q - 53 in
  let (n, d) := scale2 p q e0 in
  if n / d <? 2 ^ 53 then e0 else e0 + 1.

(** The result of an arithmetic operation on doubles whose exact value is
    the rational [p / q] ([0 <= p], [0 < q]): the nearest number with a
    mantissa of 53 bits, ties going to the even mantissa. The result is a
    fraction whose denominator is a power of two. The range of the
    exponent is not modelled; the elapsed times are far from its ends. *)
Definition round_double (p q : Z) : Z * Z :=
  if p =? 0 then (0, 1)
  else
    let e := exponent p q in
    let (n, d) := scale2 p q e in
    let m0 := n / d in
    let r := n - m0 * d in
    let m :=
      if 2 * r <? d then m0
      else if d <? 2 * r then m0 + 1
      else if Z.even m0 then m0 else m0 + 1 in
    if 0 <=? e then (m * 2 ^ e, 1) else (m, 2 ^ (- e)).

(** [parseFloat((diff[0] * 1e9 + diff[1]) / 1e6).toFixed(4)], in
    ten-thousandths of a millisecond, [ns] being the reading of
    [process.hrtime(start)] in nanoseconds ([diff[0]] whole seconds and
    [diff[1]] nanoseconds). The product, the sum and the quotient are
    doubles; [toFixed(4)] rounds the exact value of the quotient to the
    nearest multiple of [0.0001], a tie going up. So a reading of 150 ns,
    whose quotient is the double just below [0.00015], gives [0.0001]. *)
Definition to_fixed4 (ns : Z) : Z :=
  let a := Z.abs ns in
  let (pn, pd) := round_double (a / 1000000000 * 1000000000) 1 in
  let (sn, sd) := round_double (pn + a mod 1000000000 * pd) pd in
  let (xn, xd) := round_double sn (sd * 1000000) in
  Z.sgn ns * ((2 * xn * 10000 + xd) / (2 * xd)).

(** The callbacks of [set] that wait for a reply: the one of the
    conditional set (line 168), which has captured [elapsed]; [cb], the
    one of the write (line 199); the one of the [DEL] (line 207). The
    last two have captured [lockStats]. *)
Inductive callback : Type :=
| LockCb (elapsed : Z)
| WriteCb (lockStats : lock_stats)
| DelCb (lockStats : lock_stats).

(** The variable [loop]: [null], the handle of a running interval, or
    the handle of an interval that [clearInterval] has stopped. *)
Inductive interval : Type :=
| NoInterval
| Ticking
| Cleared.

(** The state of one call of [set]: the variables [attempts] and [loop],
    the promise of line 148, the promise that [set] returns, and the
    callbacks that wait for their reply, each with the reply the server
    has prepared. *)
Record call : Type := Call {
  c_attempts : nat;
  c_loop : interval;
  c_lock : outcome lock_stats;
  c_result : outcome lock_stats;
  c_inflight : list (callback * (string + reply))
}.

Section EventLoop.

(** What is fixed during a call: the key of the lock, the resolved
    timeout, and the command that writes the entry (line 219 or 221). *)
Variables (lock : string) (timeout : Z) (write : command).

(** [if (loop !== null) clearInterval(loop)] *)
Definition clearInterval (s : call) : call :=
  match c_loop s with
  | NoInterval => s
  | _ => Call (c_attempts s) Cleared (c_lock s) (c_result s) (c_inflight s)
  end.

(** [reject] of the promise of line 148: the first settlement counts,
    and the promise chained to it by [then] is rejected alike. *)
Definition reject (e : error) (s : call) : call :=
  match c_lock s with
  | Pending =>
      Call (c_attempts s) (c_loop s) (Rejected e) (Rejected e)
           (c_inflight s)
  | _ => s
  end.

Definition await (cb : callback) (r : string + reply) (s : call) : call :=
  Call (c_attempts s) (c_loop s) (c_lock s) (c_result s)
       (c_inflight s ++ [(cb, r)]).

(** [resolve] of the promise of line 148, followed by the handler of
    line 197, which sends the write. *)
Definition resolve (lockStats : lock_stats) (s : call) (w : world)
  : call * world :=
  match c_lock s with
  | Pending =>
      let (r, w) := send write w in
      (await (WriteCb lockStats) r
         (Call (c_attempts s) (c_loop s) (Resolved lockStats) (c_result s)
               (c_inflight s)), w)
  | _ => (s, w)
  end.

(** The promise that [set] returns is settled. *)
Definition settle (o : outcome lock_stats) (s : call) : call :=
  Call (c_attempts s) (c_loop s) (c_lock s) o (c_inflight s).

(** One run of [acquireLock] (lines 153-192), up to the sending of the
    conditional set. The comparison [elapsed > timeout] of line 158
    turns the text of [elapsed] back into a number; with both sides in
    ten-thousandths of a millisecond it is the comparison of integers. *)
Definition acquireLock (ns : Z) (s : call) (w : world) : call * world :=
  let s := Call (S (c_attempts s)) (c_loop s) (c_lock s) (c_result s)
                (c_inflight s) in
  let elapsed := to_fixed4 ns in
  if timeout * 10000 <? elapsed then
    (reject lock_timeout (clearInterval s), w)
  else
    let (r, w) := send (SET_NX_PX lock "1" (timeout + 500)) w in
    (await (LockCb elapsed) r s, w).

(** The oldest outstanding reply reaches its callback (lines 168-191,
    199-216 and 207-215). *)
Definition deliver (s : call) (w : world) : call * world :=
  match c_inflight s with
  | [] => (s, w)
  | (cb, r) :: rest =>
      let s := Call (c_attempts s) (c_loop s) (c_lock s) (c_result s)
                    rest in
      match cb, r with
      | LockCb elapsed, inl err =>
          (reject (RedisError err) (clearInterval s), w)
      | LockCb elapsed, inr Nil => (s, w)
      | LockCb elapsed, inr _ =>
          resolve (LockStats elapsed (c_attempts s)) (clearInterval s) w
      | WriteCb lockStats, inl err =>
          (settle (Rejected (RedisError err)) s, w)
      | WriteCb lockStats, inr _ =>
          let (r, w) := send (DEL lock) w in
          (await (DelCb lockStats) r s, w)
      | DelCb lockStats, inl err =>
          (settle (Rejected (RedisError err)) s, w)
      | DelCb lockStats, inr _ => (settle (Resolved lockStats) s, w)
      end
  end.

(** One step of the event loop. The first run of [acquireLock] is the
    direct call, after which the interval is installed; an interval
    that was cleared runs nothing. *)
Definition step_call (e : step) (s : call) (w : world) : call * world :=
  match e with
  | Run ns =>
      match c_loop s with
      | NoInterval =>
          let (s, w) := acquireLock ns s w in
          (Call (c_attempts s) Ticking (c_lock s) (c_result s)
                (c_inflight s), w)
      | Ticking => acquireLock ns s w
      | Cleared => (s, w)
      end
  | Deliver => deliver s w
  | Others cs => (s, interfere cs w)
  end.

Fixpoint run_call (evs : list step) (s : call) (w : world) : call * world :=
  match evs with
  | [] => (s, w)
  | e :: evs => let (s, w) := step_call e s w in run_call evs s w
  end.

End EventLoop.

(** A call that has just started. *)
Definition new_call : call := Call 0 NoInterval Pending Pending [].

(** [Coal.prototype.set] (lines 122-225). The call lasts as long as the
    schedule; its promise is [Pending] when nothing has settled it by
    then. *)
Definition set (c : Coal) (key value : jsval) (ttl timeout : option Z)
    (w : world) : outcome lock_stats * world :=
  if negb (jstype_eqb (typeof key) TString) then (Thrown key_not_string, w)
  else if jstype_eqb (typeof value) TUndefined then (Thrown value_undefined, w)
  else
    let value := encode value in
    let ttl := resolve_ttl ttl in
    let timeout := resolve_timeout timeout ttl in
    let k := prefix c +:+ toString key in
    let lock := prefix c +:+ "lock:" +:+ toString key in
    let write := if 0 <? ttl then SET_PX k value ttl else SET k value in
    let (s, w) :=
      run_call lock timeout write (schedule w) new_call (set_schedule [] w) in
    (c_result s, w).

(** The second argument of [get]: a function, which calls its callback
    with [(err, result)], or a number of seconds, or nothing. *)
Inductive update_arg : Type :=
| Update (err result : jsval)
| Seconds (n : Z)
| NoUpdate.

(** [Coal.prototype.get] (lines 67-120). When the [set] that follows a
    recomputation does not resolve, nothing settles the promise of [get]:
    the [then] of line 100 has no rejection handler. *)
Definition get (c : Coal) (key : jsval) (update : update_arg)
    (ttl timeout : option Z) (w : world) : outcome jsval * world :=
  if negb (jstype_eqb (typeof key) TString) then (Thrown key_not_string, w)
  else
    match update, ttl with
    | (Seconds _ | NoUpdate), Some _ => (Thrown update_not_function, w)
    | _, _ =>
        let ttl :=
          match update with
          | Update _ _ => ttl
          | Seconds n => Some n
          | NoUpdate => None
          end in
        let ttl := resolve_ttl ttl in
        let timeout := resolve_timeout timeout ttl in
        let k := prefix c +:+ toString key in
        match send (GET k) w with
        | (inl err, w) => (Rejected (RedisError err), w)
        | (inr value, w) =>
            match value, update with
            | Nil, Update err result =>
                let w := record Invoked w in
                if truthy err then (Rejected (Failure err), w)
                else
                  match set c key result (Some ttl) (Some timeout) w with
                  | (Resolved _, w) => (Resolved (decode result), w)
                  | (_, w) => (Pending, w)
                  end
            | _, _ => (Resolved (decode (reply_val value)), w)
            end
        end
    end.

(** [Coal.prototype.del] (lines 227-239). *)
Definition del (c : Coal) (key : jsval) (w : world) : outcome jsval * world :=
  let k := prefix c +:+ toString key in
  match send (DEL k) w with
  | (inl err, w) => (Rejected (StoreFailure err), w)
  | (inr data, w) => (Resolved (reply_val data), w)
  end.

(** The error the client will report for its next command, if any. *)
Definition next_fault (w : world) : option string :=
  match faults w with
  | Some err :: _ => Some err
  | _ => None
  end.

(** The cache entry and the lock of a key, as [get], [set] and [del]
    derive them. *)
Definition entry_key (c : Coal) (key : jsval) : string :=
  prefix c +:+ toString key.
Definition lock_key (c : Coal) (key : jsval) : string :=
  prefix c +:+ "lock:" +:+ toString key.

(** A call of [get] whose arguments pass the check of lines 72-74. *)
Definition accepted_arguments (update : update_arg) (ttl : option Z) : Prop :=
  match update with
  | Update _ _ => True
  | _ => ttl = None
  end.

(** The form in which every number is written, the one [JSON.parse]
    builds: any integer, and a non-integer [m * 10^e] with [e] negative
    and [m] not a multiple of ten. *)
Definition canonical_number (v : jsval) : bool :=
  match v with
  | JNum _ => true
  | JDec m e => (e <? 0) && negb (m mod 10 =? 0)
  | _ => false
  end.

(** The values [JSON.stringify] writes in full: [null], booleans,
    numbers, strings, and arrays and objects of such values, an object
    having each of its keys once. *)
Fixpoint json_value (v : jsval) : bool :=
  match v with
  | JNull | JBool _ | JStr _ => true
  | JNum _ | JDec _ _ => canonical_number v
  | JArr l => forallb json_value l
  | JObj l =>
      forallb (λ kv : string * jsval, json_value kv.2) l
      && bool_decide (NoDup (l.*1))
  | JUndefined | JFun _ => false
  end.

(** The values of the round trip through the cache: a string that is not
    itself a JSON text, or a JSON value. *)
Definition representable (v : jsval) : bool :=
  match v with
  | JStr s => match JSON_parse s with None => true | Some _ => false end
  | _ => json_value v
  end.

(** Fuel that [parse_value] needs for the text of a value. *)
Fixpoint weight (v : jsval) : nat :=
  match v with
  | JArr l => S (fold_right (λ x acc, S (weight x + acc)) O l)
  | JObj l => S (fold_right (λ kv acc, S (weight kv.2 + acc)) O l)
  | _ => 1
  end.

(** The text after a value inside a JSON text: nothing, or a comma, a
    closing bracket or a closing brace. *)
Definition closes (rest : string) : Prop :=
  match rest with
  | "" => True
  | String c _ => code c = 44%N ∨ code c = 93%N ∨ code c = 125%N
  end.

(** The text after a number: nothing, or a character that cannot
    continue it. *)
Definition ends_number (rest : string) : Prop :=
  match rest with
  | "" => True
  | String c _ =>
      is_digit c = false ∧ code c ≠ 46%N ∧ code c ≠ 101%N ∧ code c ≠ 69%N
  end.

(** A run of decimal digits and the number it denotes, [acc] being the
    number denoted by the digits before it. *)
Fixpoint all_digits (s : string) : bool :=
  match s with
  | "" => true
  | String c s' => is_digit c && all_digits s'
  end.

Fixpoint digits_val (acc : Z) (s : string) : Z :=
  match s with
  | "" => acc
  | String c s' => digits_val (10 * acc + digit_val c) s'
  end.

(** A text that does not go on with a digit. *)
Definition stops (s : string) : Prop :=
  match s with
  | "" => True
  | String c _ => is_digit c = false
  end.

(** A text whose first digit is not a zero. *)
Definition leads (s : string) : Prop :=
  match s with
  | "" => False
  | String c _ => code c ≠ 48%N
  end.

(** The text of an array element, of an object member, and the fuel
    their elements and members need. *)
Definition item (x : jsval) : string := default "null" (stringify x).

Definition sizes (l : list jsval) : nat :=
  fold_right (λ x acc, S (weight x + acc)) O l.

Definition member (kv : string * jsval) : string :=
  quote kv.1 +:+ ":" +:+ item kv.2.

Definition member_sizes (l : list (string * jsval)) : nat :=
  fold_right (λ kv acc, S (weight kv.2 + acc)) O l.

(** A character that starts the text of a value. *)
Definition starts_value (c : ascii) : Prop :=
  is_ws c = false ∧ code c ≠ 93%N ∧ code c ≠ 125%N.

(** [v] is read back from its text, whatever closes it, by a parser
    with enough fuel, and the length of the text is enough fuel. *)
Definition parses (v : jsval) : Prop :=
  ∀ s, stringify v = Some s →
    (weight v ≤ String.length s)%nat ∧
    ∀ fuel rest, (weight v ≤ fuel)%nat → closes rest →
      parse_value fuel (s +:+ rest) = Some (v, rest).

(** The command that writes the entry of [key] in [set]. *)
Definition write_command (c : Coal) (key : jsval) (value : jsval)
    (ttl : option Z) : command :=
  if 0 <? resolve_ttl ttl
  then SET_PX (entry_key c key) (encode value) (resolve_ttl ttl)
  else SET (entry_key c key) (encode value).

(** The commands of the other clients over a stretch of the schedule. *)
Fixpoint others_of (evs : list step) : list command :=
  match evs with
  | [] => []
  | Others cs :: evs => cs ++ others_of evs
  | _ :: evs => others_of evs
  end.

(** The number of runs of the timer callback in a stretch. *)
Fixpoint runs (evs : list step) : nat :=
  match evs with
  | [] => O
  | Run _ :: evs => S (runs evs)
  | _ :: evs => runs evs
  end.

(** Somebody else holds the lock at each run of [acquireLock] in [evs]:
    the lock is in the keyspace, as the other clients have left it, each
    time the callback runs. *)
Fixpoint held (lock : string) (evs : list step) (ks : gmap string entry)
  : Prop :=
  match evs with
  | [] => True
  | Run _ :: evs => is_Some (ks !! lock) ∧ held lock evs ks
  | Deliver :: evs => held lock evs ks
  | Others cs :: evs => held lock evs (run_others cs ks)
  end.

(** A run of the timer callback whose clock reading is within the
    timeout, and one whose reading is past it. *)
Definition in_time (timeout : Z) (e : step) : Prop :=
  match e with
  | Run ns => 0 ≤ ns ∧ to_fixed4 ns ≤ timeout * 10000
  | _ => True
  end.

Definition late (timeout : Z) (e : step) : Prop :=
  match e with
  | Run ns => timeout * 10000 < to_fixed4 ns
  | _ => True
  end.

(** A reply [nil] to a conditional set that waits for its callback. *)
Definition nil_reply (x : callback * (string + reply)) : Prop :=
  match x with
  | (LockCb _, inr Nil) => True
  | _ => False
  end.

(** A callback of the second phase of [set]: the write or the release. *)
Definition second_phase (x : callback * (string + reply)) : Prop :=
  match x.1 with
  | LockCb _ => False
  | _ => True
  end.

Definition release (x : callback * (string + reply)) : Prop :=
  match x.1 with
  | DelCb _ => True
  | _ => False
  end.

(** The events of the client since the call started, [before] being the
    number of events it had at that moment. *)
Definition since (before : nat) (w : world) : list event :=
  drop before (issued w).

(** What holds of a call of [set] at every moment: as long as the lock
    promise is pending nothing of the second phase exists; a callback of
    the second phase or a resolved result mean that the lock promise has
    resolved and that the write was sent; a release under way or a
    resolved result mean that the [DEL] of the lock was sent. *)
Definition call_invariant (lock : string) (write : command) (before : nat)
    (s : call) (w : world) : Prop :=
  (before ≤ length (issued w))%nat ∧
  (c_lock s = Pending →
     c_result s = Pending ∧ Forall (λ x, ¬ second_phase x) (c_inflight s)) ∧
  ((∃ st, c_result s = Resolved st) ∨ Exists second_phase (c_inflight s) →
     Sent write ∈ since before w ∧ ∃ st, c_lock s = Resolved st) ∧
  ((∃ st, c_result s = Resolved st) ∨ Exists release (c_inflight s) →
     Sent (DEL lock) ∈ since before w).

(* ===================================================================== *)
(** ** [lib/index.js]: the constructor *)
(* ===================================================================== *)

(** The [options] object of the constructor, with the properties it
    reads; a property that is missing is [undefined]. *)
Record options : Type := Options {
  o_port : jsval;
  o_host : jsval;
  o_client : jsval;
  o_password : jsval;
  o_database : jsval;
  o_prefix : jsval
}.

(** The object [{}]. *)
Definition no_options : options :=
  Options JUndefined JUndefined JUndefined JUndefined JUndefined JUndefined.

(** Where the client of an instance comes from: [options.client],
    [redis.createClient()], or [redis.createClient(port, host, options)]
    with the options object as it is at that moment. *)
Inductive client_source : Type :=
| Supplied (client : jsval)
| DefaultClient
| CreatedClient (port host : jsval) (opts : options).

(** What the constructor leaves behind: the client, the password sent
    with [auth] and the database sent with [select], if any, and
    [this.prefix]. *)
Record instance : Type := NewCoal {
  i_client : client_source;
  i_auth : option jsval;
  i_select : option jsval;
  i_prefix : jsval
}.

(** [Coal(options)] (lines 29-65) for an options object or no argument
    ([None]); the string form goes through [parse-redis-url], which is
    not part of these sources. The function returns the instance and the
    options object as the constructor leaves it: the assignment of line
    48 writes to the caller's object. *)
Definition Coal_constructor (opts : option options) : instance * options :=
  let opts := default no_options opts in
  let port := o_port opts in
  let host := o_host opts in
  let client := o_client opts in
  let password := o_password opts in
  let database := o_database opts in
  let prefix := o_prefix opts in
  let (source, opts) :=
    if truthy client then (Supplied client, opts)
    else if negb (truthy port) && negb (truthy host) then (DefaultClient, opts)
    else
      let opts := Options (o_port opts) (o_host opts) (o_client opts)
                          (o_password opts) (o_database opts) JNull in
      (CreatedClient port host opts, opts) in
  (NewCoal source
     (if truthy password then Some password else None)
     (if truthy database then Some database else None)
     (if truthy prefix then prefix else JStr "coal:"),
   opts).

(** The instance as [get], [set] and [del] see it: the template literals
    of lines 84, 145, 146 and 228 convert [this.prefix] to a string. *)
Definition Coal_of (i : instance) : Coal :=
  {| prefix := toString (i_prefix i) |}.

(* ===================================================================== *)
(** ** What the further properties are stated with *)
(* ===================================================================== *)

(** The key a command names. *)
Definition key_of (c : command) : string :=
  match c with
  | GET k | SET k _ | SET_PX k _ _ | SET_NX_PX k _ _ | DEL k => k
  end.

(** The other clients never name the key [k] over a stretch of the
    schedule. *)
Definition quiet (k : string) (evs : list step) : Prop :=
  Forall (λ c, key_of c ≠ k) (others_of evs).

(** The arithmetic of [get] and [set] on [ttl] and [timeout] is exact in
    the doubles: the resolved [ttl] and the expiry of the lock,
    [timeout + 500], are integers of magnitude at most [2^53]. *)
Definition exact_times (ttl timeout : option Z) : Prop :=
  Z.abs (resolve_ttl ttl) ≤ 2 ^ 53 ∧
  Z.abs (resolve_timeout timeout (resolve_ttl ttl)) + 500 ≤ 2 ^ 53.

(** A step of the schedule that is not a delivery. *)
Definition no_delivery (e : step) : Prop := e ≠ Deliver.

(** A run of the timer callback whose clock reading is not past the
    timeout. *)
Definition timely (timeout : Z) (e : step) : Prop :=
  match e with
  | Run ns => to_fixed4 ns ≤ timeout * 10000
  | _ => True
  end.

(** The three commands a call of [set] can send. *)
Definition own_event (lock : string) (timeout : Z) (write : command)
    (e : event) : Prop :=
  e = Sent (SET_NX_PX lock "1" (timeout + 500)) ∨ e = Sent write ∨
  e = Sent (DEL lock).

(** Two keyspaces that agree on every key but [k] and [lock]. *)
Definition agree_off (k lock : string) (a b : gmap string entry) : Prop :=
  ∀ k', k' ≠ k → k' ≠ lock → a !! k' = b !! k'.

(** A conditional set that waits for its callback with a reply that does
    not give the lock: an error or [nil]. *)
Definition lost (x : callback * (string + reply)) : Prop :=
  match x with
  | (LockCb _, inl _) | (LockCb _, inr Nil) => True
  | _ => False
  end.

(** A promise that is not resolved. *)
Definition unresolved {A} (o : outcome A) : Prop :=
  match o with
  | Resolved _ => False
  | _ => True
  end.

(** What a step of the client itself does to the world: it sends some
    of the three commands and leaves the other keys alone. *)
Definition own_step (lock : string) (timeout : Z) (write : command)
    (w w' : world) : Prop :=
  (∃ new,
     issued w' = issued w ++ new ∧
     Forall (own_event lock timeout write) new) ∧
  agree_off (key_of write) lock (keyspace w') (keyspace w).

(** A call that has not taken the lock: no promise is resolved and the
    replies under way do not give the lock. *)
Definition waiting (s : call) : Prop :=
  unresolved (c_lock s) ∧ unresolved (c_result s) ∧ Forall lost (c_inflight s).

(** A callback under way that shows that the entry was written, and one
    that shows that the lock was deleted. *)
Definition entry_written (x : callback * (string + reply)) : Prop :=
  match x with
  | (WriteCb _, inr _) | (DelCb _, _) => True
  | _ => False
  end.

Definition lock_deleted (x : callback * (string + reply)) : Prop :=
  match x with
  | (DelCb _, inr _) => True
  | _ => False
  end.

(** The interval and the lock promise: before the first run of
    [acquireLock] nothing has happened, and once the lock promise is
    resolved the interval is cleared. *)
Definition loop_invariant (s : call) : Prop :=
  (c_loop s = NoInterval → s = new_call) ∧
  ((∃ st, c_lock s = Resolved st) → c_loop s = Cleared).

(** Once the write was answered, the entry [k] holds [e]. *)
Definition stored (k : string) (e : entry) (s : call) (w : world) : Prop :=
  (∃ st, c_result s = Resolved st) ∨ Exists entry_written (c_inflight s) →
  keyspace w !! k = Some e.

(** Once the [DEL] was answered, the lock is free. *)
Definition released (lock : string) (s : call) (w : world) : Prop :=
  (∃ st, c_result s = Resolved st) ∨ Exists lock_deleted (c_inflight s) →
  keyspace w !! lock = None.

(** Statistics that a call with [n] runs of [acquireLock] behind it can
    report: the attempt that took the lock started within the timeout
    and is one of the [n]. *)
Definition fair_stats (timeout : Z) (n : nat) (st : lock_stats) : Prop :=
  elapsed st ≤ timeout * 10000 ∧ (1 ≤ attempts st ≤ n)%nat.

Definition fair_callback (timeout : Z) (n : nat)
    (x : callback * (string + reply)) : Prop :=
  match x.1 with
  | LockCb el => el ≤ timeout * 10000 ∧ (1 ≤ n)%nat
  | WriteCb st | DelCb st => fair_stats timeout n st
  end.

Definition stats_invariant (timeout : Z) (n : nat) (s : call) : Prop :=
  (c_attempts s ≤ n)%nat ∧
  Forall (fair_callback timeout (c_attempts s)) (c_inflight s) ∧
  (∀ st, c_lock s = Resolved st → fair_stats timeout (c_attempts s) st) ∧
  (∀ st, c_result s = Resolved st → fair_stats timeout (c_attempts s) st).

(** The expiry that [set] gives the entry. *)
Definition expiry (ttl : option Z) : option Z :=
  if 0 <? resolve_ttl ttl then Some (resolve_ttl ttl) else None.

(** A clock that does not run backwards: [process.hrtime(start)] reads
    a time that is not negative. *)
Definition clock_ok (e : step) : Prop :=
  match e with
  | Run ns => 0 ≤ ns
  | _ => True
  end.

#[global] Instance command_eq_dec : EqDecision command.
Proof. solve_decision. Defined.

#[global] Instance event_eq_dec : EqDecision event.
Proof. solve_decision. Defined.

(** How many times the command [c] occurs among the events [l]. *)
Definition times_sent (c : command) (l : list event) : nat :=
  length (filter (λ e, e = Sent c) l).

(** The number of writes that wait for their reply. *)
Fixpoint writes_under_way (fl : list (callback * (string + reply))) : nat :=
  match fl with
  | [] => O
  | (WriteCb _, _) :: fl => S (writes_under_way fl)
  | _ :: fl => writes_under_way fl
  end.

(** The write is sent when the lock promise resolves, which happens
    once; the [DEL] is sent when the reply to the write arrives. *)
Definition once_invariant (lock : string) (write : command) (before : nat)
    (s : call) (w : world) : Prop :=
  (before ≤ length (issued w))%nat ∧
  (times_sent write (since before w) ≤ 1)%nat ∧
  (c_lock s = Pending → times_sent write (since before w) = 0%nat) ∧
  (times_sent (DEL lock) (since before w) + writes_under_way (c_inflight s)
   ≤ times_sent write (since before w))%nat.

(** A promise that is not rejected with the [AcquireError]. *)
Definition not_timed_out (o : outcome lock_stats) : Prop :=
  o ≠ Rejected lock_timeout.

(** The number of callbacks of the second phase that wait for their
    reply. *)
Fixpoint under_way (fl : list (callback * (string + reply))) : nat :=
  match fl with
  | [] => O
  | (LockCb _, _) :: fl => under_way fl
  | _ :: fl => S (under_way fl)
  end.

(** The two promises of a call: the promise that [set] returns is
    pending as long as the lock promise is, it is rejected with it, and
    once the lock promise is resolved it is settled by the last callback
    of the second phase, of which at most one waits at any moment. *)
Definition settled_invariant (s : call) : Prop :=
  match c_lock s with
  | Pending => c_result s = Pending ∧ under_way (c_inflight s) = O
  | Rejected e => c_result s = Rejected e ∧ under_way (c_inflight s) = O
  | Resolved _ =>
      (under_way (c_inflight s) ≤ 1)%nat ∧
      (c_result s ≠ Pending → under_way (c_inflight s) = O)
  | Thrown _ => False
  end.

(* ===================================================================== *)
(** ** Strings and the server *)
(* ===================================================================== *)

Lemma string_length_app (a b : string) :
  String.length (a +:+ b) = (String.length a + String.length b)%nat.
Proof. induction a as [|c a IH]; simpl; [done|]. by rewrite IH. Qed.

Lemma app_assoc_str (a b c : string) : (a +:+ b) +:+ c = a +:+ b +:+ c.
Proof. induction a as [|x a IH]; simpl; [done|]. by rewrite IH. Qed.

Lemma app_nil_r_str (a : string) : a +:+ "" = a.
Proof. induction a as [|x a IH]; simpl; [done|]. by rewrite IH. Qed.

(** The lock of a key never coincides with its cache entry. *)
Lemma entry_key_ne_lock_key c key : entry_key c key ≠ lock_key c key.
Proof.
  unfold entry_key, lock_key. intros H.
  apply (inj (String.append (prefix c))) in H.
  apply (f_equal String.length) in H.
  rewrite string_length_app in H. simpl in H. lia.
Qed.

Lemma send_reply c w r w' :
  send c w = (inr r, w') →
  exec c (keyspace w) = (inr r, keyspace w') ∧
  issued w' = issued w ++ [Sent c] ∧
  faults w' = tail (faults w) ∧ schedule w' = schedule w.
Proof.
  unfold send. intros H.
  destruct (faults w) as [|[err|] fs]; try discriminate;
    destruct (exec c (keyspace w)) as [r0 ks] eqn:E;
    injection H as -> <-; done.
Qed.

Lemma exec_error c ks err ks' : exec c ks = (inl err, ks') → ks' = ks.
Proof.
  destruct c; simpl; intros H; try discriminate;
    repeat case_match; congruence.
Qed.

Lemma send_error c w err w' :
  send c w = (inl err, w') →
  keyspace w' = keyspace w ∧ issued w' = issued w ++ [Sent c] ∧
  schedule w' = schedule w.
Proof.
  unfold send. intros H.
  destruct (faults w) as [|[e|] fs];
    try (injection H as <- <-; done);
    destruct (exec c (keyspace w)) as [r0 ks] eqn:E;
    injection H as -> <-; apply exec_error in E; done.
Qed.

Lemma send_no_fault c w :
  next_fault w = None →
  send c w = ((exec c (keyspace w)).1,
              World (exec c (keyspace w)).2 (issued w ++ [Sent c])
                    (tail (faults w)) (schedule w)).
Proof.
  unfold next_fault, send. intros H.
  destruct (faults w) as [|[e|] fs]; try discriminate;
    by destruct (exec c (keyspace w)).
Qed.

Lemma send_fault c w err :
  next_fault w = Some err →
  send c w = (inl err, World (keyspace w) (issued w ++ [Sent c])
                             (tail (faults w)) (schedule w)).
Proof.
  unfold next_fault, send. intros H.
  destruct (faults w) as [|[e|] fs]; try discriminate.
  by injection H as ->.
Qed.

(* ===================================================================== *)
(** ** Argument validation *)
(* ===================================================================== *)

(** C8 (as the code has it): a key that is not a string makes [get] and
    [set] throw a [TypeError] before any command is sent, and so does an
    undefined value in [set]; the world is left as it was. The check is
    on the type only: with the empty string as key, [get] goes on to read
    the entry named by the bare prefix. *)
Theorem invalid_arguments_throw c key value update ttl timeout w :
  typeof key ≠ TString →
  get c key update ttl timeout w = (Thrown key_not_string, w) ∧
  set c key value ttl timeout w = (Thrown key_not_string, w) ∧
  (∀ k : string,
     set c (JStr k) JUndefined ttl timeout w = (Thrown value_undefined, w)) ∧
  issued (get c (JStr "") NoUpdate None timeout w).2
    = issued w ++ [Sent (GET (prefix c))].
Proof.
  intros Hkey. repeat split.
  - unfold get. by destruct key.
  - unfold set. by destruct key.
  - unfold get; simpl. unfold entry_key; simpl.
    rewrite app_nil_r_str.
    destruct (send (GET (prefix c)) w) as [[err|r] w'] eqn:E.
    + by apply send_error in E as (_ & ? & _).
    + apply send_reply in E as (_ & ? & _). by destruct r.
Qed.

Lemma invalid_arguments_throw_witness :
  let w := World ∅ [] [] [Run 0; Deliver; Deliver; Deliver] in
  get (new_Coal None) (JNum 7) NoUpdate None None w
    = (Thrown key_not_string, w) ∧
  set (new_Coal None) (JNum 7) (JStr "v") None None w
    = (Thrown key_not_string, w).
Proof.
  intros w.
  destruct (invalid_arguments_throw (new_Coal None) (JNum 7) (JStr "v")
              NoUpdate None None w) as (Hg & Hs & _).
  - simpl. discriminate.
  - split; [exact Hg | exact Hs].
Defined.

(** C8 (as the spec has it) fails on the empty string: [get] with the key
    [""] does not throw, it sends [GET coal:] and resolves. *)
Lemma empty_key_is_accepted :
  let w := World ∅ [] [] [Run 0; Deliver; Deliver; Deliver] in
  typeof (JStr "") = TString ∧
  (get (new_Coal None) (JStr "") NoUpdate None None w).1 = Resolved JNull ∧
  issued (get (new_Coal None) (JStr "") NoUpdate None None w).2
    = [Sent (GET "coal:")] ∧
  (set (new_Coal None) (JStr "") (JStr "v") None None w).1
    = Resolved (LockStats 0 1).
Proof. vm_compute. done. Qed.

(* ===================================================================== *)
(** ** [del] *)
(* ===================================================================== *)

(** C9: when the client reports no error, [del] sends the single command
    [DEL prefix+key], resolves with the count the server returns (1 when
    the entry was there, 0 when it was not), removes that entry and
    leaves every other key as it was, the lock of [key] among them. *)
Theorem del_removes_only_the_entry c key w :
  next_fault w = None →
  ∃ w',
    del c key w
      = (Resolved (JNum (match keyspace w !! entry_key c key with
                         | Some _ => 1
                         | None => 0
                         end)), w') ∧
    issued w' = issued w ++ [Sent (DEL (entry_key c key))] ∧
    keyspace w' !! entry_key c key = None ∧
    (∀ k, k ≠ entry_key c key → keyspace w' !! k = keyspace w !! k) ∧
    keyspace w' !! lock_key c key = keyspace w !! lock_key c key.
Proof.
  intros Hok. unfold del. fold (entry_key c key).
  rewrite (send_no_fault _ _ Hok). simpl.
  eexists; split; [|split; [|split; [|split]]]; simpl.
  - by destruct (keyspace w !! entry_key c key).
  - done.
  - apply lookup_delete_eq.
  - intros k Hk. by apply lookup_delete_ne.
  - apply lookup_delete_ne, entry_key_ne_lock_key.
Qed.

Lemma del_removes_only_the_entry_witness :
  let c := new_Coal None in
  let w := World {[ "coal:a" := Entry "x" None;
                    "coal:lock:a" := Entry "1" (Some 600) ]} [] [] [] in
  ∃ w',
    del c (JStr "a") w = (Resolved (JNum 1), w') ∧
    keyspace w' !! "coal:a" = None ∧
    keyspace w' !! "coal:lock:a" = Some (Entry "1" (Some 600)).
Proof.
  intros c w.
  destruct (del_removes_only_the_entry c (JStr "a") w)
    as (w' & H1 & _ & H3 & _ & H5).
  - reflexivity.
  - exists w'. split; [exact H1|]. split; [exact H3|].
    change (lock_key c (JStr "a")) with "coal:lock:a" in H5.
    rewrite H5. reflexivity.
Defined.

(* ===================================================================== *)
(** ** The event loop of [set] *)
(* ===================================================================== *)

Lemma send_issued c w r w' :
  send c w = (r, w') → issued w' = issued w ++ [Sent c].
Proof.
  unfold send. intros H.
  destruct (faults w) as [|[e|] fs];
    try (by injection H as <- <-);
    destruct (exec c (keyspace w)); by injection H as <- <-.
Qed.

Section EventLoopFacts.

Variables (lock : string) (timeout : Z) (write : command).

Variable before : nat.

Local Abbreviation Inv := (call_invariant lock write before).
Local Abbreviation news := (since before).

Lemma since_send c w r w' :
  (before ≤ length (issued w))%nat →
  send c w = (r, w') →
  (before ≤ length (issued w'))%nat ∧ news w' = news w ++ [Sent c].
Proof.
  intros Hle E%send_issued. unfold since. rewrite E, length_app.
  split; [lia|]. by apply drop_app_le.
Qed.

Lemma inv_new w : (before ≤ length (issued w))%nat → Inv new_call w.
Proof.
  intros Hle. split; [done|]. split; [done|]. split.
  - intros [[st Hst]|Hex%Exists_nil]; done.
  - intros [[st Hst]|Hex%Exists_nil]; done.
Qed.

Lemma inv_clearInterval s w : Inv s w → Inv (clearInterval s) w.
Proof. unfold clearInterval. by destruct (c_loop s). Qed.

Lemma inv_reject e s w : Inv s w → Inv (reject e s) w.
Proof.
  unfold call_invariant, reject. destruct s as [a l lk res fl]; simpl.
  destruct lk; try done. intros (H0 & H1 & H2 & H3).
  destruct (H1 eq_refl) as [-> Hfl]. rewrite Forall_forall in Hfl.
  split; [done|]. split; [done|]. split.
  - intros [[st Hst]|H]; [done|].
    apply Exists_exists in H as (x & Hx & Hp). by destruct (Hfl x Hx).
  - intros [[st Hst]|H]; [done|]. apply H3. by right.
Qed.

Lemma inv_others cs s w : Inv s w → Inv s (interfere cs w).
Proof. done. Qed.

Lemma release_second_phase x : release x → second_phase x.
Proof. unfold release, second_phase. by destruct (x.1). Qed.

Lemma inv_resolve st s w s' w' :
  Inv s w → resolve write st s w = (s', w') → Inv s' w'.
Proof.
  unfold call_invariant, resolve. destruct s as [a l lk res fl]; simpl.
  destruct lk; try (by intros ? [= <- <-]).
  intros (H0 & H1 & H2 & H3).
  destruct (send write w) as [r w1] eqn:E. intros [= <- <-].
  apply (since_send _ _ _ _ H0) in E as [H0' E].
  destruct (H1 eq_refl) as [-> Hfl]. rewrite Forall_forall in Hfl.
  simpl. split; [done|]. split; [done|]. split.
  - intros _. split; [|by eexists].
    rewrite E. apply elem_of_app. right. by left.
  - intros [[st' Hst]|H]; [done|].
    apply Exists_app in H as [H|H].
    + apply Exists_exists in H as (x & Hx & Hp).
      by destruct (Hfl x Hx); apply release_second_phase.
    + by apply Exists_cons in H as [H|H%Exists_nil].
Qed.

Lemma inv_await_lock e r c s w w' :
  Inv s w → send c w = (r, w') → Inv (await (LockCb e) r s) w'.
Proof.
  unfold call_invariant, await. destruct s as [a l lk res fl]; simpl.
  intros (H0 & H1 & H2 & H3) E.
  apply (since_send _ _ _ _ H0) in E as [H0' E].
  assert (Hgrow : ∀ x, x ∈ news w → x ∈ news w').
  { intros x Hx. rewrite E. apply elem_of_app. by left. }
  split; [done|]. split; [|split].
  - intros Hlk. destruct (H1 Hlk) as [-> Hfl]. split; [done|].
    apply Forall_app. split; [done|]. apply Forall_singleton. by intros ?.
  - intros [Hst|H]; [|apply Exists_app in H as [H|H]].
    + destruct H2 as [? ?]; [by left|]. auto.
    + destruct H2 as [? ?]; [by right|]. auto.
    + by apply Exists_cons in H as [H|H%Exists_nil].
  - intros [Hst|H]; [|apply Exists_app in H as [H|H]].
    + apply Hgrow, H3. by left.
    + apply Hgrow, H3. by right.
    + by apply Exists_cons in H as [H|H%Exists_nil].
Qed.

Lemma inv_attempts n s w :
  Inv s w →
  Inv (Call n (c_loop s) (c_lock s) (c_result s) (c_inflight s)) w.
Proof. done. Qed.

Lemma inv_acquireLock ns s w s' w' :
  Inv s w → acquireLock lock timeout ns s w = (s', w') → Inv s' w'.
Proof.
  unfold acquireLock. intros Hinv.
  destruct (timeout * 10000 <? to_fixed4 ns).
  - intros [= <- <-]. by apply inv_reject, inv_clearInterval, inv_attempts.
  - destruct (send _ w) as [r w1] eqn:E. intros [= <- <-].
    by eapply inv_await_lock; [apply inv_attempts|].
Qed.

Lemma inv_deliver s w s' w' :
  Inv s w → deliver lock write s w = (s', w') → Inv s' w'.
Proof.
  unfold deliver. destruct s as [a l lk res [|[cb r] fl]]; simpl.
  { by intros ? [= <- <-]. }
  intros Hinv.
  assert (Hrest : ∀ cb', cb = LockCb cb' → Inv (Call a l lk res fl) w).
  { intros cb' ->. unfold call_invariant in *. simpl in *.
    destruct Hinv as (H0 & H1 & H2 & H3). split; [done|]. split; [|split].
    - intros Hlk. destruct (H1 Hlk) as [-> Hfl]. split; [done|].
      by apply Forall_cons in Hfl as [_ ?].
    - intros [Hst|H]; apply H2; [by left|]. right. by apply Exists_cons_tl.
    - intros [Hst|H]; apply H3; [by left|]. right. by apply Exists_cons_tl. }
  assert (Hsecond : second_phase (cb, r) →
            Sent write ∈ news w ∧ ∃ st, lk = Resolved st).
  { intros Hp. destruct Hinv as (_ & _ & H2 & _). apply H2. right.
    by apply Exists_cons_hd. }
  destruct cb as [e|st|st].
  - specialize (Hrest e eq_refl). destruct r as [err|[]];
      try (intros [= <- <-]; done).
    + intros [= <- <-].
      by apply inv_reject, (inv_clearInterval (Call _ _ _ _ _)).
    + apply inv_resolve. by apply (inv_clearInterval (Call _ _ _ _ _)).
    + apply inv_resolve. by apply (inv_clearInterval (Call _ _ _ _ _)).
    + apply inv_resolve. by apply (inv_clearInterval (Call _ _ _ _ _)).
  - destruct (Hsecond I) as [Hw [st' ->]]. clear Hrest Hsecond.
    unfold call_invariant in Hinv. simpl in Hinv.
    destruct Hinv as (H0 & _ & _ & H3).
    destruct r as [err|r].
    + intros [= <- <-]. unfold call_invariant; simpl.
      split; [done|]. split; [done|]. split.
      * intros _. split; [done|by eexists].
      * intros [[? Hst]|H]; [done|]. apply H3. right.
        by apply Exists_cons_tl.
    + destruct (send (DEL lock) w) as [r' w1] eqn:E. intros [= <- <-].
      apply (since_send _ _ _ _ H0) in E as [H0' E].
      unfold call_invariant; simpl.
      split; [done|]. split; [done|]. split.
      * intros _. split; [|by eexists].
        rewrite E. apply elem_of_app. by left.
      * intros _. rewrite E. apply elem_of_app. right. by left.
  - destruct (Hsecond I) as [Hw [st' ->]]. clear Hrest Hsecond.
    unfold call_invariant in Hinv. simpl in Hinv.
    destruct Hinv as (H0 & _ & _ & H3).
    assert (Hdel : Sent (DEL lock) ∈ news w).
    { apply H3. right. by apply Exists_cons_hd. }
    destruct r as [err|r]; intros [= <- <-]; unfold call_invariant; simpl;
      (split; [done|]); (split; [done|]);
      (split; [intros _; split; [done|by eexists]|done]).
Qed.

Lemma inv_step e s w s' w' :
  Inv s w → step_call lock timeout write e s w = (s', w') → Inv s' w'.
Proof.
  intros Hinv. destruct e as [ns| |cs]; simpl.
  - destruct (c_loop s).
    + destruct (acquireLock lock timeout ns s w) as [s1 w1] eqn:E.
      intros [= <- <-]. by apply (inv_acquireLock _ _ _ _ _ Hinv) in E.
    + by apply inv_acquireLock.
    + by intros [= <- <-].
  - by apply inv_deliver.
  - by intros [= <- <-].
Qed.

Lemma inv_run evs : ∀ s w s' w',
  Inv s w → run_call lock timeout write evs s w = (s', w') → Inv s' w'.
Proof.
  induction evs as [|e evs IH]; intros s w s' w' Hinv; simpl.
  - by intros [= <- <-].
  - destruct (step_call lock timeout write e s w) as [s1 w1] eqn:E.
    apply (inv_step _ _ _ _ _ Hinv) in E. by apply IH.
Qed.

End EventLoopFacts.

Lemma run_others_app a b ks :
  run_others (a ++ b) ks = run_others b (run_others a ks).
Proof. unfold run_others. apply fold_left_app. Qed.

Lemma others_of_app a b : others_of (a ++ b) = others_of a ++ others_of b.
Proof.
  induction a as [|[ns| |cs] a IH]; simpl; try done.
  by rewrite IH, app_assoc.
Qed.

Lemma scale2_pos p q e :
  0 ≤ p → 0 < q → 0 ≤ (scale2 p q e).1 ∧ 0 < (scale2 p q e).2.
Proof.
  intros Hp Hq. unfold scale2. destruct (0 <=? e) eqn:He; simpl.
  - apply Z.leb_le in He. split; [done|].
    apply Z.mul_pos_pos; [done|]. by apply Z.pow_pos_nonneg.
  - apply Z.leb_gt in He. split; [|done].
    apply Z.mul_nonneg_nonneg; [done|]. apply Z.pow_nonneg. lia.
Qed.

(** A rounded value is a fraction that is not negative. *)
Lemma round_double_pos p q :
  0 ≤ p → 0 < q → 0 ≤ (round_double p q).1 ∧ 0 < (round_double p q).2.
Proof.
  intros Hp Hq. unfold round_double.
  destruct (p =? 0); [simpl; lia|].
  set (e := exponent p q).
  destruct (scale2_pos p q e Hp Hq) as [Hn Hd].
  destruct (scale2 p q e) as [n d]. simpl in Hn, Hd.
  assert (Hm0 : 0 ≤ n / d) by (by apply Z.div_pos).
  set (m := if 2 * _ <? d then _ else _).
  assert (Hm : 0 ≤ m).
  { unfold m. repeat case_match; lia. }
  destruct (0 <=? e) eqn:He; simpl.
  - apply Z.leb_le in He. split; [|lia].
    apply Z.mul_nonneg_nonneg; [done|]. by apply Z.pow_nonneg.
  - apply Z.leb_gt in He. split; [done|]. apply Z.pow_pos_nonneg; lia.
Qed.

(** The elapsed time of a reading that is not negative is not
    negative. *)
Lemma to_fixed4_nonneg ns : 0 ≤ ns → 0 ≤ to_fixed4 ns.
Proof.
  intros Hns. unfold to_fixed4.
  assert (Ha : 0 ≤ Z.abs ns) by lia.
  assert (H1 : 0 ≤ Z.abs ns / 1000000000 * 1000000000).
  { apply Z.mul_nonneg_nonneg; [|lia]. apply Z.div_pos; lia. }
  destruct (round_double_pos _ 1 H1) as [Hpn Hpd]; [lia|].
  destruct (round_double _ 1) as [pn pd]. simpl in Hpn, Hpd.
  assert (H2 : 0 ≤ pn + Z.abs ns mod 1000000000 * pd).
  { pose proof (Z.mod_pos_bound (Z.abs ns) 1000000000). nia. }
  destruct (round_double_pos _ pd H2 Hpd) as [Hsn Hsd].
  destruct (round_double _ pd) as [sn sd]. simpl in Hsn, Hsd.
  destruct (round_double_pos sn (sd * 1000000) Hsn) as [Hxn Hxd]; [lia|].
  destruct (round_double sn _) as [xn xd]. simpl in Hxn, Hxd.
  apply Z.mul_nonneg_nonneg; [lia|]. apply Z.div_pos; lia.
Qed.

Lemma in_time_expire timeout ns :
  in_time timeout (Run ns) → (0 <? timeout + 500) = true.
Proof.
  unfold in_time. intros [H0 H1].
  pose proof (to_fixed4_nonneg ns H0).
  apply Z.ltb_lt. lia.
Qed.

Section SpinLock.

Variables (lock : string) (timeout : Z) (write : command).

Local Abbreviation run := (run_call lock timeout write).

Lemma run_call_app a : ∀ b s w,
  run (a ++ b) s w = let (s', w') := run a s w in run b s' w'.
Proof.
  induction a as [|e a IH]; intros b s w; simpl; [done|].
  destruct (step_call lock timeout write e s w) as [s1 w1]. apply IH.
Qed.

(** While the lock is held by somebody else and the clock is within
    the timeout, each run of [acquireLock] sends one conditional set,
    which is answered [nil]; the promises stay pending and the keyspace
    is left to the other clients. *)
Lemma run_contended pre : ∀ a l fl w,
  l ≠ Cleared →
  Forall nil_reply fl →
  Forall (in_time timeout) pre →
  Forall (λ f, f = None) (take (runs pre) (faults w)) →
  held lock pre (keyspace w) →
  ∃ a' l' fl',
    l' ≠ Cleared ∧ Forall nil_reply fl' ∧
    run pre (Call a l Pending Pending fl) w
      = (Call a' l' Pending Pending fl',
         World (run_others (others_of pre) (keyspace w))
               (issued w ++ replicate (runs pre)
                  (Sent (SET_NX_PX lock "1" (timeout + 500))))
               (drop (runs pre) (faults w)) (schedule w)).
Proof.
  induction pre as [|e pre IH]; intros a l fl w Hl Hfl Htime Hfaults Hheld.
  - exists a, l, fl. simpl. rewrite app_nil_r. by destruct w.
  - apply Forall_cons in Htime as [He Htime].
    destruct e as [ns| |cs]; simpl in Hheld |- *.
    + destruct Hheld as [[en Hen] Hheld].
      assert (Hnot : (timeout * 10000 <? to_fixed4 ns) = false)
        by (apply Z.ltb_ge, He).
      assert (Hnext : next_fault w = None).
      { unfold next_fault. destruct (faults w) as [|[err|] fs]; try done.
        simpl in Hfaults. by apply Forall_cons in Hfaults as [? _]. }
      assert (Hacq : ∀ l0,
        acquireLock lock timeout ns (Call a l0 Pending Pending fl) w
          = (Call (S a) l0 Pending Pending
                  (fl ++ [(LockCb (to_fixed4 ns), inr Nil)]),
             World (keyspace w)
                   (issued w ++ [Sent (SET_NX_PX lock "1" (timeout + 500))])
                   (tail (faults w)) (schedule w))).
      { intros l0. unfold acquireLock. simpl. rewrite Hnot.
        rewrite (send_no_fault _ _ Hnext). simpl.
        by rewrite (in_time_expire _ _ He), Hen. }
      destruct (IH (S a) Ticking
                   (fl ++ [(LockCb (to_fixed4 ns), inr Nil)])
                   (World (keyspace w)
                      (issued w ++ [Sent (SET_NX_PX lock "1" (timeout + 500))])
                      (tail (faults w)) (schedule w)))
        as (a' & l' & fl' & Hl' & Hfl' & Hrun); try done.
      { apply Forall_app. split; [done|]. by apply Forall_singleton. }
      { simpl. destruct (faults w) as [|f fs]; simpl in *;
          [by rewrite take_nil|]. by apply Forall_cons in Hfaults as [_ ?]. }
      exists a', l', fl'. split; [done|]. split; [done|].
      assert (Hstep : step_call lock timeout write (Run ns)
                        (Call a l Pending Pending fl) w
                      = (Call (S a) Ticking Pending Pending
                           (fl ++ [(LockCb (to_fixed4 ns), inr Nil)]),
                         World (keyspace w)
                           (issued w ++
                              [Sent (SET_NX_PX lock "1" (timeout + 500))])
                           (tail (faults w)) (schedule w))).
      { simpl. destruct l; [| |done]; by rewrite Hacq. }
      simpl in Hstep. rewrite Hstep, Hrun. simpl. f_equal. f_equal.
      * by rewrite <- app_assoc.
      * destruct (faults w); simpl; [by rewrite drop_nil | done].
    + destruct fl as [|[cb r] fl]; simpl.
      * by apply IH.
      * apply Forall_cons in Hfl as [Hx Hfl].
        destruct cb as [el| |]; try done. destruct r as [|[]]; try done.
        by apply IH.
    + destruct (IH a l fl (interfere cs w)) as (a' & l' & fl' & ? & ? & Hrun);
        try done.
      exists a', l', fl'. split; [done|]. split; [done|].
      rewrite Hrun. simpl. by rewrite run_others_app.
Qed.

(** Once the lock promise is rejected, with only [nil] replies under
    way and a clock that stays past the timeout, nothing is sent any
    more and the rejection stands. *)
Lemma run_rejected post : ∀ a l fl w e,
  l ≠ NoInterval →
  Forall nil_reply fl →
  Forall (late timeout) post →
  ∃ a' l' fl',
    run post (Call a l (Rejected e) (Rejected e) fl) w
      = (Call a' l' (Rejected e) (Rejected e) fl',
         World (run_others (others_of post) (keyspace w)) (issued w)
               (faults w) (schedule w)).
Proof.
  induction post as [|ev post IH]; intros a l fl w e Hl Hfl Hlate.
  - exists a, l, fl. by destruct w.
  - apply Forall_cons in Hlate as [Hev Hlate].
    destruct ev as [ns| |cs]; simpl.
    + apply Z.ltb_lt in Hev.
      destruct l; [done| |by apply IH].
      unfold acquireLock. simpl. rewrite Hev. simpl. by apply IH.
    + destruct fl as [|[cb r] fl]; simpl.
      * by apply IH.
      * apply Forall_cons in Hfl as [Hx Hfl].
        destruct cb as [el| |]; try done. destruct r as [|[]]; try done.
        by apply IH.
    + destruct (IH a l fl (interfere cs w) e) as (a' & l' & fl' & Hrun);
        try done.
      exists a', l', fl'. rewrite Hrun. simpl. by rewrite run_others_app.
Qed.

(** The spin lock under contention until the timeout. *)
Lemma run_times_out pre ns post w :
  Forall (in_time timeout) pre →
  Forall (λ f, f = None) (take (runs pre) (faults w)) →
  held lock pre (keyspace w) →
  late timeout (Run ns) →
  Forall (late timeout) post →
  ∃ s,
    c_result s = Rejected lock_timeout ∧
    run (pre ++ Run ns :: post) new_call w
      = (s, World (run_others (others_of (pre ++ Run ns :: post))
                     (keyspace w))
                  (issued w ++ replicate (runs pre)
                     (Sent (SET_NX_PX lock "1" (timeout + 500))))
                  (drop (runs pre) (faults w)) (schedule w)).
Proof.
  intros Htime Hfaults Hheld Hns Hpost.
  destruct (run_contended pre 0%nat NoInterval [] w)
    as (a & l & fl & Hl & Hfl & Hpre); try done.
  unfold new_call. rewrite run_call_app, Hpre.
  apply Z.ltb_lt in Hns.
  cbn [run_call step_call c_loop]. unfold acquireLock.
  destruct l; [| |done]; simpl; rewrite Hns;
    unfold reject, clearInterval; simpl.
  - destruct (run_rejected post (S a) Ticking fl
                (World (run_others (others_of pre) (keyspace w))
                   (issued w ++ replicate (runs pre)
                      (Sent (SET_NX_PX lock "1" (timeout + 500))))
                   (drop (runs pre) (faults w)) (schedule w)) lock_timeout)
      as (a' & l' & fl' & Hrun); try done.
    rewrite Hrun.
    exists (Call a' l' (Rejected lock_timeout) (Rejected lock_timeout) fl').
    split; [done|]. simpl.
    by rewrite others_of_app, run_others_app.
  - destruct (run_rejected post (S a) Cleared fl
                (World (run_others (others_of pre) (keyspace w))
                   (issued w ++ replicate (runs pre)
                      (Sent (SET_NX_PX lock "1" (timeout + 500))))
                   (drop (runs pre) (faults w)) (schedule w)) lock_timeout)
      as (a' & l' & fl' & Hrun); try done.
    rewrite Hrun.
    exists (Call a' l' (Rejected lock_timeout) (Rejected lock_timeout) fl').
    split; [done|]. simpl.
    by rewrite others_of_app, run_others_app.
Qed.

End SpinLock.

(* ===================================================================== *)
(** ** [set] *)
(* ===================================================================== *)

(** [set] with valid arguments is a run of the event loop. *)
Lemma set_runs c key value ttl timeout w :
  typeof value ≠ TUndefined →
  set c (JStr key) value ttl timeout w
    = let (s, w') :=
        run_call (lock_key c (JStr key))
          (resolve_timeout timeout (resolve_ttl ttl))
          (write_command c (JStr key) value ttl)
          (schedule w) new_call (set_schedule [] w) in
      (c_result s, w').
Proof.
  intros Hval. unfold set. simpl negb. cbv iota.
  destruct (jstype_eqb (typeof value) TUndefined) eqn:Hu; [by destruct value|].
  done.
Qed.

Lemma set_resolved_defined c key value ttl timeout w stats w' :
  set c key value ttl timeout w = (Resolved stats, w') →
  typeof value ≠ TUndefined.
Proof.
  unfold set. destruct (negb _); [done|]. by destruct value.
Qed.

(** Whenever [set] resolves, it has sent, since it was called, the write
    of the entry and the [DEL] of the lock. *)
Lemma set_resolved_sent c key value ttl timeout w stats w' :
  set c (JStr key) value ttl timeout w = (Resolved stats, w') →
  Sent (write_command c (JStr key) value ttl)
    ∈ drop (length (issued w)) (issued w') ∧
  Sent (DEL (lock_key c (JStr key))) ∈ drop (length (issued w)) (issued w').
Proof.
  intros Hset. pose proof (set_resolved_defined _ _ _ _ _ _ _ _ Hset) as Hval.
  rewrite (set_runs _ _ _ _ _ _ Hval) in Hset.
  destruct (run_call _ _ _ _ _ _) as [s w1] eqn:Hrun.
  injection Hset as Hres ->.
  apply (inv_run _ _ _ (length (issued w))) in Hrun;
    [|by apply inv_new].
  destruct Hrun as (_ & _ & H2 & H3). split.
  - apply H2. left. by eexists.
  - apply H3. left. by eexists.
Qed.




(** The defect behind C1 at the level of the callback: whatever the
    state of the call, when the reply to the write is an error the
    callback settles the result and sends nothing, so that no [DEL]
    follows. *)
Lemma failed_write_sends_nothing lock write s w stats err rest :
  c_inflight s = (WriteCb stats, inl err) :: rest →
  deliver lock write s w
    = (Call (c_attempts s) (c_loop s) (c_lock s)
            (Rejected (RedisError err)) rest, w).
Proof. unfold deliver. by intros ->. Qed.

(** C1 fails in the code: when the write of the entry is answered with an
    error, the callback of line 199 rejects and returns before the [DEL]
    of line 207. Here the lock is free, the first attempt takes it, the
    client reports [ECONNRESET] for the write: [set] rejects, no [DEL] was
    sent and the lock is still in the keyspace. *)
Theorem failed_write_leaves_the_lock :
  let c := new_Coal None in
  let w := World ∅ [] [None; Some "ECONNRESET"]
             [Run 1200; Deliver; Deliver; Deliver] in
  (set c (JStr "a") (JStr "x") None None w).1
    = Rejected (RedisError "ECONNRESET") ∧
  issued (set c (JStr "a") (JStr "x") None None w).2
    = [Sent (SET_NX_PX "coal:lock:a" "1" 3500);
       Sent (SET_PX "coal:a" "x" 30000)] ∧
  keyspace (set c (JStr "a") (JStr "x") None None w).2 !! "coal:lock:a"
    = Some (Entry "1" (Some 3500)).
Proof. vm_compute. done. Qed.

(** The lock also stays behind when the timeout wins the race against a
    reply: the first attempt takes the lock, the interval fires past the
    timeout before the reply is delivered, the promise is rejected, and
    the reply that comes in later finds the promise settled. *)
Lemma late_reply_leaves_the_lock :
  let c := new_Coal None in
  let w := World ∅ [] [] [Run 1200; Run 60000000; Deliver; Deliver] in
  (set c (JStr "a") (JStr "x") None (Some 50) w).1 = Rejected lock_timeout ∧
  issued (set c (JStr "a") (JStr "x") None (Some 50) w).2
    = [Sent (SET_NX_PX "coal:lock:a" "1" 550)] ∧
  keyspace (set c (JStr "a") (JStr "x") None (Some 50) w).2 !! "coal:lock:a"
    = Some (Entry "1" (Some 550)).
Proof. vm_compute. done. Qed.

(** C2: the timeout does not leave the lock untouched when it wins the
    race against the reply to an attempt. The lock is free, the direct
    call of [acquireLock] sends the conditional set, and the server sets
    the lock; the call is still pending, no reply having reached it,
    when the interval fires past the timeout of 3000 ms and rejects with
    the [AcquireError]. The reply [OK] that is delivered afterwards
    finds the promise settled: no write and no [DEL] follow, and the
    lock stays in the keyspace, set by this very call. *)
Theorem timeout_leaves_a_taken_lock :
  let c := new_Coal None in
  let before := World ∅ [] [] [Run 1200] in
  let w := World ∅ [] []
             [Run 1200; Run 3000200000; Deliver; Run 3020000000; Deliver] in
  (set c (JStr "a") (JStr "x") None None before).1 = Pending ∧
  keyspace (set c (JStr "a") (JStr "x") None None before).2 !! "coal:lock:a"
    = Some (Entry "1" (Some 3500)) ∧
  (set c (JStr "a") (JStr "x") None None w).1 = Rejected lock_timeout ∧
  issued (set c (JStr "a") (JStr "x") None None w).2
    = [Sent (SET_NX_PX "coal:lock:a" "1" 3500)] ∧
  keyspace (set c (JStr "a") (JStr "x") None None w).2 !! "coal:lock:a"
    = Some (Entry "1" (Some 3500)).
Proof. vm_compute. done. Qed.

(* ===================================================================== *)
(** ** [get] *)
(* ===================================================================== *)

Lemma get_reply k ks r ks' :
  exec (GET k) ks = (inr r, ks') →
  ks' = ks ∧
  r = match ks !! k with Some e => Bulk (e_value e) | None => Nil end.
Proof. simpl. intros H. by injection H as <- <-. Qed.

(** C4: on a hit, that is when the client reports no error and the entry
    of the key holds a string, [get] resolves with that string put
    through the decode step; the read is the only thing that happened:
    the [update] function was not invoked and nothing was written. *)
Theorem get_hit c key update ttl timeout w e :
  accepted_arguments update ttl →
  next_fault w = None →
  keyspace w !! entry_key c (JStr key) = Some e →
  get c (JStr key) update ttl timeout w
    = (Resolved (decode (JStr (e_value e))),
       World (keyspace w)
             (issued w ++ [Sent (GET (entry_key c (JStr key)))])
             (tail (faults w)) (schedule w)).
Proof.
  intros Hargs Hok Hhit. unfold get. simpl negb. cbv iota.
  fold (entry_key c (JStr key)).
  rewrite (send_no_fault _ _ Hok). simpl. rewrite Hhit.
  destruct update as [err result|n|], ttl as [n'|];
    simpl in Hargs; try discriminate; done.
Qed.

Lemma get_hit_witness :
  let c := new_Coal None in
  let w := World {[ "coal:a" := Entry "[1,2]" (Some 1000) ]} [] [] [] in
  get c (JStr "a") (Update JNull (JStr "fresh")) None None w
    = (Resolved (JArr [JNum 1; JNum 2]),
       World (keyspace w) [Sent (GET "coal:a")] [] []).
Proof.
  intros c w.
  exact (get_hit c "a" (Update JNull (JStr "fresh")) None None w
           (Entry "[1,2]" (Some 1000)) I eq_refl eq_refl).
Defined.

(** C7: the decode step is total. On a string it yields the parsed value
    when [JSON.parse] succeeds and the string itself when [JSON.parse]
    throws; [null] is left alone. On a miss without an [update] function
    (and without a fault of the client) [get] sends the read and resolves
    with [null]. *)
Theorem decode_falls_back c key s update timeout w :
  update = NoUpdate ∨ (∃ n, update = Seconds n) →
  next_fault w = None →
  keyspace w !! entry_key c (JStr key) = None →
  (JSON_parse s = None → decode (JStr s) = JStr s) ∧
  (∀ v, JSON_parse s = Some v → decode (JStr s) = v) ∧
  decode JNull = JNull ∧
  get c (JStr key) update None timeout w
    = (Resolved JNull,
       World (keyspace w)
             (issued w ++ [Sent (GET (entry_key c (JStr key)))])
             (tail (faults w)) (schedule w)).
Proof.
  intros Hupd Hok Hmiss. repeat split.
  - unfold decode; simpl. by intros ->.
  - unfold decode; simpl. by intros v ->.
  - unfold get. simpl negb. cbv iota.
    fold (entry_key c (JStr key)).
    destruct Hupd as [-> | [n ->]];
      rewrite (send_no_fault _ _ Hok); simpl; by rewrite Hmiss.
Qed.

Lemma decode_falls_back_witness :
  let c := new_Coal None in
  let w := World ∅ [] [] [] in
  decode (JStr "{not json") = JStr "{not json" ∧
  decode (JStr "{}") = JObj [] ∧
  get c (JStr "a") NoUpdate None None w
    = (Resolved JNull, World ∅ [Sent (GET "coal:a")] [] []).
Proof.
  intros c w.
  destruct (decode_falls_back c "a" "{not json" NoUpdate None w)
    as (Hraw & _ & _ & Hget); [by left | reflexivity | reflexivity |].
  destruct (decode_falls_back c "a" "{}" NoUpdate None w)
    as (_ & Hparsed & _ & _); [by left | reflexivity | reflexivity |].
  split; [apply Hraw; reflexivity|].
  split; [apply Hparsed; reflexivity | exact Hget].
Defined.

(** On a miss with an [update] function, [get] resolves only after the
    delegated [set] has resolved, and then with the decoded result. *)
Lemma get_miss_resolved c key err result ttl timeout w v w' :
  keyspace w !! entry_key c (JStr key) = None →
  get c (JStr key) (Update err result) ttl timeout w = (Resolved v, w') →
  truthy err = false ∧ v = decode result ∧
  ∃ stats,
    set c (JStr key) result (Some (resolve_ttl ttl))
        (Some (resolve_timeout timeout (resolve_ttl ttl)))
        (World (keyspace w)
               (issued w ++ [Sent (GET (entry_key c (JStr key))); Invoked])
               (tail (faults w)) (schedule w))
      = (Resolved stats, w').
Proof.
  intros Hmiss. unfold get. simpl negb. cbv iota.
  fold (entry_key c (JStr key)).
  destruct (send _ w) as [[e|r] w1] eqn:E; [by destruct ttl|].
  apply send_reply in E as (X & Hi & Hf & Hs).
  apply get_reply in X as [Hk ->]. rewrite Hmiss.
  assert (Hw1 : record Invoked w1
            = World (keyspace w)
                (issued w ++ [Sent (GET (entry_key c (JStr key))); Invoked])
                (tail (faults w)) (schedule w)).
  { unfold record. rewrite Hk, Hi, Hf, Hs, <- app_assoc. done. }
  rewrite Hw1.
  destruct (truthy err); [by destruct ttl|].
  destruct (set c (JStr key) result _ _ _) as [[?|?|st|] w2] eqn:S;
    destruct ttl; try discriminate;
    intros H; injection H as <- <-; eauto.
Qed.

Lemma elem_of_drop_le {A} (x : A) (l : list A) (m n : nat) :
  (m ≤ n)%nat → x ∈ drop n l → x ∈ drop m l.
Proof.
  intros Hle [i Hi]%list_elem_of_lookup. rewrite lookup_drop in Hi.
  apply list_elem_of_lookup. exists (n - m + i)%nat.
  rewrite lookup_drop, <- Hi. f_equal. lia.
Qed.

(** C10 (as the code has it): when [get] is given a positive [ttl] and
    repopulates the cache on a miss, the write of the entry carries an
    expiry of [ttl * 1000000] milliseconds: [get] passes [ttl * 1000] to
    [set], which multiplies by 1000 again. *)
Theorem get_scales_ttl_twice c key err result n timeout w v w' :
  0 < n →
  keyspace w !! entry_key c (JStr key) = None →
  get c (JStr key) (Update err result) (Some n) timeout w = (Resolved v, w') →
  Sent (SET_PX (entry_key c (JStr key)) (encode result) (n * 1000000))
    ∈ drop (length (issued w)) (issued w') ∧
  ∀ ks,
    exec (SET_PX (entry_key c (JStr key)) (encode result) (n * 1000000)) ks
      = (inr Ok,
         <[entry_key c (JStr key)
             := Entry (encode result) (Some (n * 1000000))]> ks).
Proof.
  intros Hn Hmiss Hget.
  apply get_miss_resolved in Hget as (_ & _ & st & Hset); [|done].
  apply set_resolved_sent in Hset as [Hsent _]. simpl in Hsent.
  assert (Httl : resolve_ttl (Some (resolve_ttl (Some n))) = n * 1000000).
  { unfold resolve_ttl, or_default; simpl.
    destruct (n * 1000 =? 0) eqn:E0; [lia|].
    destruct (n * 1000 * 1000 =? 0) eqn:E1; lia. }
  assert (Hpos : (0 <? n * 1000000) = true) by (apply Z.ltb_lt; lia).
  unfold write_command in Hsent. rewrite Httl, Hpos in Hsent. split.
  - eapply elem_of_drop_le; [|exact Hsent]. rewrite length_app. lia.
  - intros ks. simpl. by rewrite Hpos.
Qed.

Lemma get_scales_ttl_twice_witness :
  let c := new_Coal None in
  let w := World ∅ [] [] [Run 1200; Deliver; Deliver; Deliver] in
  Sent (SET_PX "coal:a" "x" 2000000)
    ∈ issued (get c (JStr "a") (Update JNull (JStr "x")) (Some 2) None w).2.
Proof.
  intros c w.
  assert (Hget : get c (JStr "a") (Update JNull (JStr "x")) (Some 2) None w
                 = (Resolved (JStr "x"),
                    (get c (JStr "a") (Update JNull (JStr "x")) (Some 2)
                         None w).2))
    by (vm_compute; reflexivity).
  exact (proj1 (get_scales_ttl_twice c "a" JNull (JStr "x") 2 None w
                  (JStr "x") _ ltac:(lia) eq_refl Hget)).
Defined.

(** C10 (as the spec has it) fails when [ttl] is not positive: with
    [ttl = 0] the default is the value multiplied by 1000 and the entry is
    written with [PX 30000000]; with [ttl = -1] it is written with no
    expiry at all. *)
Lemma get_ttl_not_positive :
  let c := new_Coal None in
  let w := World ∅ [] [] [Run 1200; Deliver; Deliver; Deliver] in
  keyspace (get c (JStr "a") (Update JNull (JStr "x")) (Some 0) None w).2
    !! "coal:a" = Some (Entry "x" (Some 30000000)) ∧
  Some 30000000 ≠ Some (0 * 1000000) ∧
  keyspace (get c (JStr "a") (Update JNull (JStr "x")) (Some (-1)) None w).2
    !! "coal:a" = Some (Entry "x" None).
Proof. vm_compute. repeat split; discriminate. Qed.

(* ===================================================================== *)
(** ** The value codec: reading back what [JSON.stringify] wrote *)
(* ===================================================================== *)

Lemma code_ascii_of_N n : (n < 256)%N → code (ascii_of_N n) = n.
Proof. apply N_ascii_embedding. Qed.

Lemma digit_char_spec d :
  (d < 10)%N →
  is_digit (digit_char d) = true ∧ digit_val (digit_char d) = Z.of_N d ∧
  code (digit_char d) = (48 + d)%N.
Proof.
  intros Hd. unfold is_digit, digit_val, digit_char.
  rewrite code_ascii_of_N by lia. repeat split; [|lia].
  apply andb_true_iff. split; apply N.leb_le; lia.
Qed.

Lemma to_digits_app fuel : ∀ n acc rest,
  to_digits fuel n acc +:+ rest = to_digits fuel n (acc +:+ rest).
Proof.
  induction fuel as [|fuel IH]; intros n acc rest; simpl; [done|].
  destruct (n <? 10)%N; [done|]. by rewrite IH.
Qed.

Lemma read_digits_step a c ch s :
  is_digit ch = true →
  read_digits a c (String ch s) = read_digits (10 * a + digit_val ch) (S c) s.
Proof. simpl. by intros ->. Qed.

Lemma read_digits_to_digits fuel : ∀ n acc a c,
  (n < 10 ^ N.of_nat fuel)%N →
  ∃ k : nat,
    read_digits a c (to_digits fuel n acc)
      = read_digits (a * 10 ^ Z.of_nat k + Z.of_N n) (c + k) acc.
Proof.
  induction fuel as [|fuel IH]; intros n acc a c Hn.
  - exists 0%nat. simpl in *. f_equal; lia.
  - cbn [to_digits].
    destruct (digit_char_spec (n mod 10)) as (Hd & Hv & _).
    { apply N.mod_lt. lia. }
    destruct (n <? 10)%N eqn:E.
    + apply N.ltb_lt in E. exists 1%nat.
      rewrite read_digits_step, Hv by done.
      rewrite N.mod_small by done. f_equal; lia.
    + apply N.ltb_ge in E.
      destruct (IH (n / 10)%N (String (digit_char (n mod 10)) acc) a c)
        as [k Hk].
      { apply N.Div0.div_lt_upper_bound.
        rewrite Nat2N.inj_succ, N.pow_succ_r' in Hn. lia. }
      exists (S k). rewrite Hk, read_digits_step, Hv by done.
      f_equal; [|lia].
      rewrite Nat2Z.inj_succ, Z.pow_succ_r by lia.
      pose proof (N.div_mod n 10 ltac:(lia)) as Hdm.
      rewrite N2Z.inj_div, N2Z.inj_mod. 
      pose proof (Z.div_mod (Z.of_N n) 10 ltac:(lia)). simpl Z.of_N. lia.
Qed.

Lemma closes_ends_number rest : closes rest → ends_number rest.
Proof.
  destruct rest as [|c r]; simpl; [done|]. unfold is_digit.
  intros [H | [H | H]]; rewrite H; repeat split; done.
Qed.

Lemma to_digits_head fuel : ∀ n acc,
  (0 < n)%N → (n < 10 ^ N.of_nat fuel)%N →
  ∃ ch s, to_digits fuel n acc = String ch s ∧
          is_digit ch = true ∧ code ch ≠ 48%N.
Proof.
  induction fuel as [|fuel IH]; intros n acc Hpos Hn.
  - simpl in Hn. lia.
  - cbn [to_digits].
    destruct (n <? 10)%N eqn:E.
    + apply N.ltb_lt in E. rewrite N.mod_small by done.
      destruct (digit_char_spec n E) as (Hd & _ & Hc).
      eexists _, _. split; [done|]. split; [done|]. lia.
    + apply N.ltb_ge in E. apply IH.
      * apply N.div_str_pos. lia.
      * apply N.Div0.div_lt_upper_bound.
        rewrite Nat2N.inj_succ, N.pow_succ_r' in Hn. lia.
Qed.

Lemma digits_fuel n : (n < 10 ^ N.of_nat (S (N.to_nat (N.log2 n))))%N.
Proof.
  rewrite Nat2N.inj_succ, N2Nat.id.
  destruct (N.eq_dec n 0%N) as [-> | Hn]; [done|].
  pose proof (N.log2_spec n ltac:(lia)) as [_ Hlt].
  eapply N.lt_le_trans; [exact Hlt|].
  apply N.pow_le_mono_l. lia.
Qed.

Lemma read_digits_end a c rest :
  ends_number rest → read_digits a c rest = (a, c, rest).
Proof. destruct rest as [|ch r]; simpl; [done|]. by intros [-> _]. Qed.

Lemma read_fraction_none rest :
  ends_number rest → read_fraction rest = Some (0, 0%nat, rest).
Proof.
  destruct rest as [|ch r]; simpl; [done|]. intros (_ & H & _).
  unfold read_fraction, expect.
  by destruct (N.eqb_spec (code ch) (code ".")).
Qed.

Lemma read_exponent_none rest :
  ends_number rest → read_exponent rest = Some (0, rest).
Proof.
  destruct rest as [|ch r]; simpl; [done|]. intros (_ & _ & H1 & H2).
  destruct (N.eqb_spec (code ch) 101), (N.eqb_spec (code ch) 69); done.
Qed.

Lemma parse_number_plain (neg : bool) ch s ip k rest :
  is_digit ch = true →
  (if (code ch =? 48)%N then (0, 1%nat, s) else read_digits 0 0 (String ch s))
    = (ip, k, rest) →
  ends_number rest →
  parse_number ((if neg then "-" else "") +:+ String ch s)
    = Some (JNum (if neg then - ip else ip), rest).
Proof.
  intros Hd Hread Hrest. unfold parse_number.
  assert (H45 : (code ch =? 45)%N = false).
  { unfold is_digit in Hd. apply andb_true_iff in Hd as [H1 _].
    apply N.leb_le in H1. apply N.eqb_neq. lia. }
  assert (Hsplit :
    match (if neg then "-" else "") +:+ String ch s with
    | "" => (false, (if neg then "-" else "") +:+ String ch s)
    | String c r =>
        if (code c =? 45)%N then (true, r)
        else (false, (if neg then "-" else "") +:+ String ch s)
    end = (neg, String ch s)).
  { destruct neg; [done|]. simpl. by rewrite H45. }
  rewrite Hsplit, Hd. simpl negb. cbv iota. rewrite Hread.
  rewrite read_fraction_none by done. simpl.
  rewrite read_exponent_none by done. simpl.
  unfold make_number. simpl. do 3 f_equal.
  change (Z.of_nat 0) with 0. change (10 ^ (0 - 0)) with 1.
  change (10 ^ 0) with 1. destruct neg; lia.
Qed.

(** The digits of an integer below [10^21], read back by [parse_number]. *)
Lemma parse_number_integer n rest :
  Z.abs n < 10 ^ 21 → ends_number rest →
  parse_number (number_to_string n 0 +:+ rest) = Some (JNum n, rest).
Proof.
  intros Hn Hrest. unfold number_to_string.
  assert (Hb : (Z.abs n <? 10 ^ 21) = true) by (by apply Z.ltb_lt).
  rewrite Hb. simpl andb. cbv iota.
  destruct (Z.eq_dec n 0) as [-> | Hnz].
  { exact (parse_number_plain false "0" rest 0 1 rest eq_refl eq_refl Hrest). }
  unfold digits. rewrite app_assoc_str, to_digits_app. simpl (_ +:+ rest).
  destruct (to_digits_head _ (Z.abs_N n) rest ltac:(lia) (digits_fuel _))
    as (ch & s & Hs & Hd & Hc).
  destruct (read_digits_to_digits _ (Z.abs_N n) rest 0 0%nat (digits_fuel _))
    as [k Hk].
  rewrite (read_digits_end _ _ rest Hrest) in Hk. rewrite Hs in Hk |- *.
  assert (H48 : (code ch =? 48)%N = false) by (by apply N.eqb_neq).
  assert (Hm : ∀ neg : bool,
    parse_number ((if neg then "-" else "") +:+ String ch s)
      = Some (JNum (if neg then - Z.abs n else Z.abs n), rest)).
  { intros neg.
    rewrite (parse_number_plain neg ch s (Z.abs n) k rest); try done.
    rewrite H48, Hk, N2Z.inj_abs_N. simpl.
    by rewrite Z.mul_0_l, Z.add_0_l. }
  destruct (n <? 0) eqn:Hneg.
  - apply Z.ltb_lt in Hneg. rewrite (Hm true). do 3 f_equal. lia.
  - apply Z.ltb_ge in Hneg. rewrite (Hm false). do 3 f_equal. lia.
Qed.

Lemma parse_chars_escape_char c t :
  parse_chars (escape_char c +:+ t) = emit (String c "") (parse_chars t).
Proof. destruct c as [[] [] [] [] [] [] [] []]; reflexivity. Qed.

Lemma parse_chars_escape s : ∀ rest,
  parse_chars (escape s +:+ String dquote rest) = Some (s, rest).
Proof.
  induction s as [|c s IH]; intros rest; [done|].
  cbn [escape]. rewrite app_assoc_str, parse_chars_escape_char, IH. done.
Qed.

Lemma skip_ws_head c s : is_ws c = false → skip_ws (String c s) = String c s.
Proof. simpl. by intros ->. Qed.

Lemma digit_starts_value c : is_digit c = true → starts_value c.
Proof.
  unfold is_digit, starts_value, is_ws. intros H.
  apply andb_true_iff in H as [H1 H2].
  apply N.leb_le in H1, H2.
  repeat split; try lia.
  repeat (apply orb_false_iff; split); apply N.eqb_neq; lia.
Qed.

Lemma read_digits_app d : ∀ a c r,
  all_digits d = true →
  read_digits a c (d +:+ r) = read_digits (digits_val a d) (c + String.length d) r.
Proof.
  induction d as [|ch d IH]; intros a c r Hd; simpl.
  - by rewrite Nat.add_0_r.
  - simpl in Hd. apply andb_true_iff in Hd as [Hch Hd]. rewrite Hch.
    rewrite IH by done. f_equal. lia.
Qed.

Lemma read_digits_stops a c r : stops r → read_digits a c r = (a, c, r).
Proof. destruct r as [|ch r]; simpl; [done|]. by intros ->. Qed.

Lemma digits_val_acc d : ∀ a,
  digits_val a d = a * 10 ^ Z.of_nat (String.length d) + digits_val 0 d.
Proof.
  induction d as [|ch d IH]; intros a; simpl String.length; cbn [digits_val].
  - simpl. lia.
  - rewrite (IH (10 * a + digit_val ch)), (IH (10 * 0 + digit_val ch)).
    rewrite Nat2Z.inj_succ, Z.pow_succ_r by lia. lia.
Qed.

Lemma all_digits_app a b :
  all_digits (a +:+ b) = all_digits a && all_digits b.
Proof.
  induction a as [|c a IH]; simpl; [done|]. by rewrite IH, andb_assoc.
Qed.

Lemma digits_val_app a b x :
  digits_val x (a +:+ b) = digits_val (digits_val x a) b.
Proof. revert x. induction a as [|c a IH]; intros x; simpl; done. Qed.

Lemma all_digits_to_digits fuel : ∀ n acc,
  all_digits (to_digits fuel n acc) = all_digits acc.
Proof.
  induction fuel as [|fuel IH]; intros n acc; [done|].
  cbn [to_digits].
  destruct (digit_char_spec (n mod 10)) as (Hd & _ & _).
  { apply N.mod_lt. lia. }
  destruct (n <? 10)%N; [|rewrite IH]; simpl; by rewrite Hd.
Qed.

Lemma all_digits_digits n : all_digits (digits n) = true.
Proof. unfold digits. by rewrite all_digits_to_digits. Qed.

Lemma digits_val_digits n : digits_val 0 (digits n) = Z.of_N n.
Proof.
  destruct (read_digits_to_digits _ n "" 0 0%nat (digits_fuel n)) as [k Hk].
  fold (digits n) in Hk.
  rewrite <- (app_nil_r_str (digits n)) in Hk at 1.
  rewrite read_digits_app in Hk by apply all_digits_digits.
  simpl in Hk. injection Hk as Hk _. lia.
Qed.

Lemma digits_leads n : (0 < n)%N → leads (digits n).
Proof.
  intros Hn.
  destruct (to_digits_head _ n "" Hn (digits_fuel n)) as (ch & s & Hs & _ & Hc).
  unfold digits. by rewrite Hs.
Qed.

Lemma to_digits_nonempty fuel : ∀ n acc,
  acc ≠ "" ∨ fuel ≠ O → to_digits fuel n acc ≠ "".
Proof.
  induction fuel as [|fuel IH]; intros n acc H; simpl.
  - by destruct H.
  - destruct (n <? 10)%N; [done|]. apply IH. by left.
Qed.

Lemma digits_nonempty n : digits n ≠ "".
Proof. unfold digits. apply to_digits_nonempty. by right. Qed.

Lemma zeros_spec k :
  all_digits (zeros k) = true ∧ String.length (zeros k) = k ∧
  ∀ a, digits_val a (zeros k) = a * 10 ^ Z.of_nat k.
Proof.
  induction k as [|k (IH1 & IH2 & IH3)].
  - simpl. repeat split. intros a. lia.
  - cbn [zeros all_digits String.length digits_val].
    split; [done|]. split; [by rewrite IH2|]. intros a.
    rewrite IH3. change (digit_val "0") with 0.
    rewrite Nat2Z.inj_succ, Z.pow_succ_r by lia. lia.
Qed.

Lemma split_at_spec k : ∀ s a b,
  split_at k s = (a, b) →
  s = a +:+ b ∧ ((k ≤ String.length s)%nat → String.length a = k).
Proof.
  induction k as [|k IH]; intros s a b; simpl.
  - intros [= <- <-]. done.
  - destruct s as [|c s]; [intros [= <- <-]; simpl; split; [done|lia]|].
    destruct (split_at k s) as [a' b'] eqn:E. intros [= <- <-].
    destruct (IH _ _ _ E) as [-> Hlen]. simpl. split; [done|].
    intros H. rewrite Hlen; [done|]. rewrite string_length_app in *. lia.
Qed.

Lemma leads_digit c s : leads (String c s) → (code c =? 48)%N = false.
Proof. simpl. by intros H%N.eqb_neq. Qed.

Lemma stops_not_minus c : is_digit c = true → (code c =? 45)%N = false.
Proof.
  unfold is_digit. intros [H1 _]%andb_true_iff.
  apply N.leb_le in H1. apply N.eqb_neq. lia.
Qed.

(** The text of a number up to the end of its integer part. *)
Lemma parse_number_integer_part (neg : bool) i t :
  all_digits i = true → i = "0" ∨ leads i → stops t →
  parse_number ((if neg then "-" else "") +:+ i +:+ t)
  = '(fp, fl, s3) ← read_fraction t;
    '(ex, s4) ← read_exponent s3;
    Some (make_number
            (if neg then - (digits_val 0 i * 10 ^ Z.of_nat fl + fp)
             else digits_val 0 i * 10 ^ Z.of_nat fl + fp)
            (ex - Z.of_nat fl), s4).
Proof.
  intros Hi Hlead Ht.
  assert (Hne : ∃ c i', i = String c i' ∧ is_digit c = true).
  { destruct i as [|c i']; [by destruct Hlead|]. simpl in Hi.
    apply andb_true_iff in Hi as [? _]. eauto. }
  destruct Hne as (c & i' & -> & Hc).
  unfold parse_number.
  assert (Hsplit :
    match (if neg then "-" else "") +:+ String c i' +:+ t with
    | "" => (false, (if neg then "-" else "") +:+ String c i' +:+ t)
    | String c0 r =>
        if (code c0 =? 45)%N then (true, r)
        else (false, (if neg then "-" else "") +:+ String c i' +:+ t)
    end = (neg, String c (i' +:+ t))).
  { destruct neg; [done|]. simpl. by rewrite (stops_not_minus _ Hc). }
  rewrite Hsplit, Hc. simpl negb. cbv iota.
  assert (Hip :
    (if (code c =? 48)%N then (0, 1%nat, i' +:+ t)
     else read_digits 0 0 (String c (i' +:+ t)))
    = (digits_val 0 (String c i'), String.length (String c i'), t)).
  { destruct Hlead as [[= -> ->] | Hlead].
    - done.
    - rewrite (leads_digit _ _ Hlead).
      change (String c (i' +:+ t)) with (String c i' +:+ t).
      rewrite read_digits_app by done. by rewrite read_digits_stops. }
  rewrite Hip. done.
Qed.

Lemma read_fraction_digits fd t :
  all_digits fd = true → fd ≠ "" → stops t →
  read_fraction ("." +:+ fd +:+ t)
  = Some (digits_val 0 fd, String.length fd, t).
Proof.
  intros Hfd Hne Ht. unfold read_fraction. simpl.
  rewrite read_digits_app by done. rewrite read_digits_stops by done.
  simpl. destruct fd; done.
Qed.

Lemma read_fraction_exponent t :
  read_fraction ("e" +:+ t) = Some (0, 0%nat, "e" +:+ t).
Proof. done. Qed.

Lemma ends_number_stops t : ends_number t → stops t.
Proof. destruct t; simpl; [done|]. by intros [? _]. Qed.

Lemma read_exponent_digits (x : Z) t :
  ends_number t →
  read_exponent ("e" +:+ (if 0 <=? x then "+" else "-")
                     +:+ digits (Z.abs_N x) +:+ t)
  = Some (x, t).
Proof.
  intros Ht. unfold read_exponent.
  assert (Hread : read_digits 0 0 (digits (Z.abs_N x) +:+ t)
                  = (Z.abs x, String.length (digits (Z.abs_N x)), t)).
  { rewrite read_digits_app by apply all_digits_digits.
    rewrite read_digits_stops by by apply ends_number_stops.
    by rewrite digits_val_digits, N2Z.inj_abs_N. }
  pose proof (digits_nonempty (Z.abs_N x)) as Hne.
  destruct (0 <=? x) eqn:Hx; simpl; rewrite Hread;
    destruct (digits (Z.abs_N x)); try done; simpl; do 2 f_equal.
  - apply Z.leb_le in Hx. lia.
  - apply Z.leb_gt in Hx. lia.
Qed.

Lemma leads_app a b : leads a → leads (a +:+ b).
Proof. by destruct a. Qed.

Lemma parse_positive (neg : bool) s e rest :
  0 < s → ends_number rest →
  parse_number ((if neg then "-" else "") +:+ positive_to_string s e +:+ rest)
  = Some (make_number (if neg then - s else s) e, rest).
Proof.
  intros Hs Hrest.
  pose proof (all_digits_digits (Z.to_N s)) as Hall.
  pose proof (digits_val_digits (Z.to_N s)) as Hval.
  rewrite Z2N.id in Hval by lia.
  pose proof (digits_leads (Z.to_N s) ltac:(lia)) as Hlead.
  pose proof (ends_number_stops _ Hrest) as Hstop.
  unfold positive_to_string.
  set (ds := digits (Z.to_N s)) in *.
  set (k := Z.of_nat (String.length ds)).
  assert (Hk : 0 < k).
  { unfold k. destruct ds; [done|]. simpl String.length. lia. }
  set (sign := if neg then "-" else "").
  assert (Hsigned : ∀ m e',
    m = s → e' = e →
    make_number (if neg then - m else m) e'
    = make_number (if neg then - s else s) e) by (by intros ? ? -> ->).
  destruct ((k <=? k + e) && (k + e <=? 21)) eqn:C1.
  { apply andb_true_iff in C1 as [C1 _]. apply Z.leb_le in C1.
    destruct (zeros_spec (Z.to_nat (k + e - k))) as (Z1 & Z2 & Z3).
    unfold sign.
    rewrite (parse_number_integer_part neg (ds +:+ zeros _) rest);
      [|by rewrite all_digits_app, Hall, Z1|right; by apply leads_app|done].
    rewrite read_fraction_none by done. cbn [mbind option_bind].
    rewrite read_exponent_none by done. cbn [mbind option_bind].
    f_equal. f_equal.
    rewrite digits_val_app, Z3, Hval.
    change (Z.of_nat 0) with 0. unfold make_number.
    assert (He : (0 <=? e) = true) by (apply Z.leb_le; lia).
    rewrite He. simpl (0 <=? 0 - 0). cbv iota.
    rewrite Z2Nat.id by lia.
    replace (k + e - k) with e by lia.
    change (10 ^ 0) with 1. change (10 ^ (0 - 0)) with 1.
    f_equal. destruct neg; lia. }
  destruct ((0 <? k + e) && (k + e <=? 21)) eqn:C2.
  { apply andb_true_iff in C2 as [C2 C2']. apply Z.ltb_lt in C2.
    rewrite C2' in C1. rewrite andb_true_r in C1. apply Z.leb_gt in C1.
    destruct (split_at (Z.to_nat (k + e)) ds) as [a b] eqn:E.
    destruct (split_at_spec _ _ _ _ E) as [Hds Hlen].
    assert (Ha : String.length a = Z.to_nat (k + e)) by (apply Hlen; lia).
    assert (Hb : Z.of_nat (String.length b) = - e).
    { unfold k in *. rewrite Hds, string_length_app in *. lia. }
    assert (Hab : all_digits a = true ∧ all_digits b = true).
    { rewrite Hds, all_digits_app in Hall. by apply andb_true_iff in Hall. }
    destruct Hab as [Hda Hdb].
    assert (Hla : leads a).
    { rewrite Hds in Hlead. destruct a; [simpl in Ha; lia|done]. }
    assert (Hnb : b ≠ "") by (intros ->; simpl in Hb; lia).
    rewrite !app_assoc_str.
    unfold sign.
    rewrite (parse_number_integer_part neg a ("." +:+ b +:+ rest));
      [|done|by right|done].
    rewrite read_fraction_digits by done. cbn [mbind option_bind].
    rewrite read_exponent_none by done. cbn [mbind option_bind].
    f_equal. f_equal. apply Hsigned; [|lia].
    rewrite <- Hval, Hds, digits_val_app.
    by rewrite (digits_val_acc b (digits_val 0 a)). }
  destruct ((-6 <? k + e) && (k + e <=? 0)) eqn:C3.
  { apply andb_true_iff in C3 as [_ C3]. apply Z.leb_le in C3.
    destruct (zeros_spec (Z.to_nat (- (k + e)))) as (Z1 & Z2 & Z3).
    change ("0." +:+ zeros (Z.to_nat (- (k + e))) +:+ ds)
      with ("0" +:+ "." +:+ zeros (Z.to_nat (- (k + e))) +:+ ds).
    rewrite !app_assoc_str. unfold sign.
    rewrite <- (app_assoc_str (zeros _) ds rest).
    rewrite (parse_number_integer_part neg "0"
               ("." +:+ (zeros (Z.to_nat (- (k + e))) +:+ ds) +:+ rest));
      [|done|by left|done].
    rewrite read_fraction_digits;
      [|by rewrite all_digits_app, Z1, Hall|by destruct (zeros _), ds|done].
    cbn [mbind option_bind].
    rewrite read_exponent_none by done. cbn [mbind option_bind].
    f_equal. f_equal. apply Hsigned.
    - rewrite digits_val_app, Z3, (digits_val_acc ds), Hval.
      change (digits_val 0 "0") with 0.
      rewrite !Z.mul_0_l. lia.
    - rewrite string_length_app, Z2. unfold k. lia. }
  clear C1 C2 C3.
  destruct (split_at 1 ds) as [a b] eqn:E.
  destruct (split_at_spec _ _ _ _ E) as [Hds Hlen].
  assert (Ha : String.length a = 1%nat) by (apply Hlen; lia).
  assert (Hab : all_digits a = true ∧ all_digits b = true).
  { rewrite Hds, all_digits_app in Hall. by apply andb_true_iff in Hall. }
  destruct Hab as [Hda Hdb].
  assert (Hla : leads a).
  { rewrite Hds in Hlead. destruct a; [simpl in Ha; lia|done]. }
  assert (Hkb : k = 1 + Z.of_nat (String.length b)).
  { unfold k. rewrite Hds, string_length_app. lia. }
  unfold sign. destruct b as [|cb b'].
  - rewrite !app_assoc_str.
    rewrite (parse_number_integer_part neg a); [|done|by right|done].
    rewrite read_fraction_exponent. cbn [mbind option_bind].
    rewrite read_exponent_digits by done. cbn [mbind option_bind].
    f_equal. f_equal. apply Hsigned.
    + rewrite <- Hval, Hds, app_nil_r_str. change (Z.of_nat 0) with 0. lia.
    + simpl in Hkb. change (Z.of_nat 0) with 0. lia.
  - rewrite !app_assoc_str.
    rewrite (parse_number_integer_part neg a); [|done|by right|done].
    rewrite (read_fraction_digits (String cb b')); [|done|done|done].
    cbn [mbind option_bind].
    rewrite read_exponent_digits by done. cbn [mbind option_bind].
    f_equal. f_equal. apply Hsigned; [|lia].
    rewrite <- Hval, Hds, digits_val_app.
    by rewrite (digits_val_acc (String cb b') (digits_val 0 a)).
Qed.

Lemma strip_zeros_spec fuel : ∀ m e s e',
  0 < m → m < 2 ^ (Z.of_nat fuel + 1) →
  strip_zeros fuel m e = (s, e') →
  0 < s ∧ s mod 10 ≠ 0 ∧ e ≤ e' ∧ m = s * 10 ^ (e' - e).
Proof.
  induction fuel as [|fuel IH]; intros m e s e' Hm Hlt.
  - simpl in *. intros [= <- <-]. assert (m = 1) as -> by lia.
    rewrite Z.sub_diag. done.
  - cbn [strip_zeros].
    destruct (m =? 0) eqn:E0; [apply Z.eqb_eq in E0; lia|].
    destruct (m mod 10 =? 0) eqn:E10; simpl.
    + apply Z.eqb_eq in E10.
      pose proof (Z.div_mod m 10 ltac:(lia)) as Hdm.
      intros Hs. apply IH in Hs as (H1 & H2 & H3 & H4).
      * split; [done|]. split; [done|]. split; [lia|].
        replace (e' - e) with (Z.succ (e' - (e + 1))) by lia.
        rewrite Z.pow_succ_r by lia. lia.
      * lia.
      * rewrite Nat2Z.inj_succ in Hlt.
        replace (Z.succ (Z.of_nat fuel) + 1)
          with (Z.succ (Z.of_nat fuel + 1)) in Hlt by lia.
        rewrite Z.pow_succ_r in Hlt by lia. lia.
    + apply Z.eqb_neq in E10. intros [= <- <-].
      rewrite Z.sub_diag. simpl. lia.
Qed.

Lemma mod10_abs m : m mod 10 ≠ 0 → Z.abs m mod 10 ≠ 0.
Proof.
  intros H Habs. apply H.
  destruct (Z.abs_eq_or_opp m) as [E | E]; rewrite E in Habs; [done|].
  apply Z.mod_divide in Habs; [|lia]. apply Z.mod_divide; [lia|].
  by apply Z.divide_opp_r.
Qed.

(** [JSON.parse] reads the text of a number back as that number. *)
Lemma parse_number_text v rest :
  canonical_number v = true → ends_number rest →
  parse_number (toString v +:+ rest) = Some (v, rest).
Proof.
  destruct v as [| |b|n|m e|s|l|l|src]; try done; intros Hv Hrest.
  - simpl toString.
    destruct (Z.abs n <? 10 ^ 21) eqn:Hb.
    { apply Z.ltb_lt in Hb. by apply parse_number_integer. }
    apply Z.ltb_ge in Hb.
    unfold number_to_string. rewrite (proj2 (Z.ltb_ge _ _) Hb).
    simpl andb. cbv iota.
    destruct (strip_zeros _ (Z.abs n) 0) as [s e'] eqn:E.
    apply strip_zeros_spec in E as (H1 & H2 & H3 & H4); [|lia|].
    2:{ rewrite Z2Nat.id by apply Z.log2_nonneg.
        apply Z.log2_spec. lia. }
    rewrite app_assoc_str.
    rewrite (parse_positive (n <? 0) s e' rest H1 Hrest).
    f_equal. f_equal. unfold make_number.
    rewrite (proj2 (Z.leb_le 0 e') H3). rewrite Z.sub_0_r in H4.
    f_equal. destruct (n <? 0) eqn:Hn.
    + apply Z.ltb_lt in Hn. lia.
    + apply Z.ltb_ge in Hn. lia.
  - apply andb_true_iff in Hv as [He%Z.ltb_lt Hm%negb_true_iff%Z.eqb_neq].
    simpl toString. unfold number_to_string.
    assert (He0 : (e =? 0) = false) by (apply Z.eqb_neq; lia).
    rewrite He0. simpl andb. cbv iota.
    pose proof (mod10_abs m Hm) as Habs.
    assert (Hstrip : ∀ fuel, strip_zeros fuel (Z.abs m) e = (Z.abs m, e)).
    { intros [|fuel]; [done|]. cbn [strip_zeros].
      by rewrite (proj2 (Z.eqb_neq _ _) Habs), orb_true_r. }
    rewrite Hstrip, app_assoc_str.
    assert (Hpos : 0 < Z.abs m).
    { destruct (Z.eq_dec m 0) as [-> | ?]; [done|lia]. }
    rewrite (parse_positive (m <? 0) (Z.abs m) e rest Hpos Hrest).
    f_equal. f_equal.
    replace (if m <? 0 then - Z.abs m else Z.abs m) with m.
    2:{ destruct (m <? 0) eqn:Hn;
          [apply Z.ltb_lt in Hn | apply Z.ltb_ge in Hn]; lia. }
    unfold make_number. rewrite (proj2 (Z.leb_gt _ _) He).
    assert (Hfuel : ∃ f, Z.to_nat (- e) = S f).
    { exists (Z.to_nat (- e - 1)). lia. }
    destruct Hfuel as [f ->]. cbn [strip_zeros].
    rewrite (proj2 (Z.eqb_neq _ _) Hm), orb_true_r.
    rewrite He0, orb_false_r.
    assert (Hm0 : (m =? 0) = false).
    { apply Z.eqb_neq. by intros ->. }
    by rewrite Hm0.
Qed.

Lemma strip_zeros_stops fuel : ∀ m e m' e',
  strip_zeros fuel m e = (m', e') →
  e ≤ e' ≤ e + Z.of_nat fuel ∧
  (e' < e + Z.of_nat fuel → m' = 0 ∨ m' mod 10 ≠ 0).
Proof.
  induction fuel as [|fuel IH]; intros m e m' e'.
  - simpl. intros [= <- <-]. lia.
  - cbn [strip_zeros].
    destruct ((m =? 0) || negb (m mod 10 =? 0)) eqn:E.
    + intros [= <- <-]. split; [lia|]. intros _.
      apply orb_true_iff in E as [E%Z.eqb_eq | E%negb_true_iff%Z.eqb_neq];
        auto.
    + intros H%IH. lia.
Qed.

(** Every number that the parser builds has the canonical form. *)
Lemma make_number_canonical m e : canonical_number (make_number m e) = true.
Proof.
  unfold make_number. destruct (0 <=? e) eqn:He; [done|].
  apply Z.leb_gt in He.
  destruct (strip_zeros (Z.to_nat (- e)) m e) as [m' e'] eqn:E.
  apply strip_zeros_stops in E as [Hle Hstop].
  destruct (Z.eqb_spec m' 0) as [?|Hm]; [done|].
  destruct (Z.eqb_spec e' 0) as [?|He']; [done|].
  simpl. apply andb_true_iff. split; [apply Z.ltb_lt; lia|].
  apply negb_true_iff, Z.eqb_neq.
  destruct Hstop as [?|?]; [lia|done|done].
Qed.

(** The text of a number starts with a digit or with the minus sign. *)
Lemma parse_number_head c s r :
  parse_number (String c s) = Some r → is_digit c = true ∨ code c = 45%N.
Proof.
  unfold parse_number.
  destruct (N.eqb_spec (code c) 45) as [H45|H45]; [by right|].
  destruct (is_digit c); [by left|done].
Qed.

Lemma number_text_head v :
  canonical_number v = true →
  ∃ c s, toString v = String c s ∧ (is_digit c = true ∨ code c = 45%N).
Proof.
  intros Hv.
  pose proof (parse_number_text v "" Hv I) as H.
  rewrite app_nil_r_str in H.
  destruct (toString v) as [|c s]; [done|].
  exists c, s. split; [done|]. by eapply parse_number_head.
Qed.

Lemma stringify_json v : json_value v = true → is_Some (stringify v).
Proof. destruct v as [| |[]| | | | | |]; simpl; eauto; discriminate. Qed.

Lemma item_stringify v : json_value v = true → stringify v = Some (item v).
Proof. intros [s Hs]%stringify_json. unfold item. by rewrite Hs. Qed.

(** The text of a JSON value starts with a character that is neither
    white space nor a closing bracket or brace. *)
Lemma item_head v :
  json_value v = true → ∃ c s, item v = String c s ∧ starts_value c.
Proof.
  unfold item.
  destruct v as [| |[]|n|m e|s|l|l|]; cbn [json_value];
    try discriminate; intros Hv;
    try (eexists _, _; split; [reflexivity|]; by vm_compute).
  all: destruct (number_text_head _ Hv) as (c & s & Hs & Hc);
    cbn [stringify default toString] in Hs |- *; rewrite Hs;
    exists c, s; (split; [done|]); destruct Hc as [Hd|Hc];
    [by apply digit_starts_value
    |unfold starts_value, is_ws; rewrite Hc; by vm_compute].
Qed.

Lemma join_cons sep x y l :
  join sep (x :: y :: l) = x +:+ sep +:+ join sep (y :: l).
Proof. done. Qed.

Lemma sizes_length l :
  Forall parses l → forallb json_value l = true →
  (sizes l ≤ String.length (join "," (map item l)) + 1)%nat.
Proof.
  induction 1 as [|x l Hx Hl IH]; simpl; [lia|].
  intros [Hvx Hvl]%andb_true_iff.
  destruct (Hx _ (item_stringify _ Hvx)) as [Hlen _].
  destruct l as [|y l]; simpl in *.
  - rewrite string_length_app. simpl. lia.
  - specialize (IH Hvl). rewrite !string_length_app in *. simpl in *.
    rewrite !string_length_app. lia.
Qed.

Lemma skip_ws_join l t :
  forallb json_value l = true → l ≠ [] →
  skip_ws (join "," (map item l) +:+ t) = join "," (map item l) +:+ t.
Proof.
  destruct l as [|x l]; [done|]. intros [Hx _]%andb_true_iff _.
  destruct (item_head x Hx) as (c & s & Hs & Hws & _).
  simpl map. unfold join. rewrite Hs. simpl. by rewrite Hws.
Qed.

Lemma parse_elems_join l :
  Forall parses l → forallb json_value l = true → l ≠ [] →
  ∀ fuel rest, (sizes l ≤ fuel)%nat →
    parse_elems fuel (join "," (map item l) +:+ String "]" rest)
      = Some (l, rest).
Proof.
  induction 1 as [|x l Hx Hl IH]; [done|].
  intros [Hvx Hvl]%andb_true_iff _ fuel rest Hfuel.
  destruct (Hx _ (item_stringify _ Hvx)) as [_ Hparse].
  destruct fuel as [|fuel]; [simpl in Hfuel; lia|].
  simpl in Hfuel. cbn [parse_elems].
  destruct l as [|y l].
  - simpl map. unfold join. simpl fold_right.
    rewrite app_nil_r_str, Hparse by (simpl; lia || auto).
    done.
  - simpl map. rewrite join_cons, app_assoc_str, app_assoc_str.
    rewrite Hparse by (simpl; lia || auto).
    change (item y :: map item l) with (map item (y :: l)).
    remember (join "," (map item (y :: l))) as J eqn:HJ.
    simpl. subst J.
    rewrite skip_ws_join, IH; [done|done|done| |done|done].
    fold (sizes (y :: l)) in Hfuel. lia.
Qed.

Lemma member_unfold kv t :
  member kv +:+ t
    = String dquote (escape kv.1 +:+
        String dquote (String ":" (item kv.2 +:+ t))).
Proof.
  unfold member, quote. simpl. f_equal.
  by rewrite !app_assoc_str.
Qed.

Lemma skip_ws_item v t :
  json_value v = true → skip_ws (item v +:+ t) = item v +:+ t.
Proof.
  intros Hv. destruct (item_head v Hv) as (c & s & -> & Hws & _).
  simpl. by rewrite Hws.
Qed.

Lemma skip_ws_members l t :
  l ≠ [] →
  skip_ws (join "," (map member l) +:+ t) = join "," (map member l) +:+ t.
Proof. by destruct l as [|kv l]. Qed.

Lemma member_sizes_length l :
  Forall (λ kv, parses kv.2) l →
  forallb (λ kv : string * jsval, json_value kv.2) l = true →
  (member_sizes l ≤ String.length (join "," (map member l)) + 1)%nat.
Proof.
  induction 1 as [|kv l Hx Hl IH]; [simpl; lia|].
  intros [Hvx Hvl]%andb_true_iff.
  destruct (Hx _ (item_stringify _ Hvx)) as [Hlen _].
  assert (Hm : (weight kv.2 < String.length (member kv))%nat).
  { unfold member, quote. cbn [String.length].
    rewrite !string_length_app. cbn [String.length]. lia. }
  specialize (IH Hvl). clear Hlen Hx.
  unfold member_sizes in *. cbn [fold_right map].
  destruct l as [|y l].
  - unfold join. cbn [fold_right map].
    rewrite string_length_app. cbn [String.length]. lia.
  - cbn [map] in *. rewrite join_cons, !string_length_app.
    cbn [String.length]. lia.
Qed.

Lemma expect_same c t : expect c (String c t) = Some t.
Proof. unfold expect. by rewrite N.eqb_refl. Qed.

Lemma expect_other c c' t :
  code c' ≠ code c → expect c (String c' t) = None.
Proof. unfold expect. by intros ?%N.eqb_neq; case_match. Qed.

Lemma skip_ws_colon t : skip_ws (String ":" t) = String ":" t.
Proof. done. Qed.

Lemma parse_members_join l :
  Forall (λ kv, parses kv.2) l →
  forallb (λ kv : string * jsval, json_value kv.2) l = true → l ≠ [] →
  ∀ fuel rest, (member_sizes l ≤ fuel)%nat →
    parse_members fuel (join "," (map member l) +:+ String "}" rest)
      = Some (l, rest).
Proof.
  induction 1 as [|[k v] l Hx Hl IH]; [done|].
  intros [Hvx Hvl]%andb_true_iff _ fuel rest Hfuel.
  destruct (Hx _ (item_stringify _ Hvx)) as [_ Hparse].
  simpl in Hvx, Hparse.
  destruct fuel as [|fuel]; [simpl in Hfuel; lia|].
  simpl in Hfuel. cbn [parse_members].
  destruct l as [|y l].
  - simpl map. unfold join. simpl fold_right.
    rewrite app_nil_r_str, member_unfold, expect_same. cbn [fst snd].
    cbn [mbind option_bind].
    rewrite parse_chars_escape. cbn [mbind option_bind].
    rewrite skip_ws_colon, expect_same. cbn [mbind option_bind].
    rewrite skip_ws_item, Hparse by (simpl; lia || auto). done.
  - simpl map. rewrite join_cons, app_assoc_str, app_assoc_str.
    rewrite member_unfold, expect_same. cbn [fst snd].
    cbn [mbind option_bind].
    rewrite parse_chars_escape. cbn [mbind option_bind].
    rewrite skip_ws_colon, expect_same. cbn [mbind option_bind].
    rewrite skip_ws_item, Hparse by (simpl; lia || auto).
    change (member y :: map member l) with (map member (y :: l)).
    remember (join "," (map member (y :: l))) as J eqn:HJ.
    simpl. subst J.
    rewrite skip_ws_members, IH; [done|done|done| |done].
    fold (member_sizes (y :: l)) in Hfuel. lia.
Qed.

Lemma obj_set_fresh k v acc :
  k ∉ acc.*1 → obj_set k v acc = acc ++ [(k, v)].
Proof.
  induction acc as [|[k' v'] acc IH]; simpl; [done|].
  intros [Hne Hnot]%not_elem_of_cons.
  destruct (String.eqb_spec k k'); [done|]. by rewrite IH.
Qed.

Lemma obj_of_members_app ms : ∀ acc,
  NoDup ((acc ++ ms).*1) →
  fold_left (λ o kv, obj_set kv.1 kv.2 o) ms acc = acc ++ ms.
Proof.
  induction ms as [|[k v] ms IH]; intros acc Hnd; simpl.
  - by rewrite app_nil_r.
  - rewrite obj_set_fresh.
    + rewrite IH; [by rewrite <- app_assoc|].
      by rewrite <- app_assoc.
    + rewrite fmap_app in Hnd. apply NoDup_app in Hnd as (_ & Hdis & _).
      intros Hin. apply (Hdis _ Hin). simpl. by left.
Qed.

Lemma obj_of_members_nodup ms : NoDup (ms.*1) → obj_of_members ms = ms.
Proof. intros Hnd. unfold obj_of_members. by rewrite obj_of_members_app. Qed.

Lemma omap_cons {A B} (f : A → option B) x l :
  omap f (x :: l)
    = match f x with Some y => y :: omap f l | None => omap f l end.
Proof. done. Qed.

Lemma stringify_members l :
  forallb (λ kv : string * jsval, json_value kv.2) l = true →
  omap (λ kv : string * jsval,
          match stringify kv.2 with
          | Some s => Some (quote kv.1 +:+ ":" +:+ s)
          | None => None
          end) l = map member l.
Proof.
  induction l as [|kv l IH]; [done|].
  intros [Hv Hl]%andb_true_iff. specialize (IH Hl).
  rewrite omap_cons, (item_stringify _ Hv), IH. done.
Qed.

Lemma stringify_elems l :
  map (λ x, default "null" (stringify x)) l = map item l.
Proof. done. Qed.

(** Every JSON value is read back from its text, whatever closes the
    value in the surrounding text, by a parser with enough fuel. *)
Lemma parse_value_stringify v : json_value v = true → parses v.
Proof.
  induction v as [| |b|n|m e|s0|l IH|l IH|src] using jsval_ind;
    intros Hv; try discriminate; intros s Hs.
  - injection Hs as <-. split; [simpl; lia|].
    intros [|fuel] rest Hf _; [simpl in Hf; lia|done].
  - destruct b; injection Hs as <-; (split; [simpl; lia|]);
      intros [|fuel] rest Hf _; (simpl in Hf; lia) || done.
  - injection Hs as <-. cbn [json_value] in Hv.
    destruct (number_text_head _ Hv) as (c & s & Hs & Hc).
    cbn [toString] in Hs.
    split; [rewrite Hs; simpl; lia|].
    intros [|fuel] rest Hf Hrest; [simpl in Hf; lia|].
    rewrite <- (parse_number_text _ rest Hv (closes_ends_number _ Hrest)).
    cbn [toString]. rewrite Hs. simpl String.append. cbn [parse_value].
    assert (Hcode : (48 ≤ code c ≤ 57)%N ∨ code c = 45%N).
    { destruct Hc as [Hd|Hd]; [left|by right].
      unfold is_digit in Hd. apply andb_true_iff in Hd as [H1 H2].
      apply N.leb_le in H1, H2. lia. }
    repeat match goal with
           | |- context [(code c =? ?k)%N] =>
               destruct (N.eqb_spec (code c) k); [lia|]
           end.
    done.
  - injection Hs as <-. cbn [json_value] in Hv.
    destruct (number_text_head _ Hv) as (c & s & Hs & Hc).
    cbn [toString] in Hs.
    split; [rewrite Hs; simpl; lia|].
    intros [|fuel] rest Hf Hrest; [simpl in Hf; lia|].
    rewrite <- (parse_number_text _ rest Hv (closes_ends_number _ Hrest)).
    cbn [toString]. rewrite Hs. simpl String.append. cbn [parse_value].
    assert (Hcode : (48 ≤ code c ≤ 57)%N ∨ code c = 45%N).
    { destruct Hc as [Hd|Hd]; [left|by right].
      unfold is_digit in Hd. apply andb_true_iff in Hd as [H1 H2].
      apply N.leb_le in H1, H2. lia. }
    repeat match goal with
           | |- context [(code c =? ?k)%N] =>
               destruct (N.eqb_spec (code c) k); [lia|]
           end.
    done.
  - injection Hs as <-. split; [simpl; lia|].
    intros [|fuel] rest Hf _; [simpl in Hf; lia|].
    unfold quote. simpl String.append. cbn [parse_value].
    change (code dquote =? 91)%N with false.
    change (code dquote =? 123)%N with false.
    change (code dquote =? 34)%N with true. cbv iota.
    rewrite app_assoc_str. simpl (String dquote "" +:+ rest).
    by rewrite parse_chars_escape.
  - simpl in Hv, Hs. injection Hs as <-.
    assert (Hl : Forall parses l).
    { apply Forall_forall. intros x Hx.
      rewrite Forall_forall in IH. apply IH; [done|].
      rewrite forallb_forall in Hv. apply Hv. by apply list_elem_of_In. }
    rewrite stringify_elems. split.
    { pose proof (sizes_length l Hl Hv) as Hlen.
      simpl. rewrite string_length_app. simpl. fold (sizes l). lia. }
    intros [|fuel] rest Hf _; [simpl in Hf; lia|].
    simpl in Hf. fold (sizes l) in Hf.
    simpl String.append. cbn [parse_value].
    change (code "[" =? 91)%N with true. cbv iota.
    rewrite app_assoc_str. simpl ("]" +:+ rest).
    destruct l as [|x l]; [done|].
    rewrite skip_ws_join by done.
    assert (Hne : expect "]" (join "," (map item (x :: l))
                               +:+ String "]" rest) = None).
    { apply andb_true_iff in Hv as [Hx _].
      destruct (item_head x Hx) as (c & s & Hs & _ & Hc & _).
      simpl map. unfold join. rewrite Hs. cbn [String.append].
      apply expect_other. exact Hc. }
    rewrite Hne, parse_elems_join by (done || lia). done.
  - simpl in Hv, Hs. injection Hs as <-.
    apply andb_true_iff in Hv as [Hv Hnd]. apply bool_decide_eq_true in Hnd.
    assert (Hl : Forall (λ kv, parses kv.2) l).
    { apply Forall_forall. intros x Hx.
      rewrite Forall_forall in IH. apply IH; [done|].
      rewrite forallb_forall in Hv. apply Hv. by apply list_elem_of_In. }
    rewrite stringify_members by done. split.
    { pose proof (member_sizes_length l Hl Hv) as Hlen.
      simpl. rewrite string_length_app. simpl. fold (member_sizes l). lia. }
    intros [|fuel] rest Hf _; [simpl in Hf; lia|].
    simpl in Hf. fold (member_sizes l) in Hf.
    simpl String.append. cbn [parse_value].
    change (code "{" =? 91)%N with false.
    change (code "{" =? 123)%N with true. cbv iota.
    rewrite app_assoc_str. simpl ("}" +:+ rest).
    destruct l as [|x l]; [done|].
    rewrite skip_ws_members by done.
    assert (Hne : expect "}" (join "," (map member (x :: l))
                               +:+ String "}" rest) = None) by done.
    rewrite Hne, parse_members_join by (done || lia).
    simpl. by rewrite obj_of_members_nodup.
Qed.

(** [JSON.parse] undoes [JSON.stringify] on every JSON value. *)
Lemma JSON_parse_stringify v s :
  json_value v = true → stringify v = Some s → JSON_parse s = Some v.
Proof.
  intros Hv Hs.
  destruct (parse_value_stringify v Hv s Hs) as [Hlen Hparse].
  pose proof (item_stringify v Hv) as Hitem.
  rewrite Hs in Hitem. injection Hitem as ->.
  unfold JSON_parse.
  rewrite <- (app_nil_r_str (item v)) at 2.
  rewrite skip_ws_item by done.
  rewrite Hparse by (done || lia). done.
Qed.


Lemma decode_string_raw s : JSON_parse s = None → decode (JStr s) = JStr s.
Proof. unfold decode; simpl. by intros ->. Qed.

Lemma decode_string_json s v : JSON_parse s = Some v → decode (JStr s) = v.
Proof. unfold decode; simpl. by intros ->. Qed.

Lemma decode_number v :
  typeof v = TNumber → canonical_number v = true → decode v = v.
Proof.
  intros Ht Hv.
  assert (Hs : stringify v = Some (toString v)) by (by destruct v).
  assert (Hj : json_value v = true) by (by destruct v).
  assert (Hd : decode v = default v (JSON_parse (toString v))).
  { destruct v; try done; unfold decode; simpl;
      by destruct (JSON_parse _). }
  by rewrite Hd, (JSON_parse_stringify v _ Hj Hs).
Qed.

Lemma decode_boolean b : decode (JBool b) = JBool b.
Proof. by destruct b. Qed.

(** C6 (as the code has it): the value read back from the cache is the
    value that was stored, for [null], booleans, numbers (integers and
    non-integers alike), arrays and objects of JSON values, and for the
    strings that are not themselves a JSON text. *)
Theorem decode_encode v :
  representable v = true → decode (JStr (encode v)) = v.
Proof.
  intros Hv. destruct v as [| |b|n|m e|s|l|l|src]; try discriminate.
  - done.
  - by destruct b.
  - apply decode_string_json.
    by apply (JSON_parse_stringify (JNum n)).
  - apply decode_string_json.
    by apply (JSON_parse_stringify (JDec m e)).
  - simpl in Hv. apply decode_string_raw. by destruct (JSON_parse s).
  - apply decode_string_json. unfold encode. simpl typeof. cbv iota.
    destruct (stringify_json (JArr l) Hv) as [s Hs]. rewrite Hs. simpl.
    by apply (JSON_parse_stringify (JArr l)).
  - apply decode_string_json. unfold encode. simpl typeof. cbv iota.
    destruct (stringify_json (JObj l) Hv) as [s Hs]. rewrite Hs. simpl.
    by apply (JSON_parse_stringify (JObj l)).
Qed.

Lemma decode_encode_witness :
  let v := JObj [("price", JDec 999 (-2));
                 ("n", JNum 9007199254740992);
                 ("tags", JArr [JStr "a"; JNull; JBool true; JDec 15 (-1);
                                JDec (-5) (-1); JNum (10 ^ 21)])] in
  decode (JStr (encode v)) = v.
Proof. intros v. apply (decode_encode v). reflexivity. Defined.

(** C6 (as the spec has it) fails on the plain strings that happen to be
    JSON texts: the string ["12"] is stored as [12] and read back as the
    number 12, the string ["null"] as [null]. *)
Lemma decode_encode_string_changes :
  encode (JStr "12") = "12" ∧
  decode (JStr (encode (JStr "12"))) = JNum 12 ∧
  decode (JStr (encode (JStr "12"))) ≠ JStr "12" ∧
  decode (JStr (encode (JStr "null"))) = JNull.
Proof.
  split; [reflexivity|]. split; [vm_compute; reflexivity|].
  split; [vm_compute; discriminate | vm_compute; reflexivity].
Qed.




(* ===================================================================== *)
(** ** Further properties: frames and invariants of the event loop *)
(* ===================================================================== *)

Lemma exec_frame c ks k : key_of c ≠ k → (exec c ks).2 !! k = ks !! k.
Proof.
  destruct c; simpl; intros Hk; repeat case_match; simpl;
    try done; by rewrite ?lookup_insert_ne, ?lookup_delete_ne.
Qed.

Lemma exec_agree c ks1 ks2 k :
  ks1 !! k = ks2 !! k → (exec c ks1).2 !! k = (exec c ks2).2 !! k.
Proof.
  intros H. destruct (decide (key_of c = k)) as [<-|Hne];
    [|by rewrite !exec_frame].
  destruct c as [k|k v|k v px|k v px|k]; simpl in *.
  - done.
  - by rewrite !lookup_insert_eq.
  - destruct (0 <? px); simpl; [by rewrite !lookup_insert_eq | done].
  - destruct (0 <? px); simpl; [|done].
    destruct (ks1 !! k) eqn:E1, (ks2 !! k) eqn:E2; simpl;
      rewrite ?lookup_insert_eq; congruence.
  - by rewrite !lookup_delete_eq.
Qed.

Lemma run_others_agree cs : ∀ ks1 ks2 k,
  ks1 !! k = ks2 !! k → run_others cs ks1 !! k = run_others cs ks2 !! k.
Proof.
  induction cs as [|c cs IH]; intros ks1 ks2 k H; simpl; [done|].
  by apply IH, exec_agree.
Qed.

Lemma run_others_frame cs : ∀ ks k,
  Forall (λ c, key_of c ≠ k) cs → run_others cs ks !! k = ks !! k.
Proof.
  induction cs as [|c cs IH]; intros ks k H; simpl; [done|].
  apply Forall_cons in H as [Hc H]. rewrite IH by done. by apply exec_frame.
Qed.

Lemma send_frame c w r w' k :
  send c w = (r, w') → key_of c ≠ k → keyspace w' !! k = keyspace w !! k.
Proof.
  unfold send. intros H Hk.
  destruct (faults w) as [|[e|] fs];
    try (by injection H as <- <-);
    destruct (exec c (keyspace w)) as [r0 ks] eqn:E; injection H as <- <-;
    simpl; change ks with (r0, ks).2; rewrite <- E; by apply exec_frame.
Qed.

Section Frame.

Variables (lock : string) (timeout : Z) (write : command).

Local Abbreviation own := (own_event lock timeout write).
Local Abbreviation off := (agree_off (key_of write) lock).
Local Abbreviation own_step := (own_step lock timeout write).

Lemma own_step_refl w : own_step w w.
Proof. split; [|done]. exists []. by rewrite app_nil_r. Qed.

Lemma own_step_send c w r w' :
  own (Sent c) → key_of c = key_of write ∨ key_of c = lock →
  send c w = (r, w') → own_step w w'.
Proof.
  intros Hown Hkey E. split.
  - exists [Sent c]. split; [by eapply send_issued|]. by apply Forall_singleton.
  - intros k' H1 H2. eapply send_frame; [done|]. destruct Hkey; congruence.
Qed.

Lemma own_step_resolve st s w s' w' :
  resolve write st s w = (s', w') → own_step w w'.
Proof.
  unfold resolve.
  destruct (c_lock s); try (intros [= <- <-]; apply own_step_refl).
  destruct (send write w) as [r w1] eqn:E. intros [= <- <-].
  eapply own_step_send; [| |done]; [right; by left|by left].
Qed.

Lemma own_step_acquireLock ns s w s' w' :
  acquireLock lock timeout ns s w = (s', w') → own_step w w'.
Proof.
  unfold acquireLock. destruct (_ <? _).
  - intros [= <- <-]. apply own_step_refl.
  - destruct (send _ w) as [r w1] eqn:E. intros [= <- <-].
    eapply own_step_send; [| |done]; [by left|by right].
Qed.

Lemma own_step_deliver s w s' w' :
  deliver lock write s w = (s', w') → own_step w w'.
Proof.
  unfold deliver. destruct (c_inflight s) as [|[cb r] fl].
  { intros [= <- <-]. apply own_step_refl. }
  destruct cb as [e|st|st], r as [err|r];
    try (intros [= <- <-]; apply own_step_refl).
  - destruct r; try (intros [= <- <-]; apply own_step_refl);
      apply own_step_resolve.
  - destruct (send (DEL lock) w) as [r' w1] eqn:E. intros [= <- <-].
    eapply own_step_send; [| |done]; [right; by right|by right].
Qed.

(** A call of [set] sends nothing but its three commands, and a key that
    is neither the entry nor the lock is what the other clients alone
    would have made it. *)
Lemma run_call_frame evs : ∀ s w s' w' ks,
  off (keyspace w) ks →
  run_call lock timeout write evs s w = (s', w') →
  (∃ new, issued w' = issued w ++ new ∧ Forall own new) ∧
  off (keyspace w') (run_others (others_of evs) ks).
Proof.
  induction evs as [|e evs IH]; intros s w s' w' ks Hoff; simpl.
  - intros [= <- <-]. split; [|done]. exists []. by rewrite app_nil_r.
  - destruct (step_call lock timeout write e s w) as [s1 w1] eqn:E.
    intros Hrun.
    assert (Hown : ∀ ks', ks' = run_others (others_of (e :: evs)) ks →
              own_step w w1 → others_of (e :: evs) = others_of evs →
              (∃ new, issued w' = issued w ++ new ∧ Forall own new) ∧
              off (keyspace w') ks').
    { intros ks' -> [(n1 & E1 & F1) A1] ->.
      destruct (IH s1 w1 s' w' ks) as [(n2 & E2 & F2) A2]; [|done|].
      { intros k' H1 H2. by rewrite A1, Hoff. }
      split; [|done]. exists (n1 ++ n2). rewrite E2, E1, app_assoc.
      split; [done|]. by apply Forall_app. }
    destruct e as [ns| |cs]; simpl in E.
    + apply (Hown _ eq_refl); [|done]. destruct (c_loop s).
      * destruct (acquireLock lock timeout ns s w) as [s2 w2] eqn:E2.
        injection E as <- <-. by eapply own_step_acquireLock.
      * by eapply own_step_acquireLock.
      * injection E as <- <-. apply own_step_refl.
    + apply (Hown _ eq_refl); [|done]. by eapply own_step_deliver.
    + injection E as <- <-. simpl. rewrite run_others_app.
      apply (IH s (interfere cs w) s' w'); [|done].
      intros k' H1 H2. simpl. apply run_others_agree. by apply Hoff.
Qed.

End Frame.

Lemma send_held lock v px w r w' :
  is_Some (keyspace w !! lock) →
  send (SET_NX_PX lock v px) w = (r, w') →
  keyspace w' = keyspace w ∧ ((∃ err, r = inl err) ∨ r = inr Nil).
Proof.
  intros [en Hen]. unfold send.
  destruct (faults w) as [|[e|] fs]; simpl; rewrite ?Hen;
    destruct (0 <? px); intros [= <- <-]; simpl; eauto.
Qed.

Section Excluded.

Variables (lock : string) (timeout : Z) (write : command).

Local Abbreviation attempt := (Sent (SET_NX_PX lock "1" (timeout + 500))).

Lemma waiting_clearInterval s : waiting s → waiting (clearInterval s).
Proof. unfold clearInterval. by destruct (c_loop s). Qed.

Lemma waiting_reject e s : waiting s → waiting (reject e s).
Proof.
  unfold reject, waiting. destruct s as [a l lk res fl]; simpl.
  intros (H1 & H2 & H3). by destruct lk.
Qed.

Lemma waiting_acquireLock ns s w s' w' :
  waiting s → is_Some (keyspace w !! lock) →
  acquireLock lock timeout ns s w = (s', w') →
  waiting s' ∧ keyspace w' = keyspace w ∧
  ∃ n, (n ≤ 1)%nat ∧ issued w' = issued w ++ replicate n attempt.
Proof.
  intros Hs Hheld. unfold acquireLock. destruct (_ <? _).
  - intros [= <- <-]. split; [|split; [done|]].
    + by apply waiting_reject, waiting_clearInterval.
    + exists 0%nat. split; [lia|]. simpl. by rewrite app_nil_r.
  - destruct (send _ w) as [r w1] eqn:E. intros [= <- <-].
    pose proof (send_issued _ _ _ _ E) as Hi.
    apply (send_held _ _ _ _ _ _ Hheld) in E as [Hks Hr].
    split; [|split; [done|exists 1%nat; split; [lia|done]]].
    destruct Hs as (H1 & H2 & H3). split; [done|]. split; [done|].
    simpl. apply Forall_app. split; [done|]. apply Forall_singleton.
    by destruct Hr as [[err ->]| ->].
Qed.

Lemma waiting_deliver s w s' w' :
  waiting s → deliver lock write s w = (s', w') → waiting s' ∧ w' = w.
Proof.
  unfold deliver. destruct s as [a l lk res [|[cb r] fl]]; simpl.
  { by intros ? [= <- <-]. }
  intros (H1 & H2 & H3). simpl in *.
  apply Forall_cons in H3 as [Hx H3].
  destruct cb as [e|st|st]; try done. destruct r as [err|[]]; try done.
  - intros [= <- <-]. split; [|done].
    by apply waiting_reject, (waiting_clearInterval (Call _ _ _ _ _)).
  - by intros [= <- <-].
Qed.

(** As long as the lock is held by somebody else at each run of
    [acquireLock], the call never gets past its conditional sets. *)
Lemma run_call_excluded evs : ∀ s w s' w',
  waiting s →
  held lock evs (keyspace w) →
  run_call lock timeout write evs s w = (s', w') →
  waiting s' ∧
  keyspace w' = run_others (others_of evs) (keyspace w) ∧
  ∃ n, (n ≤ runs evs)%nat ∧ issued w' = issued w ++ replicate n attempt.
Proof.
  induction evs as [|e evs IH]; intros s w s' w' Hs Hheld; simpl.
  - intros [= <- <-]. split; [done|]. split; [done|].
    exists 0%nat. split; [lia|]. simpl. by rewrite app_nil_r.
  - destruct (step_call lock timeout write e s w) as [s1 w1] eqn:E.
    intros Hrun. destruct e as [ns| |cs]; simpl in E, Hheld.
    + destruct Hheld as [Hlock Hheld].
      assert (Hstep : waiting s1 ∧ keyspace w1 = keyspace w ∧
                ∃ n, (n ≤ 1)%nat ∧ issued w1 = issued w ++ replicate n attempt).
      { destruct (c_loop s).
        - destruct (acquireLock lock timeout ns s w) as [s2 w2] eqn:E2.
          injection E as <- <-.
          by apply (waiting_acquireLock _ _ _ _ _ Hs Hlock) in E2.
        - by apply (waiting_acquireLock _ _ _ _ _ Hs Hlock) in E.
        - injection E as <- <-. split; [done|]. split; [done|].
          exists 0%nat. split; [lia|]. simpl. by rewrite app_nil_r. }
      destruct Hstep as (Hs1 & Hks & n1 & Hn1 & Hi1).
      destruct (IH s1 w1 s' w' Hs1) as (Hs' & Hks' & n2 & Hn2 & Hi2);
        [by rewrite Hks|done|].
      split; [done|]. split; [by rewrite Hks', Hks|].
      exists (n1 + n2)%nat. split; [lia|].
      by rewrite Hi2, Hi1, replicate_add, app_assoc.
    + apply (waiting_deliver _ _ _ _ Hs) in E as [Hs1 ->].
      by apply (IH s1 w s' w').
    + injection E as <- <-. rewrite run_others_app.
      by apply (IH s (interfere cs w) s' w').
Qed.

End Excluded.

Lemma key_of_write_command c key value ttl :
  key_of (write_command c key value ttl) = entry_key c key.
Proof. unfold write_command. by destruct (0 <? _). Qed.

Lemma loop_step lock timeout write e s w s' w' :
  loop_invariant s →
  step_call lock timeout write e s w = (s', w') → loop_invariant s'.
Proof.
  unfold loop_invariant. intros [H1 H2].
  destruct e as [ns| |cs]; simpl.
  - unfold acquireLock, reject, clearInterval.
    destruct s as [a l lk res fl]; simpl in *.
    destruct l.
    + specialize (H1 eq_refl). injection H1 as -> -> -> ->.
      destruct (_ <? _); simpl.
      * intros [= <- <-]. simpl. split; [done|]. by intros [st ?].
      * destruct (send _ w) as [r w1]. intros [= <- <-]. simpl.
        split; [done|]. by intros [st ?].
    + destruct (_ <? _); simpl.
      * intros [= <- <-]. destruct lk; simpl; split; try done;
          intros [st ?]; done.
      * destruct (send _ w) as [r w1]. intros [= <- <-]. simpl.
        split; [done|]. done.
    + by intros [= <- <-].
  - unfold deliver. destruct s as [a l lk res [|[cb r] fl]]; simpl in *.
    { by intros [= <- <-]. }
    assert (Hl : l ≠ NoInterval) by (intros ->; by specialize (H1 eq_refl)).
    destruct cb as [el|st|st].
    + destruct r as [err|r].
      * unfold reject, clearInterval; simpl.
        intros [= <- <-]. destruct l, lk; simpl; split; try done;
          intros [st ?]; try done.
      * unfold resolve, clearInterval; simpl.
        destruct r; try (by intros [= <- <-]);
          destruct l, lk; simpl; try done;
          try (by intros [= <- <-]);
          destruct (send write w) as [r' w1]; by intros [= <- <-].
    + destruct r as [err|r]; [by intros [= <- <-]|].
      destruct (send _ w) as [r' w1]. by intros [= <- <-].
    + destruct r as [err|r]; by intros [= <- <-].
  - by intros [= <- <-].
Qed.

Lemma loop_run lock timeout write evs : ∀ s w s' w',
  loop_invariant s →
  run_call lock timeout write evs s w = (s', w') → loop_invariant s'.
Proof.
  induction evs as [|e evs IH]; intros s w s' w' Hinv; simpl.
  - by intros [= <- <-].
  - destruct (step_call lock timeout write e s w) as [s1 w1] eqn:E.
    apply (loop_step _ _ _ _ _ _ _ _ Hinv) in E. by apply IH.
Qed.

Lemma loop_new : loop_invariant new_call.
Proof. split; [done|]. by intros [st ?]. Qed.

Section Stored.

Variables (lock : string) (timeout : Z) (write : command).
Variables (k : string) (e : entry).

Hypothesis write_stores : ∀ ks, exec write ks = (inr Ok, <[k := e]> ks).
Hypothesis entry_not_lock : k ≠ lock.

Local Abbreviation kept := (stored k e).

Lemma send_write_reply w r w' :
  send write w = (inr r, w') → keyspace w' !! k = Some e.
Proof.
  intros (E & _)%send_reply. rewrite write_stores in E.
  injection E as _ <-. apply lookup_insert_eq.
Qed.

Lemma send_write_kept w r w' :
  keyspace w !! k = Some e → send write w = (r, w') →
  keyspace w' !! k = Some e.
Proof.
  intros Hk E. destruct r as [err|r].
  - apply send_error in E as (-> & _). done.
  - by eapply send_write_reply.
Qed.

Lemma stored_reject err s w : kept s w → kept (reject err s) w.
Proof.
  unfold stored, reject. destruct s as [a l lk res fl]; simpl.
  destruct lk; try done. intros H [[st ?]|Hex]; [done|]. apply H. by right.
Qed.

Lemma stored_clearInterval s w : kept s w → kept (clearInterval s) w.
Proof. unfold clearInterval. by destruct (c_loop s). Qed.

Lemma stored_resolve st s w s' w' :
  kept s w → resolve write st s w = (s', w') → kept s' w'.
Proof.
  unfold stored, resolve. destruct s as [a l lk res fl]; simpl.
  destruct lk; try (by intros ? [= <- <-]).
  intros H. destruct (send write w) as [r w1] eqn:E. intros [= <- <-].
  simpl. intros [Hres|Hex].
  - eapply send_write_kept; [|done]. apply H. by left.
  - apply Exists_app in Hex as [Hex|Hex].
    + eapply send_write_kept; [|done]. apply H. by right.
    + apply Exists_cons in Hex as [Hx|Hx%Exists_nil]; [|done].
      destruct r as [err|r]; [done|]. by eapply send_write_reply.
Qed.

Lemma stored_acquireLock ns s w s' w' :
  kept s w → acquireLock lock timeout ns s w = (s', w') → kept s' w'.
Proof.
  unfold acquireLock. intros H. destruct (_ <? _).
  - intros [= <- <-]. by apply stored_reject, stored_clearInterval.
  - destruct (send _ w) as [r w1] eqn:E. intros [= <- <-].
    unfold stored in *. simpl.
    rewrite (send_frame _ _ _ _ k E) by (simpl; congruence).
    intros [Hres|Hex]; apply H; [by left|].
    apply Exists_app in Hex as [Hex|Hex]; [by right|].
    by apply Exists_cons in Hex as [Hx|Hx%Exists_nil].
Qed.

Lemma stored_deliver s w s' w' :
  kept s w → deliver lock write s w = (s', w') → kept s' w'.
Proof.
  unfold deliver. destruct s as [a l lk res [|[cb r] fl]]; simpl.
  { by intros ? [= <- <-]. }
  intros H.
  assert (Hrest : kept (Call a l lk res fl) w).
  { intros [Hres|Hex]; apply H; [by left|]. right. by apply Exists_cons_tl. }
  assert (Hhead : entry_written (cb, r) → keyspace w !! k = Some e).
  { intros Hx. apply H. right. by apply Exists_cons_hd. }
  destruct cb as [el|st|st].
  - destruct r as [err|r].
    + intros [= <- <-].
      by apply stored_reject, (stored_clearInterval (Call _ _ _ _ _)).
    + destruct r; try (by intros [= <- <-]);
        apply stored_resolve;
        by apply (stored_clearInterval (Call _ _ _ _ _)).
  - destruct r as [err|r].
    + intros [= <- <-]. intros [[st' Hres]|Hex]; [done|].
      apply Hrest. by right.
    + destruct (send (DEL lock) w) as [r' w1] eqn:E. intros [= <- <-].
      intros _. rewrite (send_frame _ _ _ _ k E) by (simpl; congruence).
      by apply Hhead.
  - destruct r as [err|r]; intros [= <- <-]; intros _; by apply Hhead.
Qed.

Lemma run_call_stored evs : ∀ s w s' w',
  quiet k evs → kept s w →
  run_call lock timeout write evs s w = (s', w') → kept s' w'.
Proof.
  induction evs as [|ev evs IH]; intros s w s' w' Hq H; simpl.
  - by intros [= <- <-].
  - destruct (step_call lock timeout write ev s w) as [s1 w1] eqn:E.
    destruct ev as [ns| |cs]; simpl in E.
    + apply (IH s1 w1); [done|]. destruct (c_loop s).
      * destruct (acquireLock lock timeout ns s w) as [s2 w2] eqn:E2.
        injection E as <- <-.
        by apply (stored_acquireLock _ _ _ _ _ H) in E2.
      * by apply (stored_acquireLock _ _ _ _ _ H) in E.
      * by injection E as <- <-.
    + apply (IH s1 w1); [done|]. by apply (stored_deliver _ _ _ _ H) in E.
    + injection E as <- <-. unfold quiet in Hq. simpl in Hq.
      apply Forall_app in Hq as [Hcs Hq].
      apply (IH s (interfere cs w)); [done|].
      intros Hp. simpl. rewrite run_others_frame by done. by apply H.
Qed.

End Stored.

Section Released.

Variables (lock : string) (timeout : Z) (write : command) (before : nat).

Local Abbreviation free := (released lock).
Local Abbreviation Inv := (call_invariant lock write before).

Lemma lock_deleted_second_phase x : lock_deleted x → second_phase x.
Proof. by destruct x as [[] []]. Qed.

(** Past the release nothing of the call is left to run. *)
Lemma released_cleared s w :
  Inv s w → loop_invariant s →
  (∃ st, c_result s = Resolved st) ∨ Exists lock_deleted (c_inflight s) →
  c_loop s = Cleared ∧ ∃ st, c_lock s = Resolved st.
Proof.
  intros (_ & _ & H2 & _) [_ L2] Hp.
  assert (Hlk : ∃ st, c_lock s = Resolved st).
  { apply H2. destruct Hp as [?|Hex]; [by left|right].
    eapply Exists_impl; [done|]. apply lock_deleted_second_phase. }
  split; [by apply L2 | done].
Qed.

Lemma send_del w r w' :
  send (DEL lock) w = (r, w') →
  keyspace w' !! lock = None ∨
  (∃ err, r = inl err) ∧ keyspace w' = keyspace w.
Proof.
  intros E. destruct r as [err|r].
  - apply send_error in E as (-> & _). right. eauto.
  - apply send_reply in E as (E & _). simpl in E. injection E as _ <-.
    left. apply lookup_delete_eq.
Qed.

Lemma released_acquireLock ns s w s' w' :
  acquireLock lock timeout ns s w = (s', w') →
  (∃ st, c_result s' = Resolved st) ∨ Exists lock_deleted (c_inflight s') →
  (∃ st, c_result s = Resolved st) ∨ Exists lock_deleted (c_inflight s).
Proof.
  unfold acquireLock, reject, clearInterval.
  destruct s as [a l lk res fl]; simpl. destruct (_ <? _).
  - intros [= <- <-].
    destruct l, lk; simpl; try done; intros [[st ?]|?]; try done; by right.
  - destruct (send _ w) as [r w2]. intros [= <- <-]. simpl.
    intros [?|Hex]; [by left|].
    apply Exists_app in Hex as [Hex|Hex]; [by right|].
    by apply Exists_cons in Hex as [Hx|Hx%Exists_nil].
Qed.

Lemma released_step ev s w s' w' :
  Inv s w → loop_invariant s → free s w →
  match ev with
  | Others cs => Forall (λ c, key_of c ≠ lock) cs
  | _ => True
  end →
  step_call lock timeout write ev s w = (s', w') → free s' w'.
Proof.
  intros Hinv Hloop H Hq.
  destruct ev as [ns| |cs]; simpl.
  - destruct (c_loop s) eqn:Hl.
    + destruct (acquireLock lock timeout ns s w) as [s1 w1] eqn:E.
      intros [= <- <-] Hp. simpl in Hp.
      apply (released_acquireLock _ _ _ _ _ E) in Hp.
      destruct (released_cleared _ _ Hinv Hloop Hp) as [Hc _]. congruence.
    + intros E Hp. apply (released_acquireLock _ _ _ _ _ E) in Hp.
      destruct (released_cleared _ _ Hinv Hloop Hp) as [Hc _]. congruence.
    + by intros [= <- <-].
  - unfold deliver. destruct s as [a l lk res [|[cb r] fl]] eqn:Hs; simpl.
    { by intros [= <- <-]. }
    assert (Hrest : free (Call a l lk res fl) w).
    { intros [Hres|Hex]; apply H; [by left|]. right.
      by apply Exists_cons_tl. }
    destruct Hinv as (_ & I1 & _ & _). simpl in I1.
    destruct cb as [el|st|st].
    + destruct r as [err|r].
      * intros [= <- <-]. unfold released, reject, clearInterval in *.
        simpl in *.
        destruct l, lk; simpl; try done; intros [[st ?]|?];
          first [done | by apply Hrest; right].
      * assert (Hres : ∀ st,
          resolve write st (clearInterval (Call a l lk res fl)) w = (s', w') →
          free s' w').
        { intros st. unfold resolve, clearInterval; simpl.
          destruct lk;
            try (destruct l; simpl; by intros [= <- <-]).
          destruct (I1 eq_refl) as [-> Hfl].
          apply Forall_cons in Hfl as [_ Hfl]. rewrite Forall_forall in Hfl.
          assert (Hnone : ∀ l0 r0 w0,
            free (Call a l0 (Resolved st) Pending
                       (fl ++ [(WriteCb st, r0)])) w0).
          { intros l0 r0 w0 [[st' ?]|Hex]; [done|]. simpl in Hex.
            apply Exists_app in Hex as [Hex|Hex].
            - apply Exists_exists in Hex as (x & Hx & Hp).
              by destruct (Hfl x Hx); apply lock_deleted_second_phase.
            - by apply Exists_cons in Hex as [Hx|Hx%Exists_nil]. }
          destruct l; simpl; destruct (send write w) as [r0 w0];
            intros [= <- <-]; apply Hnone. }
        destruct r; try (by intros [= <- <-]); apply Hres.
    + destruct r as [err|r].
      * intros [= <- <-]. intros [[st' ?]|Hex]; [done|].
        apply Hrest. by right.
      * destruct (send (DEL lock) w) as [r' w1] eqn:E. intros [= <- <-].
        apply send_del in E as [Hnone|[[err ->] Hks]]; [by intros _|].
        intros [Hres|Hex]; simpl in *; rewrite Hks.
        -- apply Hrest. by left.
        -- apply Exists_app in Hex as [Hex|Hex]; [apply Hrest; by right|].
           by apply Exists_cons in Hex as [Hx|Hx%Exists_nil].
    + destruct r as [err|r]; intros [= <- <-].
      * intros [[st' ?]|Hex]; [done|]. apply Hrest. by right.
      * intros _. apply H. right. by apply Exists_cons_hd.
  - intros [= <- <-]. intros Hp. simpl. rewrite run_others_frame by done.
    by apply H.
Qed.

Lemma run_call_released evs : ∀ s w s' w',
  quiet lock evs → Inv s w → loop_invariant s → free s w →
  run_call lock timeout write evs s w = (s', w') → free s' w'.
Proof.
  induction evs as [|ev evs IH]; intros s w s' w' Hq Hinv Hloop H; simpl.
  - by intros [= <- <-].
  - destruct (step_call lock timeout write ev s w) as [s1 w1] eqn:E.
    assert (Hq' : quiet lock evs ∧
              match ev with
              | Others cs => Forall (λ c, key_of c ≠ lock) cs
              | _ => True
              end).
    { destruct ev as [ns| |cs]; try done. unfold quiet in *. simpl in Hq.
      by apply Forall_app in Hq as [? ?]. }
    destruct Hq' as [Hq1 Hq2].
    apply (IH s1 w1); [done| | |].
    + by eapply inv_step.
    + by eapply loop_step.
    + by eapply released_step.
Qed.

End Released.

Lemma exec_write_command c key value ttl ks :
  exec (write_command c key value ttl) ks
  = (inr Ok, <[entry_key c key := Entry (encode value) (expiry ttl)]> ks).
Proof.
  unfold write_command, expiry.
  destruct (0 <? resolve_ttl ttl) eqn:E; simpl; by rewrite ?E.
Qed.

Section Stats.

Variables (lock : string) (timeout : Z) (write : command).

Local Abbreviation fair := (fair_stats timeout).
Local Abbreviation SInv := (stats_invariant timeout).

Lemma fair_stats_mono n n' st : (n ≤ n')%nat → fair n st → fair n' st.
Proof. unfold fair_stats. lia. Qed.

Lemma fair_callback_mono n n' x :
  (n ≤ n')%nat → fair_callback timeout n x → fair_callback timeout n' x.
Proof.
  unfold fair_callback, fair_stats. destruct (x.1); lia.
Qed.

Lemma stats_reject err n s : SInv n s → SInv n (reject err s).
Proof.
  unfold stats_invariant, reject. destruct s as [a l lk res fl]; simpl.
  destruct lk; try done. intros (H1 & H2 & H3 & H4). done.
Qed.

Lemma stats_clearInterval n s : SInv n s → SInv n (clearInterval s).
Proof. unfold clearInterval. by destruct (c_loop s). Qed.

Lemma stats_resolve n st s w s' w' :
  SInv n s → fair (c_attempts s) st →
  resolve write st s w = (s', w') → SInv n s'.
Proof.
  unfold stats_invariant, resolve. destruct s as [a l lk res fl]; simpl.
  destruct lk; try (by intros ? ? [= <- <-]).
  intros (H1 & H2 & H3 & H4) Hst.
  destruct (send write w) as [r w1]. intros [= <- <-]. simpl.
  split; [done|]. split; [|split; [|done]].
  - apply Forall_app. split; [done|]. by apply Forall_singleton.
  - by intros ? [= <-].
Qed.

Lemma stats_acquireLock n ns s w s' w' :
  SInv n s → acquireLock lock timeout ns s w = (s', w') → SInv (S n) s'.
Proof.
  intros (H1 & H2 & H3 & H4).
  assert (Hs : SInv (S n) (Call (S (c_attempts s)) (c_loop s) (c_lock s)
                             (c_result s) (c_inflight s))).
  { split; [simpl; lia|]. simpl. split; [|split].
    - eapply Forall_impl; [done|]. intros x. apply fair_callback_mono. lia.
    - intros st Hst. eapply fair_stats_mono; [|by apply H3]. lia.
    - intros st Hst. eapply fair_stats_mono; [|by apply H4]. lia. }
  unfold acquireLock. destruct (_ <? _) eqn:Hlate.
  - intros [= <- <-]. by apply stats_reject, stats_clearInterval.
  - destruct (send _ w) as [r w1]. intros [= <- <-].
    destruct Hs as (S1 & S2 & S3 & S4). split; [done|].
    split; [|done]. simpl. apply Forall_app. split; [done|].
    apply Forall_singleton. unfold fair_callback. simpl.
    apply Z.ltb_ge in Hlate. lia.
Qed.

Lemma stats_deliver n s w s' w' :
  SInv n s → deliver lock write s w = (s', w') → SInv n s'.
Proof.
  unfold deliver. destruct s as [a l lk res [|[cb r] fl]]; simpl.
  { by intros ? [= <- <-]. }
  intros (H1 & H2 & H3 & H4). simpl in *.
  apply Forall_cons in H2 as [Hx H2].
  assert (Hrest : SInv n (Call a l lk res fl)) by done.
  unfold fair_callback in Hx. simpl in Hx.
  destruct cb as [el|st|st].
  - destruct r as [err|r].
    + intros [= <- <-].
      by apply stats_reject, (stats_clearInterval _ (Call _ _ _ _ _)).
    + assert (Hres :
        resolve write (LockStats el a) (clearInterval (Call a l lk res fl)) w
          = (s', w') → SInv n s').
      { apply stats_resolve.
        - by apply (stats_clearInterval _ (Call _ _ _ _ _)).
        - unfold clearInterval, fair_stats; simpl. destruct l; simpl; lia. }
      destruct r; try done. by intros [= <- <-].
  - destruct r as [err|r].
    + intros [= <- <-]. split; [done|]. split; [done|]. split; [done|].
      by intros ? [= <-].
    + destruct (send _ w) as [r' w1]. intros [= <- <-].
      split; [done|]. split; [|done]. simpl.
      apply Forall_app. split; [done|]. by apply Forall_singleton.
  - destruct r as [err|r]; intros [= <- <-];
      (split; [done|]); (split; [done|]); (split; [done|]); simpl.
    + by intros ? [= <-].
    + by intros ? [= <-].
Qed.

Lemma stats_run evs : ∀ n s w s' w',
  SInv n s →
  run_call lock timeout write evs s w = (s', w') →
  SInv (n + runs evs) s'.
Proof.
  induction evs as [|ev evs IH]; intros n s w s' w' H; simpl.
  - intros [= <- <-]. by rewrite Nat.add_0_r.
  - destruct (step_call lock timeout write ev s w) as [s1 w1] eqn:E.
    destruct ev as [ns| |cs]; simpl in E.
    + rewrite Nat.add_succ_r. apply (IH (S n) s1 w1).
      destruct (c_loop s).
      * destruct (acquireLock lock timeout ns s w) as [s2 w2] eqn:E2.
        injection E as <- <-.
        by apply (stats_acquireLock _ _ _ _ _ _ H) in E2.
      * by apply (stats_acquireLock _ _ _ _ _ _ H) in E.
      * injection E as <- <-. destruct H as (H1 & H2). split; [lia|done].
    + apply (IH n s1 w1). by apply (stats_deliver _ _ _ _ _ H) in E.
    + injection E as <- <-. by apply IH.
Qed.

(** A call whose interval is cleared and that waits for no reply does
    nothing any more. *)
Lemma run_call_idle evs : ∀ s w,
  c_loop s = Cleared → c_inflight s = [] →
  run_call lock timeout write evs s w
  = (s, World (run_others (others_of evs) (keyspace w)) (issued w)
              (faults w) (schedule w)).
Proof.
  induction evs as [|ev evs IH]; intros s w Hl Hfl; simpl.
  - by destruct w.
  - destruct ev as [ns| |cs]; simpl.
    + rewrite Hl. by apply IH.
    + unfold deliver. rewrite Hfl. by apply IH.
    + rewrite IH by done. simpl. by rewrite run_others_app.
Qed.

End Stats.

Section Paths.

Variables (lock : string) (timeout : Z) (write : command).

Local Abbreviation attempt := (Sent (SET_NX_PX lock "1" (timeout + 500))).

Lemma runs_split evs :
  (0 < runs evs)%nat →
  ∃ pre ns post, evs = pre ++ Run ns :: post ∧ runs pre = 0%nat.
Proof.
  induction evs as [|ev evs IH]; simpl; [lia|].
  destruct ev as [ns| |cs].
  - intros _. by exists [], ns, evs.
  - intros (pre & ns & post & -> & Hpre)%IH.
    by exists (Deliver :: pre), ns, post.
  - intros (pre & ns & post & -> & Hpre)%IH.
    by exists (Others cs :: pre), ns, post.
Qed.

Lemma held_no_runs pre : ∀ ks, runs pre = 0%nat → held lock pre ks.
Proof.
  induction pre as [|ev pre IH]; intros ks; simpl; [done|].
  destruct ev; try done; auto.
Qed.

Lemma in_time_no_runs pre : runs pre = 0%nat → Forall (in_time timeout) pre.
Proof.
  induction pre as [|ev pre IH]; simpl; [done|].
  destruct ev; try done; intros H; apply Forall_cons; split; auto; done.
Qed.

(** Every run of [acquireLock] finds the timeout passed: nothing is
    sent. *)
Lemma run_call_late evs w :
  (0 < runs evs)%nat →
  Forall (late timeout) evs →
  ∃ s,
    c_result s = Rejected lock_timeout ∧
    run_call lock timeout write evs new_call w
    = (s, World (run_others (others_of evs) (keyspace w)) (issued w)
                (faults w) (schedule w)).
Proof.
  intros (pre & ns & post & -> & Hpre)%runs_split Hlate.
  apply Forall_app in Hlate as [_ Hlate].
  apply Forall_cons in Hlate as [Hns Hpost].
  destruct (run_times_out lock timeout write pre ns post w)
    as (s & Hres & Hrun); try done.
  - by apply in_time_no_runs.
  - by rewrite Hpre.
  - by apply held_no_runs.
  - exists s. split; [done|]. rewrite Hrun, Hpre. simpl.
    rewrite app_nil_r. done.
Qed.

End Paths.

Lemma set_resolved_stored c key value ttl timeout w stats w' :
  set c (JStr key) value ttl timeout w = (Resolved stats, w') →
  quiet (entry_key c (JStr key)) (schedule w) →
  keyspace w' !! entry_key c (JStr key)
    = Some (Entry (encode value) (expiry ttl)).
Proof.
  intros Hset Hq.
  pose proof (set_resolved_defined _ _ _ _ _ _ _ _ Hset) as Hval.
  rewrite (set_runs _ _ _ _ _ _ Hval) in Hset.
  destruct (run_call _ _ _ _ _ _) as [s w1] eqn:Hrun.
  injection Hset as Hres ->.
  assert (Hnew : stored (entry_key c (JStr key))
                   (Entry (encode value) (expiry ttl)) new_call
                   (set_schedule [] w)).
  { intros [[st ?]|Hex%Exists_nil]; done. }
  apply (run_call_stored _ _ _ _ _
           (exec_write_command c (JStr key) value ttl)
           (entry_key_ne_lock_key c (JStr key))
           _ _ _ _ _ Hq Hnew Hrun).
  left. by eexists.
Qed.

Lemma get_entry c key update ttl timeout w e :
  accepted_arguments update ttl →
  next_fault w = None →
  keyspace w !! entry_key c (JStr key) = Some e →
  get c (JStr key) update ttl timeout w
    = (Resolved (decode (JStr (e_value e))),
       World (keyspace w)
             (issued w ++ [Sent (GET (entry_key c (JStr key)))])
             (tail (faults w)) (schedule w)).
Proof.
  intros Hargs Hok Hhit. unfold get. simpl negb. cbv iota.
  fold (entry_key c (JStr key)).
  rewrite (send_no_fault _ _ Hok). simpl. rewrite Hhit.
  destruct update as [err result|n|], ttl as [n'|];
    simpl in Hargs; try discriminate; done.
Qed.

Lemma cache_round_trip v :
  representable v = true → decode (JStr (encode v)) = v.
Proof.
  intros Hv. destruct v as [| |b|n|m e|s|l|l|src]; try discriminate.
  - done.
  - by destruct b.
  - apply decode_string_json. by apply (JSON_parse_stringify (JNum n)).
  - apply decode_string_json. by apply (JSON_parse_stringify (JDec m e)).
  - simpl in Hv. apply decode_string_raw. by destruct (JSON_parse s).
  - apply decode_string_json. unfold encode. simpl typeof. cbv iota.
    destruct (stringify_json (JArr l) Hv) as [s Hs]. rewrite Hs. simpl.
    by apply (JSON_parse_stringify (JArr l)).
  - apply decode_string_json. unfold encode. simpl typeof. cbv iota.
    destruct (stringify_json (JObj l) Hv) as [s Hs]. rewrite Hs. simpl.
    by apply (JSON_parse_stringify (JObj l)).
Qed.

Lemma decode_representable v : representable v = true → decode v = v.
Proof.
  intros Hv. destruct v as [| |b|n|m e|s|l|l|src]; try discriminate; try done.
  - apply decode_boolean.
  - by apply decode_number.
  - by apply decode_number.
  - simpl in Hv. apply decode_string_raw. by destruct (JSON_parse s).
Qed.

Lemma get_miss_set c key err result ttl timeout w :
  next_fault w = None →
  keyspace w !! entry_key c (JStr key) = None →
  truthy err = false →
  get c (JStr key) (Update err result) ttl timeout w
  = match set c (JStr key) result (Some (resolve_ttl ttl))
            (Some (resolve_timeout timeout (resolve_ttl ttl)))
            (World (keyspace w)
               (issued w ++ [Sent (GET (entry_key c (JStr key))); Invoked])
               (tail (faults w)) (schedule w)) with
    | (Resolved _, w') => (Resolved (decode result), w')
    | (_, w') => (Pending, w')
    end.
Proof.
  intros Hok Hmiss Herr. unfold get. simpl negb. cbv iota.
  fold (entry_key c (JStr key)).
  rewrite (send_no_fault _ _ Hok). simpl. rewrite Hmiss, Herr.
  unfold record; simpl. rewrite <- app_assoc. by destruct ttl.
Qed.

Lemma times_sent_app c l l' :
  times_sent c (l ++ l') = (times_sent c l + times_sent c l')%nat.
Proof. unfold times_sent. by rewrite filter_app, length_app. Qed.

Lemma times_sent_same c : times_sent c [Sent c] = 1%nat.
Proof.
  unfold times_sent. rewrite filter_cons. by destruct (decide _).
Qed.

Lemma times_sent_other c c' : c' ≠ c → times_sent c [Sent c'] = 0%nat.
Proof.
  intros H. unfold times_sent. rewrite filter_cons.
  destruct (decide _) as [E|]; [|done]. by injection E.
Qed.

Lemma writes_under_way_app fl fl' :
  writes_under_way (fl ++ fl')
  = (writes_under_way fl + writes_under_way fl')%nat.
Proof.
  induction fl as [|[[] r] fl IH]; simpl; try done. by rewrite IH.
Qed.

Section Once.

Variables (lock : string) (timeout : Z) (write : command) (before : nat).

Hypothesis write_not_attempt : write ≠ SET_NX_PX lock "1" (timeout + 500).
Hypothesis write_not_release : write ≠ DEL lock.

Local Abbreviation OInv := (once_invariant lock write before).
Local Abbreviation news := (since before).

Lemma once_reject err s w : OInv s w → OInv (reject err s) w.
Proof.
  unfold once_invariant, reject. destruct s as [a l lk res fl]; simpl.
  destruct lk; try done. intros (H0 & H1 & H2 & H3).
  split; [done|]. split; [done|]. split; [done|]. done.
Qed.

Lemma once_clearInterval s w : OInv s w → OInv (clearInterval s) w.
Proof. unfold clearInterval. by destruct (c_loop s). Qed.

Lemma once_resolve st s w s' w' :
  OInv s w → resolve write st s w = (s', w') → OInv s' w'.
Proof.
  unfold once_invariant, resolve. destruct s as [a l lk res fl]; simpl.
  destruct lk; try (by intros ? [= <- <-]).
  intros (H0 & H1 & H2 & H3).
  destruct (send write w) as [r w1] eqn:E. intros [= <- <-].
  apply (since_send _ _ _ _ _ H0) in E as [H0' E]. simpl.
  specialize (H2 eq_refl).
  rewrite E, !times_sent_app, times_sent_same, writes_under_way_app.
  rewrite times_sent_other by done. simpl. rewrite H2 in *.
  split; [done|]. split; [lia|]. split; [done|]. lia.
Qed.

Lemma once_acquireLock ns s w s' w' :
  OInv s w → acquireLock lock timeout ns s w = (s', w') → OInv s' w'.
Proof.
  unfold acquireLock. intros Hinv. destruct (_ <? _).
  - intros [= <- <-].
    by apply once_reject, once_clearInterval.
  - destruct (send _ w) as [r w1] eqn:E. intros [= <- <-].
    destruct Hinv as (H0 & H1 & H2 & H3).
    apply (since_send _ _ _ _ _ H0) in E as [H0' E].
    unfold once_invariant. simpl.
    rewrite E, !times_sent_app, writes_under_way_app.
    rewrite !times_sent_other by done. simpl. rewrite !Nat.add_0_r.
    done.
Qed.

Lemma once_deliver s w s' w' :
  OInv s w → deliver lock write s w = (s', w') → OInv s' w'.
Proof.
  unfold deliver. destruct s as [a l lk res [|[cb r] fl]]; simpl.
  { by intros ? [= <- <-]. }
  intros Hinv.
  destruct cb as [el|st|st].
  - assert (Hrest : OInv (Call a l lk res fl) w) by done.
    destruct r as [err|r].
    + intros [= <- <-].
      by apply once_reject, (once_clearInterval (Call _ _ _ _ _)).
    + destruct r; try (by intros [= <- <-]);
        apply once_resolve;
        by apply (once_clearInterval (Call _ _ _ _ _)).
  - destruct Hinv as (H0 & H1 & H2 & H3). simpl in *.
    assert (Hlk : lk ≠ Pending).
    { intros ->. specialize (H2 eq_refl). lia. }
    destruct r as [err|r].
    + intros [= <- <-]. unfold once_invariant; simpl.
      split; [done|]. split; [done|]. split; [done|]. lia.
    + destruct (send (DEL lock) w) as [r' w1] eqn:E. intros [= <- <-].
      apply (since_send _ _ _ _ _ H0) in E as [H0' E].
      unfold once_invariant; simpl.
      rewrite E, !times_sent_app, writes_under_way_app, times_sent_same.
      rewrite times_sent_other by done. simpl.
      split; [done|]. split; [lia|]. split; [done|]. lia.
  - destruct Hinv as (H0 & H1 & H2 & H3). simpl in *.
    destruct r as [err|r]; intros [= <- <-]; done.
Qed.

Lemma once_run evs : ∀ s w s' w',
  OInv s w → run_call lock timeout write evs s w = (s', w') → OInv s' w'.
Proof.
  induction evs as [|ev evs IH]; intros s w s' w' Hinv; simpl.
  - by intros [= <- <-].
  - destruct (step_call lock timeout write ev s w) as [s1 w1] eqn:E.
    apply (IH s1 w1). destruct ev as [ns| |cs]; simpl in E.
    + destruct (c_loop s).
      * destruct (acquireLock lock timeout ns s w) as [s2 w2] eqn:E2.
        injection E as <- <-.
        by apply (once_acquireLock _ _ _ _ _ Hinv) in E2.
      * by apply (once_acquireLock _ _ _ _ _ Hinv) in E.
      * by injection E as <- <-.
    + by apply (once_deliver _ _ _ _ Hinv) in E.
    + by injection E as <- <-.
Qed.

End Once.

Lemma tail_drop {A} (l : list A) n : tail (drop n l) = drop (S n) l.
Proof.
  revert l. induction n as [|n IH]; intros [|x l]; simpl; done.
Qed.

Lemma no_fault_at n m fs ks iss sch :
  Forall (λ f : option string, f = None) (take m fs) → (n < m)%nat →
  next_fault (World ks iss (drop n fs) sch) = None.
Proof.
  intros Hf Hn. unfold next_fault. simpl.
  destruct (drop n fs) as [|[err|] l] eqn:E; try done.
  assert (Hl : fs !! n = Some (Some err)).
  { rewrite <- (Nat.add_0_r n), <- lookup_drop, E. done. }
  rewrite Forall_lookup in Hf. specialize (Hf n (Some err)).
  rewrite lookup_take_lt in Hf by done. by specialize (Hf Hl).
Qed.

Section Timely.

Variables (lock : string) (timeout : Z) (write : command).

(** No promise is rejected with the [AcquireError] as long as every run
    of [acquireLock] is within the timeout. *)
Lemma run_call_in_time evs : ∀ s w s' w',
  Forall (in_time timeout) evs →
  not_timed_out (c_lock s) → not_timed_out (c_result s) →
  run_call lock timeout write evs s w = (s', w') →
  not_timed_out (c_lock s') ∧ not_timed_out (c_result s').
Proof.
  induction evs as [|ev evs IH]; intros s w s' w' Htime Hl Hr; simpl.
  - by intros [= <- <-].
  - apply Forall_cons in Htime as [Hev Htime].
    destruct (step_call lock timeout write ev s w) as [s1 w1] eqn:E.
    apply (IH s1 w1); [done| |];
      destruct ev as [ns| |cs]; simpl in E;
      try (by injection E as <- <-).
    all: unfold acquireLock, deliver, resolve, reject, clearInterval,
           settle, await in E.
    all: try (assert (Hnot : (timeout * 10000 <? to_fixed4 ns) = false)
                by (apply Z.ltb_ge, Hev); rewrite Hnot in E).
    all: destruct s as [a l lk res fl]; simpl in *.
    all: repeat (match type of E with
                 | context [send ?c ?w] => destruct (send c w)
                 | context [match ?x with _ => _ end] => destruct x
                 end; simpl in *);
         injection E as <- <-; simpl; done.
Qed.

(** Cleared stays cleared. *)
Lemma cleared_step ev s w s' w' :
  c_loop s = Cleared →
  step_call lock timeout write ev s w = (s', w') → c_loop s' = Cleared.
Proof.
  destruct s as [a l lk res fl]; simpl. intros ->.
  destruct ev as [ns| |cs]; simpl; try (by intros [= <- <-]).
  unfold deliver, resolve, reject, clearInterval, settle, await. simpl.
  intros E.
  repeat (match type of E with
          | context [send ?c ?w] => destruct (send c w)
          | context [match ?x with _ => _ end] => destruct x
          end; simpl in * );
    by injection E as <- <-.
Qed.

(** The counter [attempts] counts the runs of [acquireLock] as long as
    the interval is not cleared, and each run leaves at most one more
    reply to wait for. *)
Lemma run_call_counts evs : ∀ s w s' w',
  run_call lock timeout write evs s w = (s', w') →
  (c_loop s' ≠ Cleared →
   c_attempts s' = (c_attempts s + runs evs)%nat) ∧
  (length (c_inflight s') ≤ length (c_inflight s) + runs evs)%nat.
Proof.
  induction evs as [|ev evs IH]; intros s w s' w'; simpl.
  - intros [= <- <-]. split; [|lia]. intros _. lia.
  - destruct (step_call lock timeout write ev s w) as [s1 w1] eqn:E.
    intros Hrun. destruct (IH _ _ _ _ Hrun) as [IH1 IH2].
    assert (Hstep :
      (c_loop s1 ≠ Cleared →
       c_attempts s1 = (c_attempts s + runs [ev])%nat) ∧
      (length (c_inflight s1) ≤ length (c_inflight s) + runs [ev])%nat).
    { clear IH IH1 IH2 Hrun. destruct s as [a l lk res fl].
      destruct ev as [ns| |cs]; simpl in *.
      - unfold acquireLock, reject, clearInterval in E. simpl in E.
        destruct l; simpl in E;
          repeat (match type of E with
                  | context [?x <? ?y] => destruct (x <? y)
                  | context [send ?c ?w] => destruct (send c w)
                  | context [match ?x with _ => _ end] => destruct x
                  end; simpl in * );
          injection E as <- <-; simpl; rewrite ?length_app; simpl;
          split; try done; try lia.
      - unfold deliver, resolve, reject, clearInterval, settle, await in E.
        simpl in E.
        repeat (match type of E with
                | context [send ?c ?w] => destruct (send c w)
                | context [match ?x with _ => _ end] => destruct x
                end; simpl in * );
          injection E as <- <-; simpl; rewrite ?length_app; simpl;
          split; try done; try lia.
      - injection E as <- <-. simpl. split; [|lia]. intros _. lia. }
    destruct Hstep as [S1 S2]. split.
    + intros Hc. rewrite IH1 by done. rewrite S1.
      * destruct ev; simpl; lia.
      * intros Hs1. apply Hc.
        clear -Hs1 Hrun. revert s1 w1 Hs1 Hrun.
        induction evs as [|ev' evs IH']; intros s1 w1 Hs1; simpl.
        -- by intros [= <- <-].
        -- destruct (step_call lock timeout write ev' s1 w1) as [s2 w2] eqn:E2.
           apply (cleared_step _ _ _ _ _ Hs1) in E2. by apply IH'.
    + destruct ev; simpl in *; lia.
Qed.

End Timely.

Lemma others_of_delivers n : others_of (replicate n Deliver) = [].
Proof. induction n; simpl; done. Qed.

Section Acquire.

Variables (lock : string) (timeout : Z) (write : command).
Variables (k : string) (e : entry).

Hypothesis write_stores : ∀ ks, exec write ks = (inr Ok, <[k := e]> ks).
Hypothesis entry_not_lock : k ≠ lock.

Local Abbreviation attempt := (Sent (SET_NX_PX lock "1" (timeout + 500))).
Local Abbreviation run := (run_call lock timeout write).

(** The replies [nil] under way reach their callbacks, which do
    nothing. *)
Lemma run_call_flush fl : ∀ a l lk res rest w,
  Forall nil_reply fl →
  run (replicate (length fl) Deliver) (Call a l lk res (fl ++ rest)) w
  = (Call a l lk res rest, w).
Proof.
  induction fl as [|[cb r] fl IH]; intros a l lk res rest w Hfl; simpl;
    [done|].
  apply Forall_cons in Hfl as [Hx Hfl].
  destruct cb as [el| |]; try done. destruct r as [|[]]; try done.
  by apply IH.
Qed.

(** The lock is held by somebody else over [pre] and free at the next
    run of [acquireLock]: that attempt takes the lock, and once the
    replies have come back the entry is written and the lock deleted. *)
Lemma run_call_acquires pre ns m rest w :
  Forall (in_time timeout) pre →
  in_time timeout (Run ns) →
  held lock pre (keyspace w) →
  run_others (others_of pre) (keyspace w) !! lock = None →
  (runs pre + 3 ≤ m)%nat →
  Forall (λ f, f = None) (take (runs pre + 3) (faults w)) →
  run (pre ++ Run ns :: replicate m Deliver ++ rest) new_call w
  = (Call (S (runs pre)) Cleared
       (Resolved (LockStats (to_fixed4 ns) (S (runs pre))))
       (Resolved (LockStats (to_fixed4 ns) (S (runs pre)))) [],
     World (run_others (others_of rest)
              (<[k := e]> (run_others (others_of pre) (keyspace w))))
           (issued w ++ replicate (runs pre) attempt ++
              [attempt; Sent write; Sent (DEL lock)])
           (drop (runs pre + 3) (faults w)) (schedule w)).
Proof.
  intros Htime Hns Hheld Hfree Hm Hfaults.
  assert (Hnot : (timeout * 10000 <? to_fixed4 ns) = false)
    by (apply Z.ltb_ge, Hns).
  pose proof (in_time_expire _ _ Hns) as Hpx.
  destruct (run_contended lock timeout write pre 0%nat NoInterval [] w)
    as (a & l & fl & Hl & Hfl & Hpre); try done.
  { apply (Forall_take _ (runs pre)) in Hfaults.
    rewrite take_take in Hfaults.
    by replace (runs pre `min` (runs pre + 3))%nat with (runs pre) in Hfaults
      by lia. }
  destruct (run_call_counts _ _ _ _ _ _ _ _ Hpre) as [Ha Hlen].
  simpl in Ha, Hlen. specialize (Ha Hl). subst a.
  unfold new_call. rewrite run_call_app, Hpre.
  set (ks1 := run_others (others_of pre) (keyspace w)) in *.
  set (st := LockStats (to_fixed4 ns) (S (runs pre))).
  assert (Hks : delete lock
                  (<[k := e]>
                     (<[lock := Entry "1" (Some (timeout + 500))]> ks1))
                = <[k := e]> ks1).
  { rewrite delete_insert_ne by done. rewrite delete_insert_eq.
    by rewrite delete_id. }
  assert (Hstep :
    step_call lock timeout write (Run ns)
      (Call (runs pre) l Pending Pending fl)
      (World ks1 (issued w ++ replicate (runs pre) attempt)
             (drop (runs pre) (faults w)) (schedule w))
    = (Call (S (runs pre)) Ticking Pending Pending
         (fl ++ [(LockCb (to_fixed4 ns), inr Ok)]),
       World (<[lock := Entry "1" (Some (timeout + 500))]> ks1)
             ((issued w ++ replicate (runs pre) attempt) ++ [attempt])
             (drop (S (runs pre)) (faults w)) (schedule w))).
  { assert (Hacq : ∀ l0,
      acquireLock lock timeout ns (Call (runs pre) l0 Pending Pending fl)
        (World ks1 (issued w ++ replicate (runs pre) attempt)
               (drop (runs pre) (faults w)) (schedule w))
      = (Call (S (runs pre)) l0 Pending Pending
           (fl ++ [(LockCb (to_fixed4 ns), inr Ok)]),
         World (<[lock := Entry "1" (Some (timeout + 500))]> ks1)
               ((issued w ++ replicate (runs pre) attempt) ++ [attempt])
               (drop (S (runs pre)) (faults w)) (schedule w))).
    { intros l0. unfold acquireLock.
      cbn [c_attempts c_loop c_lock c_result c_inflight]. rewrite Hnot.
      rewrite send_no_fault
        by (apply (no_fault_at _ (runs pre + 3)); [done|lia]).
      cbn [exec keyspace]. rewrite Hpx, Hfree.
      cbn [fst snd await c_attempts c_loop c_lock c_result c_inflight
           issued faults schedule]. by rewrite tail_drop. }
    simpl. destruct l; [| |done]; by rewrite Hacq. }
  cbn [run_call]. rewrite Hstep.
  replace m with (length fl + (3 + (m - length fl - 3)))%nat by lia.
  rewrite !replicate_add, <- !app_assoc, run_call_app.
  rewrite run_call_flush by done.
  cbn [replicate app run_call step_call].
  cbn [fst snd await c_attempts c_loop c_lock c_result c_inflight app
       issued faults schedule keyspace deliver clearInterval resolve settle].
  rewrite send_no_fault
    by (apply (no_fault_at _ (runs pre + 3)); [done|lia]).
  rewrite write_stores.
  cbn [fst snd await c_attempts c_loop c_lock c_result c_inflight app
       issued faults schedule keyspace deliver clearInterval resolve settle].
  rewrite tail_drop.
  rewrite send_no_fault
    by (apply (no_fault_at _ (runs pre + 3)); [done|lia]).
  cbn [exec fst snd await c_attempts c_loop c_lock c_result c_inflight app
       issued faults schedule keyspace deliver clearInterval resolve settle].
  rewrite tail_drop.
  rewrite run_call_idle by done.
  cbn [keyspace issued faults schedule].
  rewrite Hks, others_of_app, others_of_delivers, <- !app_assoc.
  do 3 f_equal. f_equal. lia.
Qed.

End Acquire.

Lemma write_command_not_attempt c key value ttl lock px :
  write_command c key value ttl ≠ SET_NX_PX lock "1" px.
Proof. unfold write_command. by destruct (0 <? _). Qed.

Lemma write_command_not_release c key value ttl lock :
  write_command c key value ttl ≠ DEL lock.
Proof. unfold write_command. by destruct (0 <? _). Qed.

Lemma under_way_app fl fl' :
  under_way (fl ++ fl') = (under_way fl + under_way fl')%nat.
Proof.
  induction fl as [|[[] r] fl IH]; simpl; try done; by rewrite IH.
Qed.

Section Final.

Variables (lock : string) (timeout : Z) (write : command).

(** A step keeps the invariant and leaves a settled promise as it is. *)
Lemma final_step ev s w s' w' :
  settled_invariant s →
  step_call lock timeout write ev s w = (s', w') →
  settled_invariant s' ∧ (c_result s ≠ Pending → c_result s' = c_result s).
Proof.
  unfold settled_invariant. destruct s as [a l lk res fl]. simpl.
  intros Hinv. destruct ev as [ns| |cs]; simpl.
  - unfold acquireLock, reject, clearInterval. simpl. intros E.
    destruct (_ <? _);
      [|destruct (send _ w) as [r w1]];
      destruct l, lk; simpl in *; try done;
      injection E as <- <-; simpl; rewrite ?under_way_app; simpl;
      rewrite ?Nat.add_0_r; intuition congruence.
  - unfold deliver. simpl. destruct fl as [|[cb r] fl].
    { intros [= <- <-]. done. }
    destruct cb as [el|st|st]; simpl in Hinv.
    + unfold resolve, reject, clearInterval. simpl. intros E.
      destruct r as [err|[]];
        try destruct (send write w) as [r' w1];
        destruct l, lk; simpl in *; try done;
        injection E as <- <-; simpl; rewrite ?under_way_app; simpl;
        intuition (try congruence; try lia).
    + destruct lk; try (by destruct Hinv). destruct Hinv as [H1 H2].
      assert (Hres : res = Pending).
      { destruct res; try done; by specialize (H2 ltac:(done)). }
      subst res. assert (Hfl : under_way fl = O) by lia.
      destruct r as [err|r].
      * intros [= <- <-]. simpl. rewrite Hfl.
        intuition (try congruence; try lia).
      * destruct (send _ w) as [r' w1]. intros [= <- <-]. simpl.
        rewrite under_way_app, Hfl. simpl.
        intuition (try congruence; try lia).
    + destruct lk; try (by destruct Hinv). destruct Hinv as [H1 H2].
      assert (Hres : res = Pending).
      { destruct res; try done; by specialize (H2 ltac:(done)). }
      subst res. assert (Hfl : under_way fl = O) by lia.
      destruct r as [err|r]; intros [= <- <-]; simpl; rewrite Hfl;
        intuition (try congruence; try lia).
  - intros [= <- <-]. done.
Qed.

Lemma final_run evs : ∀ s w s' w',
  settled_invariant s →
  run_call lock timeout write evs s w = (s', w') →
  settled_invariant s' ∧ (c_result s ≠ Pending → c_result s' = c_result s).
Proof.
  induction evs as [|ev evs IH]; intros s w s' w' Hinv; simpl.
  - by intros [= <- <-].
  - destruct (step_call lock timeout write ev s w) as [s1 w1] eqn:E.
    apply (final_step _ _ _ _ _ Hinv) in E as [Hinv1 Hres1].
    intros Hrun. destruct (IH _ _ _ _ Hinv1 Hrun) as [Hinv' Hres'].
    split; [done|]. intros Hs. rewrite Hres'; rewrite Hres1; done.
Qed.

End Final.

Lemma nil_reply_under_way fl : Forall nil_reply fl → under_way fl = O.
Proof.
  induction fl as [|[cb r] fl IH]; [done|].
  intros [Hx Hfl]%Forall_cons. destruct cb; try done. simpl. auto.
Qed.

Section Dead.

Variables (lock : string) (timeout : Z) (write : command).

Local Abbreviation attempt := (Sent (SET_NX_PX lock "1" (timeout + 500))).

(** A call whose interval is cleared and whose lock promise is rejected
    sends nothing any more, whatever the replies to its conditional
    sets that are still delivered. *)
Lemma run_call_dead evs : ∀ a fl w e,
  under_way fl = O →
  ∃ fl',
    run_call lock timeout write evs
      (Call a Cleared (Rejected e) (Rejected e) fl) w
    = (Call a Cleared (Rejected e) (Rejected e) fl',
       World (run_others (others_of evs) (keyspace w)) (issued w)
             (faults w) (schedule w)).
Proof.
  induction evs as [|ev evs IH]; intros a fl w e Hfl.
  - exists fl. by destruct w.
  - destruct ev as [ns| |cs]; simpl.
    + by apply IH.
    + destruct fl as [|[cb r] fl]; simpl.
      * by apply IH.
      * destruct cb as [el| |]; try done. simpl in Hfl.
        destruct r as [err|[]]; simpl; by apply IH.
    + destruct (IH a fl (interfere cs w) e Hfl) as [fl' Hrun].
      exists fl'. rewrite Hrun. simpl. by rewrite run_others_app.
Qed.

(** Between two deliveries every tick of the interval that reads a clock
    within the timeout sends one conditional set. *)
Lemma run_call_ticks mid : ∀ a fl w,
  Forall no_delivery mid →
  Forall (timely timeout) mid →
  ∃ fl' w',
    run_call lock timeout write mid (Call a Ticking Pending Pending fl) w
    = (Call (a + runs mid) Ticking Pending Pending (fl ++ fl'), w') ∧
    under_way fl' = O ∧
    issued w' = issued w ++ replicate (runs mid) attempt ∧
    faults w' = drop (runs mid) (faults w) ∧
    schedule w' = schedule w ∧
    (runs mid = O →
     keyspace w' = run_others (others_of mid) (keyspace w)).
Proof.
  induction mid as [|ev mid IH]; intros a fl w Hmid Htime.
  - exists [], w. simpl. rewrite Nat.add_0_r, !app_nil_r, drop_0. done.
  - apply Forall_cons in Hmid as [Hev Hmid].
    apply Forall_cons in Htime as [Ht Htime].
    destruct ev as [ns| |cs]; [| done |].
    + assert (Hnot : (timeout * 10000 <? to_fixed4 ns) = false).
      { by apply Z.ltb_ge. }
      cbn [run_call step_call c_loop]. unfold acquireLock.
      cbn [c_attempts c_loop c_lock c_result c_inflight]. rewrite Hnot.
      destruct (send (SET_NX_PX lock "1" (timeout + 500)) w)
        as [r w1] eqn:Hsend.
      unfold await. cbn [c_attempts c_loop c_lock c_result c_inflight].
      destruct (IH (S a) (fl ++ [(LockCb (to_fixed4 ns), r)]) w1 Hmid Htime)
        as (fl' & w' & Hrun & Hfl' & Hiss & Hfaults & Hsch & _).
      exists ((LockCb (to_fixed4 ns), r) :: fl'), w'.
      rewrite Hrun. cbn [runs].
      replace (a + S (runs mid))%nat with (S a + runs mid)%nat by lia.
      rewrite <- app_assoc. split; [done|]. split; [done|].
      rewrite Hiss, Hfaults, Hsch. rewrite (send_issued _ _ _ _ Hsend).
      rewrite <- app_assoc. split; [done|].
      unfold send in Hsend.
      destruct (faults w) as [|[err|] fs];
        try destruct (exec _ (keyspace w));
        injection Hsend as <- <-; simpl; rewrite ?drop_nil; done.
    + cbn [run_call step_call].
      destruct (IH a fl (interfere cs w) Hmid Htime)
        as (fl' & w' & Hrun & Hfl' & Hiss & Hfaults & Hsch & Hks).
      exists fl', w'. rewrite Hrun. repeat (split; [done|]).
      intros H0. rewrite (Hks H0). simpl. by rewrite run_others_app.
Qed.

(** Before [acquireLock] has run the call does nothing. *)
Lemma run_call_before evs : ∀ w,
  runs evs = O →
  run_call lock timeout write evs new_call w
  = (new_call, World (run_others (others_of evs) (keyspace w)) (issued w)
                 (faults w) (schedule w)).
Proof.
  induction evs as [|ev evs IH]; intros w H0.
  - by destruct w.
  - destruct ev as [ns| |cs]; [done| |]; simpl.
    + by apply IH.
    + rewrite (IH _ H0). simpl. by rewrite run_others_app.
Qed.

(** The client reports an error for the first conditional set, and the
    interval ticks before the error is delivered. *)
Lemma run_call_first_error pre ns mid rest w err :
  runs pre = O →
  Forall no_delivery mid →
  Forall (timely timeout) (Run ns :: mid) →
  next_fault w = Some err →
  ∃ s w',
    run_call lock timeout write (pre ++ Run ns :: mid ++ Deliver :: rest)
      new_call w = (s, w') ∧
    c_result s = Rejected (RedisError err) ∧
    issued w' = issued w ++ replicate (S (runs mid)) attempt ∧
    faults w' = drop (S (runs mid)) (faults w) ∧
    schedule w' = schedule w ∧
    (runs mid = O →
     keyspace w'
     = run_others (others_of (pre ++ mid ++ rest)) (keyspace w)).
Proof.
  intros Hpre Hmid [Ht Htime]%Forall_cons Hfault.
  assert (Hnot : (timeout * 10000 <? to_fixed4 ns) = false).
  { by apply Z.ltb_ge. }
  rewrite run_call_app, (run_call_before pre w Hpre).
  set (w0 := World (run_others (others_of pre) (keyspace w)) (issued w)
               (faults w) (schedule w)).
  assert (Hfault0 : next_fault w0 = Some err) by done.
  change (issued w) with (issued w0). change (faults w) with (faults w0).
  change (schedule w) with (schedule w0).
  replace (run_others (others_of (pre ++ mid ++ rest)) (keyspace w))
    with (run_others (others_of (mid ++ rest)) (keyspace w0))
    by (by rewrite (others_of_app pre), run_others_app).
  clearbody w0. clear w Hfault. rename w0 into w, Hfault0 into Hfault.
  unfold new_call. cbn [run_call step_call c_loop]. unfold acquireLock.
  cbn [c_attempts c_loop c_lock c_result c_inflight]. rewrite Hnot.
  rewrite (send_fault _ _ _ Hfault). unfold await.
  cbn [c_attempts c_loop c_lock c_result c_inflight app].
  rewrite run_call_app.
  destruct (run_call_ticks mid 1
              [(LockCb (to_fixed4 ns), inl err)]
              (World (keyspace w) (issued w ++ [attempt]) (tail (faults w))
                 (schedule w)) Hmid Htime)
    as (fl' & w1 & Hrun & Hfl' & Hiss & Hfaults & Hsch & Hks).
  rewrite Hrun. cbn [run_call step_call app]. unfold deliver.
  cbn [c_attempts c_loop c_lock c_result c_inflight].
  unfold reject, clearInterval.
  cbn [c_attempts c_loop c_lock c_result c_inflight].
  destruct (run_call_dead rest (1 + runs mid) fl' w1 (RedisError err) Hfl')
    as [fl'' Hdead].
  rewrite Hdead.
  exists (Call (1 + runs mid) Cleared (Rejected (RedisError err))
            (Rejected (RedisError err)) fl''), 
         (World (run_others (others_of rest) (keyspace w1)) (issued w1)
            (faults w1) (schedule w1)).
  split; [done|]. split; [done|].
  cbn [issued faults schedule]. rewrite Hiss, Hfaults, Hsch.
  cbn [issued faults schedule replicate].
  rewrite <- app_assoc. split; [done|].
  split; [destruct (faults w); simpl; by rewrite ?drop_nil|].
  split; [done|]. intros H0. cbn [keyspace]. rewrite (Hks H0).
  cbn [keyspace]. by rewrite others_of_app, run_others_app.
Qed.

(** Once [acquireLock] has run, the variable [loop] holds the handle of
    the interval. *)
Lemma step_call_loop ev s w :
  c_loop s ≠ NoInterval ∨ (∃ ns, ev = Run ns) →
  c_loop (step_call lock timeout write ev s w).1 ≠ NoInterval.
Proof.
  destruct s as [a l lk res fl]. intros H.
  destruct ev as [ns| |cs]; simpl.
  - unfold acquireLock, reject, clearInterval. simpl.
    destruct (_ <? _); [|destruct (send _ w) as [r w1]];
      destruct l, lk; simpl; done.
  - destruct H as [H | [ns H]]; [|done]. simpl in H.
    unfold deliver, resolve, reject, clearInterval, settle, await. simpl.
    destruct fl as [|[cb r] fl]; [done|].
    destruct cb, r as [err|[]]; simpl;
      repeat (match goal with
              | |- context [send ?c ?w] => destruct (send c w)
              | |- context [match ?x with _ => _ end] => destruct x
              end; simpl); done.
  - destruct H as [H | [ns H]]; done.
Qed.

Lemma run_call_loop evs : ∀ s w,
  c_loop s ≠ NoInterval ∨ runs evs ≠ O →
  c_loop (run_call lock timeout write evs s w).1 ≠ NoInterval.
Proof.
  induction evs as [|ev evs IH]; intros s w H.
  - simpl in *. by destruct H.
  - cbn [run_call].
    pose proof (step_call_loop ev s w) as Hstep.
    destruct (step_call lock timeout write ev s w) as [s1 w1].
    apply IH. simpl in Hstep.
    destruct ev as [ns| |cs].
    + left. apply Hstep. right. by exists ns.
    + simpl in H. destruct H as [H|H]; [left; apply Hstep; by left | by right].
    + simpl in H. destruct H as [H|H]; [left; apply Hstep; by left | by right].
Qed.

(** The spin lock under contention until the timeout, the interval
    being stopped by the run that times out. *)
Lemma run_stops pre ns post w :
  Forall (in_time timeout) pre →
  Forall (λ f, f = None) (take (runs pre) (faults w)) →
  held lock pre (keyspace w) →
  late timeout (Run ns) →
  (runs pre = O → Forall (late timeout) post) →
  ∃ s,
    c_result s = Rejected lock_timeout ∧
    (runs pre ≠ O → c_loop s = Cleared) ∧
    run_call lock timeout write (pre ++ Run ns :: post) new_call w
      = (s, World (run_others (others_of (pre ++ Run ns :: post))
                     (keyspace w))
                  (issued w ++ replicate (runs pre) attempt)
                  (drop (runs pre) (faults w)) (schedule w)).
Proof.
  intros Htime Hfaults Hheld Hns Hpost.
  destruct (Nat.eq_dec (runs pre) O) as [H0 | H0].
  { destruct (run_times_out lock timeout write pre ns post w)
      as (s & Hres & Hrun); auto.
    exists s. split; [done|]. split; [done|]. exact Hrun. }
  destruct (run_contended lock timeout write pre 0%nat NoInterval [] w)
    as (a & l & fl & Hl & Hfl & Hpre); try done.
  pose proof (run_call_loop pre new_call w (or_intror H0)) as Hloop.
  unfold new_call in Hloop |- *. rewrite Hpre in Hloop. simpl in Hloop.
  destruct l; try done.
  rewrite run_call_app, Hpre.
  apply Z.ltb_lt in Hns.
  cbn [run_call step_call c_loop]. unfold acquireLock.
  cbn [c_attempts c_loop c_lock c_result c_inflight]. rewrite Hns.
  unfold reject, clearInterval.
  cbn [c_attempts c_loop c_lock c_result c_inflight].
  destruct (run_call_dead post (S a) fl
              (World (run_others (others_of pre) (keyspace w))
                 (issued w ++ replicate (runs pre) attempt)
                 (drop (runs pre) (faults w)) (schedule w)) lock_timeout
              (nil_reply_under_way _ Hfl))
    as [fl' Hdead].
  rewrite Hdead.
  exists (Call (S a) Cleared (Rejected lock_timeout) (Rejected lock_timeout)
            fl').
  split; [done|]. split; [done|]. simpl.
  by rewrite others_of_app, run_others_app.
Qed.

End Dead.

(* ===================================================================== *)
(** ** Further properties of [set] *)
(* ===================================================================== *)

(** X1: for a [ttl] and a [timeout] on which the doubles compute
    exactly ([exact_times]), a call of [set] with a defined value sends
    nothing but the conditional set of its lock (always with the expiry
    [timeout + 500]), the write of its entry and the [DEL] of its lock,
    whatever the schedule and the faults; and every key other than the
    entry and the lock ends as the other clients alone would have left
    it. *)
Theorem set_touches_two_keys c key value ttl timeout w :
  typeof value ≠ TUndefined →
  exact_times ttl timeout →
  let w' := (set c (JStr key) value ttl timeout w).2 in
  (∃ new,
     issued w' = issued w ++ new ∧
     Forall (own_event (lock_key c (JStr key))
               (resolve_timeout timeout (resolve_ttl ttl))
               (write_command c (JStr key) value ttl)) new) ∧
  ∀ k, k ≠ entry_key c (JStr key) → k ≠ lock_key c (JStr key) →
    keyspace w' !! k
      = run_others (others_of (schedule w)) (keyspace w) !! k.
Proof.
  intros Hval _ w'. subst w'. rewrite (set_runs _ _ _ _ _ _ Hval).
  destruct (run_call _ _ _ _ _ _) as [s w1] eqn:Hrun. simpl.
  apply (run_call_frame _ _ _ _ _ _ _ _ (keyspace w)) in Hrun; [|done].
  destruct Hrun as [Hnew Hoff]. split; [done|].
  intros k H1 H2. apply Hoff; [|done]. by rewrite key_of_write_command.
Qed.

Lemma set_touches_two_keys_witness :
  let w := World {[ "coal:b" := Entry "x" None ]} [] []
             [Run 1200; Others [DEL "other"]; Deliver; Deliver; Deliver] in
  keyspace (set (new_Coal None) (JStr "a") (JStr "v") None None w).2
    !! "coal:b" = Some (Entry "x" None).
Proof.
  intros w.
  destruct (set_touches_two_keys (new_Coal None) "a" (JStr "v") None None w)
    as [_ H]; [discriminate | split; vm_compute; discriminate |].
  rewrite H; [reflexivity | discriminate | discriminate].
Defined.

(** X2: mutual exclusion. If the lock is in the keyspace at every run of
    [acquireLock], [set] is never resolved, whatever the faults and the
    clock: it sends conditional sets only, at most one per run, never the
    write and never the [DEL], and the keyspace is what the other clients
    made it. *)
Theorem set_needs_the_lock c key value ttl timeout w :
  typeof value ≠ TUndefined →
  held (lock_key c (JStr key)) (schedule w) (keyspace w) →
  let r := set c (JStr key) value ttl timeout w in
  unresolved r.1 ∧
  keyspace r.2 = run_others (others_of (schedule w)) (keyspace w) ∧
  ∃ n, (n ≤ runs (schedule w))%nat ∧
    issued r.2
      = issued w ++ replicate n
          (Sent (SET_NX_PX (lock_key c (JStr key)) "1"
                   (resolve_timeout timeout (resolve_ttl ttl) + 500))).
Proof.
  intros Hval Hheld r. subst r. rewrite (set_runs _ _ _ _ _ _ Hval).
  destruct (run_call _ _ _ _ _ _) as [s w1] eqn:Hrun. simpl.
  apply run_call_excluded in Hrun; [|done|done].
  by destruct Hrun as ((_ & Hres & _) & Hks & Hn).
Qed.

Lemma set_needs_the_lock_witness :
  let w := World {[ "coal:lock:a" := Entry "1" (Some 600) ]} []
             [Some "ECONNRESET"]
             [Run 1200; Deliver; Run 20000000; Deliver; Run 40000000] in
  keyspace (set (new_Coal None) (JStr "a") (JStr "v") None None w).2
  = {[ "coal:lock:a" := Entry "1" (Some 600) ]}.
Proof.
  intros w.
  destruct (set_needs_the_lock (new_Coal None) "a" (JStr "v") None None w)
    as (_ & H & _); [discriminate | |exact H].
  simpl. repeat split; by eexists.
Defined.

(** X3: the lock is taken as soon as it is free, for a [ttl] and a
    [timeout] on which the doubles compute exactly ([exact_times]). If
    somebody else holds the lock over the stretch [pre] of the schedule
    (clock within the timeout, no fault), the lock is free at the next
    run of [acquireLock], and the replies are then delivered (at least
    [runs pre + 3] deliveries: the [nil] replies still under way, the
    reply to the successful attempt, to the write and to the [DEL]),
    then [set] resolves with the elapsed time of that run, as
    [toFixed(4)] rounds the double, and [attempts = runs pre + 1]. It
    has sent one conditional set per run (with the expiry
    [timeout + 500]), then the write and the [DEL]; the entry holds the
    encoded value with the expiry of the [ttl], and the lock is not in
    the keyspace. With [pre] empty this is the call that meets no
    contention. *)
Theorem set_takes_the_released_lock
    c key value ttl timeout w pre ns m rest :
  typeof value ≠ TUndefined →
  exact_times ttl timeout →
  schedule w = pre ++ Run ns :: replicate m Deliver ++ rest →
  Forall (in_time (resolve_timeout timeout (resolve_ttl ttl))) pre →
  in_time (resolve_timeout timeout (resolve_ttl ttl)) (Run ns) →
  held (lock_key c (JStr key)) pre (keyspace w) →
  run_others (others_of pre) (keyspace w) !! lock_key c (JStr key) = None →
  (runs pre + 3 ≤ m)%nat →
  Forall (λ f, f = None) (take (runs pre + 3) (faults w)) →
  set c (JStr key) value ttl timeout w
  = (Resolved (LockStats (to_fixed4 ns) (S (runs pre))),
     World (run_others (others_of rest)
              (<[entry_key c (JStr key) := Entry (encode value) (expiry ttl)]>
                 (run_others (others_of pre) (keyspace w))))
           (issued w ++
              replicate (runs pre)
                (Sent (SET_NX_PX (lock_key c (JStr key)) "1"
                         (resolve_timeout timeout (resolve_ttl ttl) + 500))) ++
              [Sent (SET_NX_PX (lock_key c (JStr key)) "1"
                       (resolve_timeout timeout (resolve_ttl ttl) + 500));
               Sent (write_command c (JStr key) value ttl);
               Sent (DEL (lock_key c (JStr key)))])
           (drop (runs pre + 3) (faults w)) []).
Proof.
  intros Hval _ Hsch Htime Hns Hheld Hfree Hm Hfaults.
  rewrite (set_runs _ _ _ _ _ _ Hval), Hsch.
  rewrite (run_call_acquires _ _ _ (entry_key c (JStr key))
             (Entry (encode value) (expiry ttl))); try done.
  - intros ks. apply exec_write_command.
  - apply entry_key_ne_lock_key.
Qed.

Lemma set_takes_the_released_lock_witness :
  let w := World {[ "coal:lock:a" := Entry "1" (Some 600) ]} [] []
             [Run 1200; Deliver; Others [DEL "coal:lock:a"]; Run 20000000;
              Deliver; Deliver; Deliver; Deliver; Run 40000000] in
  (set (new_Coal None) (JStr "a") (JNum 7) (Some 2) None w).1
  = Resolved (LockStats 200000 2).
Proof.
  intros w.
  rewrite (set_takes_the_released_lock (new_Coal None) "a" (JNum 7) (Some 2)
             None w [Run 1200; Deliver; Others [DEL "coal:lock:a"]]
             20000000 4 [Run 40000000]).
  - reflexivity.
  - discriminate.
  - split; vm_compute; discriminate.
  - reflexivity.
  - repeat constructor; vm_compute; discriminate.
  - vm_compute. split; discriminate.
  - simpl. split; [by eexists | done].
  - reflexivity.
  - simpl. lia.
  - simpl. constructor.
Defined.

(** X4: when the client reports an error for the first conditional set
    and every run of [acquireLock] before the delivery of that error
    reads a clock within the timeout, [set] rejects with a [RedisError]
    that carries the error. The ticks of the interval that come before
    the delivery have each sent one more conditional set; the delivery
    clears the interval, and from then on nothing is sent, whatever the
    schedule goes on with and whatever those conditional sets are
    answered: no further attempt, no write, no [DEL]. When no tick
    comes before the delivery, the one conditional set is all that was
    sent and the keyspace is what the other clients made it. *)
Theorem set_lock_error c key value ttl timeout w pre ns mid rest err :
  typeof value ≠ TUndefined →
  schedule w = pre ++ Run ns :: mid ++ Deliver :: rest →
  runs pre = O →
  Forall no_delivery mid →
  Forall (timely (resolve_timeout timeout (resolve_ttl ttl)))
    (Run ns :: mid) →
  next_fault w = Some err →
  let r := set c (JStr key) value ttl timeout w in
  r.1 = Rejected (RedisError err) ∧
  issued r.2
    = issued w ++
      replicate (S (runs mid))
        (Sent (SET_NX_PX (lock_key c (JStr key)) "1"
                 (resolve_timeout timeout (resolve_ttl ttl) + 500))) ∧
  faults r.2 = drop (S (runs mid)) (faults w) ∧
  schedule r.2 = [] ∧
  (runs mid = O →
   keyspace r.2
   = run_others (others_of (pre ++ mid ++ rest)) (keyspace w)).
Proof.
  intros Hval Hsch Hpre Hmid Htime Hfault r. subst r.
  rewrite (set_runs _ _ _ _ _ _ Hval), Hsch.
  destruct (run_call_first_error (lock_key c (JStr key))
              (resolve_timeout timeout (resolve_ttl ttl))
              (write_command c (JStr key) value ttl)
              pre ns mid rest (set_schedule [] w) err Hpre Hmid Htime
              Hfault)
    as (s & w' & -> & Hres & Hiss & Hfaults & Hsched & Hks).
  done.
Qed.

Lemma set_lock_error_witness :
  let w := World ∅ [] [Some "ECONNRESET"]
             [Run 1200; Run 20000000; Others [DEL "coal:b"]; Deliver;
              Run 40000000; Deliver; Deliver] in
  (set (new_Coal None) (JStr "a") (JStr "v") None None w).1
    = Rejected (RedisError "ECONNRESET") ∧
  issued (set (new_Coal None) (JStr "a") (JStr "v") None None w).2
    = replicate 2 (Sent (SET_NX_PX "coal:lock:a" "1" 3500)).
Proof.
  intros w.
  destruct (set_lock_error (new_Coal None) "a" (JStr "v") None None w []
              1200 [Run 20000000; Others [DEL "coal:b"]]
              [Run 40000000; Deliver; Deliver] "ECONNRESET")
    as (H1 & H2 & _).
  - discriminate.
  - reflexivity.
  - reflexivity.
  - repeat constructor; discriminate.
  - repeat constructor; vm_compute; discriminate.
  - reflexivity.
  - split; [exact H1 | exact H2].
Defined.

(** X5: a negative [timeout] is taken as it is (the operator [||]
    replaces falsy values only): the first run of [acquireLock] finds the
    elapsed time past it, and [set] rejects with the [AcquireError]
    without sending a single command. *)
Theorem set_negative_timeout c key value ttl t w :
  typeof value ≠ TUndefined →
  t < 0 →
  (0 < runs (schedule w))%nat →
  Forall clock_ok (schedule w) →
  set c (JStr key) value ttl (Some t) w
  = (Rejected lock_timeout,
     World (run_others (others_of (schedule w)) (keyspace w)) (issued w)
           (faults w) []).
Proof.
  intros Hval Ht Hruns Hclock.
  rewrite (set_runs _ _ _ _ _ _ Hval).
  assert (HT : resolve_timeout (Some t) (resolve_ttl ttl) = t).
  { unfold resolve_timeout, or_default.
    destruct (t =? 0) eqn:E; [apply Z.eqb_eq in E; lia | done]. }
  rewrite HT.
  destruct (run_call_late (lock_key c (JStr key)) t
              (write_command c (JStr key) value ttl) (schedule w)
              (set_schedule [] w)) as (s & Hres & Hrun); [done| |].
  - eapply Forall_impl; [done|]. intros [ns| |cs]; simpl; try done.
    intros Hns. pose proof (to_fixed4_nonneg ns Hns). lia.
  - by rewrite Hrun, Hres.
Qed.

Lemma set_negative_timeout_witness :
  let w := World ∅ [] [] [Run 1200; Deliver; Run 20000000] in
  set (new_Coal None) (JStr "a") (JStr "v") None (Some (-1)) w
  = (Rejected lock_timeout, World ∅ [] [] []).
Proof.
  intros w.
  rewrite (set_negative_timeout (new_Coal None) "a" (JStr "v") None (-1) w).
  - reflexivity.
  - discriminate.
  - lia.
  - simpl. lia.
  - repeat constructor; simpl; lia.
Defined.

(** X6: the [AcquireError] comes from the clock only: as long as every
    run of [acquireLock] reads a time within the timeout, [set] does not
    reject with it, whatever the replies and the faults. *)
Theorem set_in_time_no_timeout c key value ttl timeout w :
  Forall (in_time (resolve_timeout timeout (resolve_ttl ttl))) (schedule w) →
  (set c (JStr key) value ttl timeout w).1 ≠ Rejected lock_timeout.
Proof.
  intros Htime. unfold set. simpl negb. cbv iota.
  destruct (jstype_eqb _ _); [done|].
  destruct (run_call _ _ _ _ _ _) as [s w1] eqn:Hrun.
  by apply run_call_in_time in Hrun as [_ ?].
Qed.

Lemma set_in_time_no_timeout_witness :
  let w := World {[ "coal:lock:a" := Entry "1" (Some 600) ]} [] []
             [Run 1200; Deliver; Run 20000000] in
  (set (new_Coal None) (JStr "a") (JStr "v") None None w).1
  ≠ Rejected lock_timeout.
Proof.
  intros w.
  apply (set_in_time_no_timeout (new_Coal None) "a" (JStr "v") None None w).
  repeat constructor; vm_compute; discriminate.
Defined.

(** X7: the statistics that [set] resolves with: [elapsed] is within
    the timeout (it was read by a run that went on to send its
    conditional set), and [attempts] is at least 1 and at most the number
    of runs of [acquireLock]. *)
Theorem set_stats_bounds c key value ttl timeout w stats w' :
  set c (JStr key) value ttl timeout w = (Resolved stats, w') →
  elapsed stats ≤ resolve_timeout timeout (resolve_ttl ttl) * 10000 ∧
  (1 ≤ attempts stats ≤ runs (schedule w))%nat.
Proof.
  intros Hset.
  pose proof (set_resolved_defined _ _ _ _ _ _ _ _ Hset) as Hval.
  rewrite (set_runs _ _ _ _ _ _ Hval) in Hset.
  destruct (run_call _ _ _ _ _ _) as [s w1] eqn:Hrun.
  injection Hset as Hres ->.
  apply (stats_run _ _ _ _ 0%nat) in Hrun.
  - destruct Hrun as (H1 & _ & _ & H4). destruct (H4 _ Hres) as [He Ha].
    split; [done|]. simpl in H1. lia.
  - split; [done|]. split; [done|]. split; intros st; done.
Qed.

Lemma set_stats_bounds_witness :
  let w := World ∅ [] [] [Run 1200; Deliver; Run 20000000; Deliver; Deliver] in
  ∃ stats,
    (set (new_Coal None) (JStr "a") (JStr "v") None None w).1
      = Resolved stats ∧
    elapsed stats ≤ 3000 * 10000 ∧ (1 ≤ attempts stats ≤ 2)%nat.
Proof.
  intros w. exists (LockStats 12 1). split; [vm_compute; reflexivity|].
  apply (set_stats_bounds (new_Coal None) "a" (JStr "v") None None w
           (LockStats 12 1)
           (set (new_Coal None) (JStr "a") (JStr "v") None None w).2).
  vm_compute. reflexivity.
Defined.

(** X8: whatever the schedule and the replies, also when several
    conditional sets succeed (the lock having expired in between), a call
    of [set] sends the write of the entry at most once, and the [DEL] of
    the lock at most once and never without the write. *)
Theorem set_writes_once c key value ttl timeout w :
  let new := drop (length (issued w))
               (issued (set c (JStr key) value ttl timeout w).2) in
  (times_sent (DEL (lock_key c (JStr key))) new
   ≤ times_sent (write_command c (JStr key) value ttl) new ≤ 1)%nat.
Proof.
  intros new. subst new.
  destruct (jstype_eqb (typeof value) TUndefined) eqn:Hu.
  - unfold set. simpl negb. cbv iota. rewrite Hu. simpl.
    rewrite drop_all. unfold times_sent. simpl. lia.
  - assert (Hval : typeof value ≠ TUndefined) by (by destruct value).
    rewrite (set_runs _ _ _ _ _ _ Hval).
    destruct (run_call _ _ _ _ _ _) as [s w1] eqn:Hrun. simpl.
    apply (once_run _ _ _ (length (issued w))) in Hrun.
    + destruct Hrun as (_ & H1 & _ & H3). unfold since in *. lia.
    + apply write_command_not_attempt.
    + apply write_command_not_release.
    + split; [done|]. unfold since. simpl. rewrite drop_all.
      unfold times_sent. simpl. split; [lia|]. split; [done|lia].
Qed.

(** X9: when [set] resolves and no other client has named the lock
    during the call, the lock is free afterwards: the path of success
    releases what it took. *)
Theorem set_releases_the_lock c key value ttl timeout w stats w' :
  set c (JStr key) value ttl timeout w = (Resolved stats, w') →
  quiet (lock_key c (JStr key)) (schedule w) →
  keyspace w' !! lock_key c (JStr key) = None.
Proof.
  intros Hset Hq.
  pose proof (set_resolved_defined _ _ _ _ _ _ _ _ Hset) as Hval.
  rewrite (set_runs _ _ _ _ _ _ Hval) in Hset.
  destruct (run_call _ _ _ _ _ _) as [s w1] eqn:Hrun.
  injection Hset as Hres ->.
  assert (Hnew : released (lock_key c (JStr key)) new_call
                   (set_schedule [] w)).
  { intros [[st ?]|Hex%Exists_nil]; done. }
  apply (run_call_released _ _ _ (length (issued w)) _ _ _ _ _ Hq
           (inv_new _ _ _ (set_schedule [] w) (le_n _)) loop_new Hnew Hrun).
  left. by eexists.
Qed.

Lemma set_releases_the_lock_witness :
  let c := new_Coal None in
  let w := World ∅ [] [] [Run 1200; Deliver; Run 20000000; Deliver; Deliver] in
  keyspace (set c (JStr "a") (JStr "v") None None w).2 !! "coal:lock:a" = None.
Proof.
  intros c w.
  apply (set_releases_the_lock c "a" (JStr "v") None None w (LockStats 12 1)
           (set c (JStr "a") (JStr "v") None None w).2).
  - vm_compute. reflexivity.
  - constructor.
Defined.

(** X10: the round trip through the store. After a resolved [set] of a
    representable value, the other clients not having named the entry, a
    [get] of the same key (with or without [update], no fault) resolves
    with that very value; it is a hit: the read is its only event. *)
Theorem set_then_get c key value ttl timeout w stats w' update ttl' timeout' :
  set c (JStr key) value ttl timeout w = (Resolved stats, w') →
  quiet (entry_key c (JStr key)) (schedule w) →
  representable value = true →
  accepted_arguments update ttl' →
  next_fault w' = None →
  get c (JStr key) update ttl' timeout' w'
  = (Resolved value,
     World (keyspace w')
           (issued w' ++ [Sent (GET (entry_key c (JStr key)))])
           (tail (faults w')) (schedule w')).
Proof.
  intros Hset Hq Hv Hargs Hok.
  pose proof (set_resolved_stored _ _ _ _ _ _ _ _ Hset Hq) as Hk.
  rewrite (get_entry _ _ _ _ _ _ _ Hargs Hok Hk). cbn [e_value].
  by rewrite cache_round_trip.
Qed.

Lemma set_then_get_witness :
  let c := new_Coal None in
  let v := JObj [("n", JNum 1); ("tags", JArr [JStr "a"; JNull])] in
  let w := World ∅ [] [] [Run 1200; Deliver; Deliver; Deliver] in
  (get c (JStr "a") NoUpdate None None
     (set c (JStr "a") v (Some 5) None w).2).1
  = Resolved v.
Proof.
  intros c v w.
  rewrite (set_then_get c "a" v (Some 5) None w (LockStats 12 1)
             (set c (JStr "a") v (Some 5) None w).2 NoUpdate None None).
  - reflexivity.
  - vm_compute. reflexivity.
  - constructor.
  - reflexivity.
  - reflexivity.
  - reflexivity.
Defined.

(** X22: a promise is settled once. When the schedule has brought the
    promise that [set] returns to an outcome, resolved or rejected,
    nothing that happens later changes it: with any continuation of the
    schedule the outcome is the same. *)
Theorem set_outcome_is_final c key value ttl timeout w more :
  (set c (JStr key) value ttl timeout w).1 ≠ Pending →
  (set c (JStr key) value ttl timeout
     (set_schedule (schedule w ++ more) w)).1
  = (set c (JStr key) value ttl timeout w).1.
Proof.
  unfold set. simpl negb. cbv iota.
  destruct (jstype_eqb _ _); [done|]. simpl schedule.
  rewrite run_call_app.
  destruct (run_call _ _ _ (schedule w) _ _) as [s w1] eqn:Hrun.
  simpl. intros Hres.
  destruct (run_call _ _ _ more _ _) as [s2 w2] eqn:Hmore.
  apply final_run in Hrun as [Hinv _]; [|done].
  apply (final_run _ _ _ _ _ _ _ _ Hinv) in Hmore as [_ H]. simpl.
  by apply H.
Qed.

Lemma set_outcome_is_final_witness :
  let w := World ∅ [] [None; None; Some "ECONNRESET"]
             [Run 1200; Deliver; Deliver; Deliver] in
  (set (new_Coal None) (JStr "a") (JStr "v") None None
     (set_schedule (schedule w ++ [Run 20000000; Deliver; Deliver]) w)).1
  = Rejected (RedisError "ECONNRESET").
Proof.
  intros w.
  rewrite (set_outcome_is_final (new_Coal None) "a" (JStr "v") None None w
             [Run 20000000; Deliver; Deliver]).
  - vm_compute. reflexivity.
  - vm_compute. discriminate.
Defined.

(* ===================================================================== *)
(** ** Further properties of [get] *)
(* ===================================================================== *)

(** X11: cache-aside. When a [get] on a miss has resolved, having got a
    representable [result] from [update], it has resolved with [result]
    and the entry is in the store: the next [get] of the key resolves
    with [result] after the one read, without invoking its [update]. *)
Theorem get_populates_the_cache
    c key err result ttl timeout w v w' update ttl' timeout' :
  keyspace w !! entry_key c (JStr key) = None →
  get c (JStr key) (Update err result) ttl timeout w = (Resolved v, w') →
  quiet (entry_key c (JStr key)) (schedule w) →
  representable result = true →
  accepted_arguments update ttl' →
  next_fault w' = None →
  v = result ∧
  get c (JStr key) update ttl' timeout' w'
  = (Resolved result,
     World (keyspace w')
           (issued w' ++ [Sent (GET (entry_key c (JStr key)))])
           (tail (faults w')) (schedule w')).
Proof.
  intros Hmiss Hget Hq Hv Hargs Hok.
  apply get_miss_resolved in Hget as (_ & -> & stats & Hset); [|done].
  split; [by apply decode_representable|].
  pose proof (set_resolved_stored _ _ _ _ _ _ _ _ Hset Hq) as Hk.
  rewrite (get_entry _ _ _ _ _ _ _ Hargs Hok Hk). cbn [e_value].
  by rewrite cache_round_trip.
Qed.

Lemma get_populates_the_cache_witness :
  let c := new_Coal None in
  let v := JArr [JNum 1; JStr "x"] in
  let w := World ∅ [] [] [Run 1200; Deliver; Deliver; Deliver] in
  (get c (JStr "a") (Update (JStr "boom") JNull) (Some 1) None
     (get c (JStr "a") (Update JNull v) None None w).2).1
  = Resolved v.
Proof.
  intros c v w.
  destruct (get_populates_the_cache c "a" JNull v None None w v
              (get c (JStr "a") (Update JNull v) None None w).2
              (Update (JStr "boom") JNull) (Some 1) None) as [_ H].
  - reflexivity.
  - vm_compute. reflexivity.
  - constructor.
  - reflexivity.
  - exact I.
  - reflexivity.
  - rewrite H. reflexivity.
Defined.

(** X12: an error of the client on the read makes [get] reject with a
    [RedisError] that wraps it, and [update] is not invoked; the same
    error on the [DEL] makes [del] reject with the error itself, not
    wrapped. In both cases the command is the only event and the
    keyspace is as before. *)
Theorem store_errors_are_reported c key update ttl timeout key' w err :
  accepted_arguments update ttl →
  next_fault w = Some err →
  get c (JStr key) update ttl timeout w
  = (Rejected (RedisError err),
     World (keyspace w) (issued w ++ [Sent (GET (entry_key c (JStr key)))])
           (tail (faults w)) (schedule w)) ∧
  del c key' w
  = (Rejected (StoreFailure err),
     World (keyspace w) (issued w ++ [Sent (DEL (entry_key c key'))])
           (tail (faults w)) (schedule w)).
Proof.
  intros Hargs Hfault. split.
  - unfold get. simpl negb. cbv iota. fold (entry_key c (JStr key)).
    rewrite (send_fault _ _ _ Hfault).
    destruct update as [e result|n|], ttl as [n'|];
      simpl in Hargs; try discriminate; done.
  - unfold del. fold (entry_key c key').
    by rewrite (send_fault _ _ _ Hfault).
Qed.

Lemma store_errors_are_reported_witness :
  let c := new_Coal None in
  let w := World {[ "coal:a" := Entry "x" None ]} [] [Some "ECONNRESET"] [] in
  (get c (JStr "a") (Update JNull (JStr "fresh")) None None w).1
    = Rejected (RedisError "ECONNRESET") ∧
  (del c (JStr "a") w).1 = Rejected (StoreFailure "ECONNRESET").
Proof.
  intros c w.
  destruct (store_errors_are_reported c "a" (Update JNull (JStr "fresh"))
              None None (JStr "a") w "ECONNRESET") as [Hget Hdel].
  - exact I.
  - reflexivity.
  - rewrite Hget, Hdel. split; reflexivity.
Defined.

(** X13: on a miss, an [update] that hands over a truthy error makes
    [get] reject with that error itself. Nothing is written: the read and
    the invocation are the only events, and the schedule of the event
    loop is untouched, no [set] having been started. *)
Theorem get_update_error c key err result ttl timeout w :
  next_fault w = None →
  keyspace w !! entry_key c (JStr key) = None →
  truthy err = true →
  get c (JStr key) (Update err result) ttl timeout w
  = (Rejected (Failure err),
     World (keyspace w)
           (issued w ++ [Sent (GET (entry_key c (JStr key))); Invoked])
           (tail (faults w)) (schedule w)).
Proof.
  intros Hok Hmiss Herr. unfold get. simpl negb. cbv iota.
  fold (entry_key c (JStr key)).
  rewrite (send_no_fault _ _ Hok). simpl. rewrite Hmiss, Herr.
  unfold record; simpl. rewrite <- app_assoc. by destruct ttl.
Qed.

Lemma get_update_error_witness :
  let c := new_Coal None in
  let w := World ∅ [] [] [Run 1200; Deliver; Deliver; Deliver] in
  get c (JStr "a") (Update (JStr "boom") JUndefined) None None w
  = (Rejected (Failure (JStr "boom")),
     World ∅ [Sent (GET "coal:a"); Invoked] []
           [Run 1200; Deliver; Deliver; Deliver]).
Proof.
  intros c w.
  rewrite (get_update_error c "a" (JStr "boom") JUndefined None None w).
  - reflexivity.
  - reflexivity.
  - reflexivity.
  - reflexivity.
Defined.



(** X15: on a miss while somebody else holds the lock at each run of
    [acquireLock], a [get] whose [update] hands over a defined result and
    no error is never settled, also once the delegated [set] has timed
    out; besides the read and the invocation it has sent conditional sets
    only. *)
Theorem get_miss_waits_for_the_lock c key err result ttl timeout w :
  next_fault w = None →
  keyspace w !! entry_key c (JStr key) = None →
  truthy err = false →
  typeof result ≠ TUndefined →
  held (lock_key c (JStr key)) (schedule w) (keyspace w) →
  (get c (JStr key) (Update err result) ttl timeout w).1 = Pending ∧
  ∃ n,
    issued (get c (JStr key) (Update err result) ttl timeout w).2
    = issued w ++ [Sent (GET (entry_key c (JStr key))); Invoked] ++
      replicate n
        (Sent (SET_NX_PX (lock_key c (JStr key)) "1"
           (resolve_timeout
              (Some (resolve_timeout timeout (resolve_ttl ttl)))
              (resolve_ttl (Some (resolve_ttl ttl))) + 500))).
Proof.
  intros Hok Hmiss Herr Hval Hheld.
  rewrite (get_miss_set _ _ _ _ _ _ _ Hok Hmiss Herr).
  rewrite (set_runs _ _ _ _ _ _ Hval).
  destruct (run_call _ _ _ _ _ _) as [s w1] eqn:Hrun. simpl in Hrun.
  apply run_call_excluded in Hrun; [|done|done].
  destruct Hrun as ((_ & Hres & _) & _ & n & _ & Hn).
  cbn [issued set_schedule] in Hn. rewrite <- app_assoc in Hn.
  destruct (c_result s); cbn [fst snd]; try done;
    (split; [done|]); by exists n.
Qed.

Lemma get_miss_waits_for_the_lock_witness :
  let c := new_Coal None in
  let w := World {[ "coal:lock:a" := Entry "1" (Some 3500) ]} [] []
             [Run 1200; Deliver; Run 20000000; Deliver;
              Run 40000000000; Run 40020000000] in
  (get c (JStr "a") (Update JNull (JNum 7)) None None w).1 = Pending.
Proof.
  intros c w.
  destruct (get_miss_waits_for_the_lock c "a" JNull (JNum 7) None None w)
    as [H _].
  - reflexivity.
  - reflexivity.
  - reflexivity.
  - discriminate.
  - simpl. repeat split; by eexists.
  - exact H.
Defined.

(** X16: a number given in the place of [update] is taken as [ttl]
    (lines 76-79) and then never used: [get(key, n)] does what [get(key)]
    does, whatever the timeouts. With a [ttl] in the third place and no
    function in the second, the call throws the [TypeError] on [update]
    before any command is sent. *)
Theorem get_ttl_without_update c key (k : string) n timeout timeout' t w :
  get c key (Seconds n) None timeout w = get c key NoUpdate None timeout' w ∧
  get c (JStr k) (Seconds n) (Some t) timeout w
    = (Thrown update_not_function, w) ∧
  get c (JStr k) NoUpdate (Some t) timeout w
    = (Thrown update_not_function, w).
Proof.
  split; [|done]. unfold get.
  destruct (negb _); [done|].
  destruct (send _ w) as [[err|r] w1]; [done|]. by destruct r.
Qed.

(* ===================================================================== *)
(** ** Further properties of [del] *)
(* ===================================================================== *)


(** X18: deleting twice. With no fault, the first [del] resolves with
    the count of the server and the second one with 0, the keyspace
    staying as the first one left it. *)
Theorem del_twice c key w :
  Forall (λ f, f = None) (take 2 (faults w)) →
  ∃ n w1,
    del c key w = (Resolved (JNum n), w1) ∧
    del c key w1
    = (Resolved (JNum 0),
       World (keyspace w1)
             (issued w ++ [Sent (DEL (entry_key c key));
                           Sent (DEL (entry_key c key))])
             (drop 2 (faults w)) (schedule w)).
Proof.
  intros Hfaults. unfold del. fold (entry_key c key).
  assert (H1 : next_fault w = None).
  { unfold next_fault. destruct (faults w) as [|[?|] ?]; try done.
    by apply Forall_cons in Hfaults as [? _]. }
  rewrite (send_no_fault _ _ H1). simpl.
  eexists _, _. split; [done|].
  rewrite send_no_fault.
  - simpl. rewrite lookup_delete_eq, <- app_assoc. simpl.
    rewrite delete_delete_eq. do 3 f_equal.
    by destruct (faults w) as [|? [|? ?]].
  - unfold next_fault. simpl. destruct (faults w) as [|f1 [|[?|] ?]]; try done.
    apply Forall_cons in Hfaults as [_ Hfaults].
    by apply Forall_cons in Hfaults as [? _].
Qed.

Lemma del_twice_witness :
  let c := new_Coal None in
  let w := World {[ "coal:a" := Entry "x" None ]} [] [] [] in
  (del c (JStr "a") w).1 = Resolved (JNum 1) ∧
  (del c (JStr "a") (del c (JStr "a") w).2).1 = Resolved (JNum 0).
Proof.
  intros c w.
  destruct (del_twice c (JStr "a") w) as (n & w1 & H1 & H2).
  - constructor.
  - split; [reflexivity|]. rewrite H1. simpl. rewrite H2. reflexivity.
Defined.

(** X19: the lock of [key] is the cache entry of one key, and one
    only: ['lock:' + key]. So [del('lock:' + key)] deletes the lock of
    [key], and resolves with 1 when it was held. *)
Theorem del_of_lock_name c key w :
  next_fault w = None →
  (∀ k, entry_key c (JStr k) = lock_key c (JStr key) ↔ k = "lock:" +:+ key) ∧
  ∃ w',
    del c (JStr ("lock:" +:+ key)) w
    = (Resolved (JNum (match keyspace w !! lock_key c (JStr key) with
                       | Some _ => 1
                       | None => 0
                       end)), w') ∧
    keyspace w' !! lock_key c (JStr key) = None.
Proof.
  intros Hok. split.
  { intros k. unfold entry_key, lock_key. simpl. split; [|by intros ->].
    intros H. by apply (inj (String.append (prefix c))) in H. }
  unfold del.
  change (prefix c +:+ toString (JStr ("lock:" +:+ key)))
    with (lock_key c (JStr key)).
  rewrite (send_no_fault _ _ Hok). simpl. eexists. split.
  - by destruct (keyspace w !! lock_key c (JStr key)).
  - simpl. apply lookup_delete_eq.
Qed.

Lemma del_of_lock_name_witness :
  let c := new_Coal None in
  let w := World {[ "coal:lock:a" := Entry "1" (Some 3500) ]} [] [] [] in
  ∃ w', del c (JStr "lock:a") w = (Resolved (JNum 1), w') ∧
        keyspace w' !! "coal:lock:a" = None.
Proof.
  intros c w.
  destruct (del_of_lock_name c "a" w) as [_ (w' & H1 & H2)].
  - reflexivity.
  - exists w'. split; [exact H1 | exact H2].
Defined.

(* ===================================================================== *)
(** ** Further properties of the constructor *)
(* ===================================================================== *)

(** X20: the constructor writes to the options object it is given:
    when it creates the client itself from a port or a host, it sets
    [options.prefix] to [null] before handing the object to
    [redis.createClient]. The instance keeps the prefix that was read
    before, but a second instance built from the same object gets the
    default prefix. *)
Theorem constructor_erases_the_prefix o :
  truthy (o_client o) = false →
  truthy (o_port o) || truthy (o_host o) = true →
  let first := Coal_constructor (Some o) in
  let second := Coal_constructor (Some first.2) in
  i_prefix first.1 = (if truthy (o_prefix o) then o_prefix o else JStr "coal:") ∧
  o_prefix first.2 = JNull ∧
  i_client first.1 = CreatedClient (o_port o) (o_host o) first.2 ∧
  prefix (Coal_of second.1) = "coal:".
Proof.
  intros Hclient Hhost first second. subst first second.
  unfold Coal_constructor. simpl. rewrite Hclient.
  destruct (truthy (o_port o)) eqn:Hp, (truthy (o_host o)) eqn:Hh;
    try discriminate; simpl; rewrite ?Hclient, ?Hp, ?Hh; simpl; done.
Qed.

Lemma constructor_erases_the_prefix_witness :
  let o := Options JUndefined (JStr "10.0.0.1") JUndefined JUndefined
             JUndefined (JStr "app:") in
  i_prefix (Coal_constructor (Some o)).1 = JStr "app:" ∧
  prefix (Coal_of (Coal_constructor
                     (Some (Coal_constructor (Some o)).2)).1) = "coal:".
Proof.
  intros o.
  destruct (constructor_erases_the_prefix o) as (H1 & _ & _ & H4).
  - reflexivity.
  - reflexivity.
  - split; [exact H1 | exact H4].
Defined.

(* ===================================================================== *)
(** ** Further properties of the encoding *)
(* ===================================================================== *)

(** X21: no two representable values are stored as the same string:
    the encoding of lines 131-139 is injective on the values that the
    decode step of lines 109-115 gives back. (A string that is a JSON
    text is not representable: the string of the digits 12 is stored as
    the number 12 is.) *)
Theorem encode_injective v1 v2 :
  representable v1 = true → representable v2 = true →
  encode v1 = encode v2 → v1 = v2.
Proof.
  intros H1 H2 E.
  rewrite <- (cache_round_trip v1 H1), <- (cache_round_trip v2 H2).
  by rewrite E.
Qed.

Lemma encode_injective_witness :
  let v := JObj [("n", JNum 1); ("tags", JArr [JStr "a"; JNull])] in
  representable v = true ∧ v = v.
Proof.
  intros v. split; [reflexivity|].
  apply (encode_injective v v); reflexivity.
Defined.

(** X23: the spin lock gives up under contention. If somebody else
    holds the lock each time [acquireLock] runs over the stretch [pre]
    of the schedule (clock within the timeout, no fault), and the next
    run reads a clock past the timeout, then [set] rejects with the
    [AcquireError]. When that run is a tick of the interval it clears
    the interval: whatever the schedule goes on with, nothing is sent
    any more. When it is the direct call of line 195, the interval is
    installed only after it (line 196) and ticks once more, reading a
    later clock, which is past the timeout as well. All that [set] has
    sent is one conditional set per run of [pre], each answered [nil]:
    no write and no [DEL], and the keyspace is what the other clients
    made it. *)
Theorem set_gives_up_under_contention c key value ttl timeout w pre ns post :
  typeof value ≠ TUndefined →
  schedule w = pre ++ Run ns :: post →
  Forall (in_time (resolve_timeout timeout (resolve_ttl ttl))) pre →
  Forall (λ f, f = None) (take (runs pre) (faults w)) →
  held (lock_key c (JStr key)) pre (keyspace w) →
  late (resolve_timeout timeout (resolve_ttl ttl)) (Run ns) →
  (runs pre = O →
   Forall (late (resolve_timeout timeout (resolve_ttl ttl))) post) →
  set c (JStr key) value ttl timeout w
    = (Rejected lock_timeout,
       World (run_others (others_of (schedule w)) (keyspace w))
             (issued w ++
                replicate (runs pre)
                  (Sent (SET_NX_PX (lock_key c (JStr key)) "1"
                           (resolve_timeout timeout (resolve_ttl ttl) + 500))))
             (drop (runs pre) (faults w)) []).
Proof.
  intros Hval Hsched Htime Hfaults Hheld Hns Hpost.
  rewrite (set_runs _ _ _ _ _ _ Hval), Hsched.
  destruct (run_stops (lock_key c (JStr key))
              (resolve_timeout timeout (resolve_ttl ttl))
              (write_command c (JStr key) value ttl)
              pre ns post (set_schedule [] w))
    as (s & Hres & _ & ->); try done.
  by rewrite Hres.
Qed.

Lemma set_gives_up_under_contention_witness :
  let c := new_Coal None in
  let other := Entry "1" (Some 600) in
  let w := World {[ "coal:lock:a" := other ]} [] []
             [Run 1200; Run 20000000; Deliver; Run 40000000; Deliver;
              Run 60000000; Deliver; Run 70000000; Others [DEL "coal:lock:a"];
              Run 80000000] in
  set c (JStr "a") (JStr "x") None (Some 50) w
    = (Rejected lock_timeout,
       World ∅ (replicate 3 (Sent (SET_NX_PX "coal:lock:a" "1" 550)))
             [] []).
Proof.
  intros c other w.
  apply (set_gives_up_under_contention c "a" (JStr "x") None (Some 50) w
           [Run 1200; Run 20000000; Deliver; Run 40000000; Deliver]
           60000000
           [Deliver; Run 70000000; Others [DEL "coal:lock:a"]; Run 80000000]).
  - discriminate.
  - reflexivity.
  - repeat constructor; vm_compute; discriminate.
  - constructor.
  - simpl. repeat split; vm_compute; eexists; reflexivity.
  - vm_compute. reflexivity.
  - discriminate.
Defined.
